(** * DCE canonicalizer and marker instrumenter (dce_instrumenter/src/DCEInstrumenter.cpp)

    A shallow embedding of the two clang-tooling passes of the repository:
    [DCECanonicalizerTool] (wraps branch, loop and case bodies in braces) and
    [DCEInstrumenterTool] (inserts the numbered [DCEMarker<i>_();] calls),
    together with the helpers [createReplacement] and [addReplacementOrDie].

    The Clang services the passes call (source manager, lexer, the
    replacement set, the match engine's walk) are not part of the
    repository.  The source manager and the lexer are taken as records of
    functions; the replacement set is an interface with two instances; the
    syntax tree is an inductive type holding the locations the passes read. *)

From stdpp Require Import base option list strings gmap pretty.
From Stdlib Require Import Ascii String.

Set Warnings "-register-all".

Open Scope string_scope.
Open Scope N_scope.
Open Scope list_scope.

(** ** Source locations, tokens, source manager, lexer *)

(** [clang::SourceLocation]: an opaque raw encoding, ordered by that encoding;
    [0] is the invalid location. *)
Abbreviation SourceLocation := N.
Abbreviation FileID := N.

Definition isValid (Loc : SourceLocation) : bool := negb (Loc =? 0).

(** [clang::Token], as far as the passes look at it. *)
Record Token := mkToken {
  getLocation : SourceLocation;
  is_semi : bool                      (* [is(tok::semi)] *)
}.

(** The queries made to [clang::SourceManager]. [getCharacterData] gives the
    buffer text from a location on ([None] for the null pointer);
    [getFilename] is the name of a file id's file entry (empty when it has
    none), which the [tooling::Replacement] constructor stores. *)
Record SourceManager := mkSourceManager {
  getMainFileID : FileID;
  getSpellingLoc : SourceLocation → SourceLocation;
  getExpansionLoc : SourceLocation → SourceLocation;
  getDecomposedLoc : SourceLocation → FileID * N;
  getCharacterData : SourceLocation → option string;
  getLocForStartOfFile : FileID → SourceLocation;
  getFilename : FileID → string;
  isInMainFile : SourceLocation → bool
}.

(** [SourceManager::getFileID] is the first component of the decomposed
    location. *)
Definition getFileID (SM : SourceManager) (Loc : SourceLocation) : FileID :=
  (getDecomposedLoc SM Loc).1.

(** The static [clang::Lexer] queries for one source manager and one set of
    language options. *)
Record Lexer := mkLexer {
  MeasureTokenLength : SourceLocation → N;
  findNextToken : SourceLocation → option Token;
  GetBeginningOfToken : SourceLocation → SourceLocation
}.

(** ** Syntax tree *)

(** The statement classes the matchers name, with the locations read by the
    passes.  [OtherStmt] stands for every statement without sub-statements
    (expression statements, [break], declarations, ...).  Expressions are
    not part of the tree, so statements nested in expressions (lambda
    bodies, GNU statement expressions) are outside the model. *)
Inductive Stmt :=
| CompoundStmt (LBracLoc RBracLoc : SourceLocation) (Body : list Stmt)
| NullStmt (SemiLoc : SourceLocation)
| IfStmt (IfLoc : SourceLocation) (Then : Stmt) (Else : option Stmt)
| ForStmt (ForLoc : SourceLocation) (Body : Stmt)
| WhileStmt (WhileLoc : SourceLocation) (Body : Stmt)
| DoStmt (DoLoc : SourceLocation) (Body : Stmt) (RParenLoc : SourceLocation)
| CXXForRangeStmt (ForLoc : SourceLocation) (Body : Stmt)
| SwitchStmt (SwitchLoc : SourceLocation) (Body : Stmt)
| CaseStmt (KeywordLoc : SourceLocation) (SubStmt : Stmt)
| DefaultStmt (KeywordLoc : SourceLocation) (SubStmt : Stmt)
| ReturnStmt (RetLoc EndLoc : SourceLocation)
| OtherStmt (BeginLoc EndLoc : SourceLocation).

(** A translation unit, as far as statements go: the bodies of its function
    definitions, in source order. *)
Definition TranslationUnit := list Stmt.

Definition getBeginLoc (S : Stmt) : SourceLocation :=
  match S with
  | CompoundStmt L _ _ => L
  | NullStmt L => L
  | IfStmt L _ _ => L
  | ForStmt L _ => L
  | WhileStmt L _ => L
  | DoStmt L _ _ => L
  | CXXForRangeStmt L _ => L
  | SwitchStmt L _ => L
  | CaseStmt L _ => L
  | DefaultStmt L _ => L
  | ReturnStmt L _ => L
  | OtherStmt L _ => L
  end.

Fixpoint getEndLoc (S : Stmt) : SourceLocation :=
  match S with
  | CompoundStmt _ R _ => R
  | NullStmt L => L
  | IfStmt _ T E => match E with Some e => getEndLoc e | None => getEndLoc T end
  | ForStmt _ B => getEndLoc B
  | WhileStmt _ B => getEndLoc B
  | DoStmt _ _ R => R
  | CXXForRangeStmt _ B => getEndLoc B
  | SwitchStmt _ B => getEndLoc B
  | CaseStmt _ B => getEndLoc B
  | DefaultStmt _ B => getEndLoc B
  | ReturnStmt _ E => E
  | OtherStmt _ E => E
  end.

Definition isa_CompoundStmt (S : Stmt) : bool :=
  match S with CompoundStmt _ _ _ => true | _ => false end.
Definition isa_NullStmt (S : Stmt) : bool :=
  match S with NullStmt _ => true | _ => false end.
Definition isa_CaseStmt (S : Stmt) : bool :=
  match S with CaseStmt _ _ => true | _ => false end.
Definition isa_DefaultStmt (S : Stmt) : bool :=
  match S with DefaultStmt _ _ => true | _ => false end.
Definition isa_ReturnStmt (S : Stmt) : bool :=
  match S with ReturnStmt _ _ => true | _ => false end.

(** [SwitchCase::getSubStmt]; only case and default statements are
    [SwitchCase]s. *)
Definition getSubStmt (S : Stmt) : option Stmt :=
  match S with
  | CaseStmt _ B => Some B
  | DefaultStmt _ B => Some B
  | _ => None
  end.

(** [CompoundStmt::getLBracLoc] through [dyn_cast<CompoundStmt>]. *)
Definition getLBracLoc (S : Stmt) : option SourceLocation :=
  match S with CompoundStmt L _ _ => Some L | _ => None end.

(** The sub-statements of a node, in the order [Stmt::children] lists them. *)
Definition children (S : Stmt) : list Stmt :=
  match S with
  | CompoundStmt _ _ B => B
  | IfStmt _ T E => T :: option_list E
  | ForStmt _ B => [B]
  | WhileStmt _ B => [B]
  | DoStmt _ B _ => [B]
  | CXXForRangeStmt _ B => [B]
  | SwitchStmt _ B => [B]
  | CaseStmt _ B => [B]
  | DefaultStmt _ B => [B]
  | NullStmt _ | ReturnStmt _ _ | OtherStmt _ _ => []
  end.

(** The order in which the match engine reaches the nodes below [S]: its
    visitor tries the matchers on a child at the moment the parent lists the
    child, and queues the child; the children are expanded afterwards, in
    order.  So all children of a node are matched before any grandchild. *)
Fixpoint expand (S : Stmt) : list Stmt :=
  match S with
  | CompoundStmt _ _ B => B ++ flat_map expand B
  | IfStmt _ T E =>
      (T :: option_list E) ++ expand T ++ from_option expand [] E
  | ForStmt _ B => B :: expand B
  | WhileStmt _ B => B :: expand B
  | DoStmt _ B _ => B :: expand B
  | CXXForRangeStmt _ B => B :: expand B
  | SwitchStmt _ B => B :: expand B
  | CaseStmt _ B => B :: expand B
  | DefaultStmt _ B => B :: expand B
  | NullStmt _ | ReturnStmt _ _ | OtherStmt _ _ => []
  end.

Definition match_order (Root : Stmt) : list Stmt := Root :: expand Root.

(** A plain pre-order walk, for comparison. *)
Fixpoint preorder (S : Stmt) : list Stmt :=
  S :: match S with
       | CompoundStmt _ _ B => flat_map preorder B
       | IfStmt _ T E => preorder T ++ from_option preorder [] E
       | ForStmt _ B => preorder B
       | WhileStmt _ B => preorder B
       | DoStmt _ B _ => preorder B
       | CXXForRangeStmt _ B => preorder B
       | SwitchStmt _ B => preorder B
       | CaseStmt _ B => preorder B
       | DefaultStmt _ B => preorder B
       | NullStmt _ | ReturnStmt _ _ | OtherStmt _ _ => []
       end.


(** ** Matchers *)

(** The nodes bound by a match, by identifier ([MatchResult::Nodes]). *)
Definition BoundNodes := list (string * Stmt).

(** A matcher either fails or succeeds with the nodes it bound. *)
Definition Matcher := Stmt → option BoundNodes.

Fixpoint getNode (ID : string) (Nodes : BoundNodes) : option Stmt :=
  match Nodes with
  | [] => None
  | (k, n) :: r => if String.eqb k ID then Some n else getNode ID r
  end.

(** [Nodes.getNodeAs<T>(ID)]: the node bound to [ID] when it is a [T]. *)
Definition getNodeAs (isa : Stmt → bool) (ID : string) (Nodes : BoundNodes)
  : option Stmt :=
  match getNode ID Nodes with
  | Some n => if isa n then Some n else None
  | None => None
  end.

Definition isa_Stmt (S : Stmt) : bool := true.
Definition isa_SwitchCase (S : Stmt) : bool := isa_CaseStmt S || isa_DefaultStmt S.

Fixpoint allOf (ms : list Matcher) : Matcher := λ N,
  match ms with
  | [] => Some []
  | m :: r => b ← m N; b' ← allOf r N; Some (b ++ b')
  end.

Fixpoint anyOf (ms : list Matcher) : Matcher := λ N,
  match ms with
  | [] => None
  | m :: r => match m N with Some b => Some b | None => anyOf r N end
  end.

Definition unless (m : Matcher) : Matcher := λ N,
  match m N with Some _ => None | None => Some [] end.

Definition bind (ID : string) (m : Matcher) : Matcher := λ N,
  b ← m N; Some (b ++ [(ID, N)]).

Definition nodeMatcher (isa : Stmt → bool) (ms : list Matcher) : Matcher := λ N,
  if isa N then allOf ms N else None.

Definition stmt := nodeMatcher isa_Stmt.
Definition compoundStmt := nodeMatcher isa_CompoundStmt.
Definition ifStmt :=
  nodeMatcher (λ S, match S with IfStmt _ _ _ => true | _ => false end).
Definition forStmt :=
  nodeMatcher (λ S, match S with ForStmt _ _ => true | _ => false end).
Definition whileStmt :=
  nodeMatcher (λ S, match S with WhileStmt _ _ => true | _ => false end).
Definition doStmt :=
  nodeMatcher (λ S, match S with DoStmt _ _ _ => true | _ => false end).
Definition cxxForRangeStmt :=
  nodeMatcher (λ S, match S with CXXForRangeStmt _ _ => true | _ => false end).
Definition switchStmt :=
  nodeMatcher (λ S, match S with SwitchStmt _ _ => true | _ => false end).
Definition caseStmt := nodeMatcher isa_CaseStmt.
Definition defaultStmt := nodeMatcher isa_DefaultStmt.
Definition returnStmt := nodeMatcher isa_ReturnStmt.

(** [mapAnyOf(k1, ..., kn).with(ms)]: any of the node kinds, each with [ms]. *)
Definition mapAnyOf_with (kinds : list (list Matcher → Matcher))
  (ms : list Matcher) : Matcher :=
  anyOf (map (λ k, k ms) kinds).

Definition hasThen (m : Matcher) : Matcher := λ N,
  match N with IfStmt _ T _ => m T | _ => None end.

Definition hasElse (m : Matcher) : Matcher := λ N,
  match N with IfStmt _ _ (Some E) => m E | _ => None end.

Definition hasBody (m : Matcher) : Matcher := λ N,
  match N with
  | ForStmt _ B | WhileStmt _ B | DoStmt _ B _ | CXXForRangeStmt _ B => m B
  | _ => None
  end.

(** [hasDescendant(m)] keeps the bindings of the first descendant that
    matches. *)
Definition hasDescendant (m : Matcher) : Matcher := λ N,
  anyOf (map (λ D _, m D) (expand N)) N.

Definition isExpansionInMainFile (SM : SourceManager) : Matcher := λ N,
  if isInMainFile SM (getExpansionLoc SM (getBeginLoc N)) then Some [] else None.

(** ** The match engine *)

(** Run [f] over a list, left to right, threading the state; [None] once a
    step has aborted. *)
Fixpoint for_each {A S : Type} (f : A → S → option S) (l : list A) (s : S)
  : option S :=
  match l with
  | [] => Some s
  | x :: r => s' ← f x s; for_each f r s'
  end.

(** On one node the engine tries the registered matchers in registration
    order and calls the callback for each that matches. *)
Definition matchNode {S : Type} (Matchers : list Matcher)
  (run : BoundNodes → S → option S) (Node : Stmt) : S → option S :=
  for_each (λ M s, match M Node with Some R => run R s | None => Some s end)
           Matchers.

Definition nodes_in_match_order (TU : TranslationUnit) : list Stmt :=
  flat_map match_order TU.

Definition matchAST {S : Type} (Matchers : list Matcher)
  (run : BoundNodes → S → option S) (TU : TranslationUnit) : S → option S :=
  for_each (matchNode Matchers run) (nodes_in_match_order TU).

(** ** Replacements *)

(** [clang::tooling::Replacement]. *)
Record Replacement := mkReplacement {
  FilePath : string;
  Offset : N;
  Length : N;
  ReplacementText : string
}.

(** The default-constructed [tooling::Replacement()]: no file, empty range,
    empty text. *)
Definition InvalidReplacement : Replacement := mkReplacement "" 0 0 "".

(** What the passes need from [std::map<std::string, tooling::Replacements>]:
    [ledger_add R F] is [F[R.getFilePath()].add(R)], [None] when [add]
    returns an error. *)
Class EditLedger (L : Type) := ledger_add : Replacement → L → option L.

(** The replacement map and the text written to [llvm::errs()]. *)
Record Output (L : Type) := mkOutput {
  FileToReplacements : L;
  errs : list string
}.
Arguments mkOutput {L} _ _.
Arguments FileToReplacements {L} _.
Arguments errs {L} _.

Definition nl : string := String "010"%char EmptyString.

(** [std::string{Source, Source + Len}]. *)
Definition token_text (Source : string) (Len : N) : string :=
  String.substring 0 (N.to_nat Len) Source.

(** [std::string(n, c)]. *)
Fixpoint string_of_chars (n : nat) (c : ascii) : string :=
  match n with
  | O => EmptyString
  | S k => String c (string_of_chars k c)
  end.

Section Replacing.
Context (SM : SourceManager) (DefaultLO : Lexer).
Context {L : Type} `{!EditLedger L}.

(** [getRangeSize] of Replacement.cpp for a token range; [-1] when the
    two ends lie in different files. *)
Definition getRangeSize (Begin End : SourceLocation) : Z :=
  let SpellingBegin := getSpellingLoc SM Begin in
  let SpellingEnd := getSpellingLoc SM End in
  let Start := getDecomposedLoc SM SpellingBegin in
  let End' := getDecomposedLoc SM SpellingEnd in
  if negb (Start.1 =? End'.1) then (-1)%Z
  else (Z.of_N (End'.2 + MeasureTokenLength DefaultLO SpellingEnd)
        - Z.of_N Start.2)%Z.

(** [Replacement(SM, CharSourceRange::getTokenRange(Begin, End), Text)];
    the constructor measures the last token with default language
    options and stores the size as [unsigned]. *)
Definition Replacement_of_token_range (Begin End : SourceLocation)
  (Text : string) : Replacement :=
  let Start := getDecomposedLoc SM (getSpellingLoc SM Begin) in
  mkReplacement (getFilename SM Start.1) Start.2
                (Z.to_N (getRangeSize Begin End mod 2 ^ 32)) Text.

Definition createReplacement (Start End : SourceLocation)
  (ReplacementText : string) : Replacement * list string :=
  if negb (isValid Start) || negb (isValid End) then
    (InvalidReplacement, ["start or end location were invalid" +:+ nl])
  else if negb ((getDecomposedLoc SM Start).1 =? (getDecomposedLoc SM End).1)
  then
    (InvalidReplacement,
     ["start or end location were in different macro expansions" +:+ nl])
  else
    let Start := getSpellingLoc SM Start in
    let End := getSpellingLoc SM End in
    if negb (getFileID SM Start =? getFileID SM End) then
      (InvalidReplacement,
       ["start or end location were in different files" +:+ nl])
    else
      (Replacement_of_token_range (getSpellingLoc SM Start)
                                  (getSpellingLoc SM End) ReplacementText,
       []).

(** [None] is the [llvm_unreachable] taken when the map refuses the
    replacement. *)
Definition addReplacementOrDie (Start End : SourceLocation)
  (ReplacementText : string) (O : Output L) : option (Output L) :=
  let '(R, diag) := createReplacement Start End ReplacementText in
  F ← ledger_add R (FileToReplacements O);
  Some (mkOutput F (errs O ++ diag)).

End Replacing.

(** The token the passes append to: the [;] after the statement when there
    is one, else the token the end location lies in (the lambda
    [EndTokenLoc] of [handleStmt] and [handleStmtWithReturnDescendant]). *)
Definition EndTokenLoc (LO : Lexer) (StmtEnd : SourceLocation) : SourceLocation :=
  match findNextToken LO StmtEnd with
  | Some SemiToken =>
      if is_semi SemiToken then getLocation SemiToken
      else GetBeginningOfToken LO StmtEnd
  | None => GetBeginningOfToken LO StmtEnd
  end.

(** ** [std::map<SourceLocation, size_t>] *)

(** The map is kept as its in-order listing (ascending keys), which is the
    order a range-for over it visits. *)
Abbreviation LocationCounts := (list (SourceLocation * nat)).

(** [++M[Loc]]: a missing key is created with count zero first. *)
Fixpoint increment (Loc : SourceLocation) (M : LocationCounts) : LocationCounts :=
  match M with
  | [] => [(Loc, 1%nat)]
  | (k, n) :: r =>
      if Loc <? k then (Loc, 1%nat) :: (k, n) :: r
      else if Loc =? k then (k, S n) :: r
      else (k, n) :: increment Loc r
  end.


(** ** The canonicalizer *)

Module DCECanonicalizerTool.

Record State (L : Type) := mkState {
  CurlyBracesInsertedAtLocation : LocationCounts;
  Out : Output L
}.
Arguments mkState {L} _ _.
Arguments CurlyBracesInsertedAtLocation {L} _.
Arguments Out {L} _.

Definition init {L : Type} (F : L) : State L := mkState [] (mkOutput F []).

Section Tool.
Context (SM : SourceManager) (LO DefaultLO : Lexer).
Context {L : Type} `{!EditLedger L}.

Definition registerMatchers : list Matcher :=
  [ ifStmt [isExpansionInMainFile SM; hasThen (bind "stmt" (stmt []))];
    ifStmt [isExpansionInMainFile SM; hasElse (bind "stmt" (stmt []))];
    mapAnyOf_with [forStmt; whileStmt; doStmt; cxxForRangeStmt]
      [isExpansionInMainFile SM; hasBody (bind "stmt" (stmt []))];
    bind "switch_case"
      (caseStmt [isExpansionInMainFile SM;
                 unless (anyOf [hasDescendant (defaultStmt []);
                                hasDescendant (caseStmt [])])]);
    bind "switch_case"
      (defaultStmt [isExpansionInMainFile SM;
                    unless (anyOf [hasDescendant (defaultStmt []);
                                   hasDescendant (caseStmt [])])]) ].

Definition handleStmt (Statement : Stmt) (T : State L) : option (State L) :=
  let StmtBegin := getBeginLoc Statement in
  if negb (getMainFileID SM =? getFileID SM (getSpellingLoc SM StmtBegin))
  then Some T
  else if isa_CompoundStmt Statement then Some T
  else if isa_NullStmt Statement then
    O ← addReplacementOrDie SM DefaultLO StmtBegin StmtBegin "{}" (Out T);
    Some (mkState (CurlyBracesInsertedAtLocation T) O)
  else
    let StmtEnd := getEndLoc Statement in
    BeginSource ← getCharacterData SM StmtBegin;
    let BeginTokenLen := MeasureTokenLength LO StmtBegin in
    O ← addReplacementOrDie SM DefaultLO StmtBegin StmtBegin
          ("{" +:+ token_text BeginSource BeginTokenLen) (Out T);
    Some (mkState
            (increment (EndTokenLoc LO StmtEnd)
                       (CurlyBracesInsertedAtLocation T))
            O).

Definition run (Result : BoundNodes) (T : State L) : option (State L) :=
  match getNodeAs isa_Stmt "stmt" Result with
  | Some Statement => handleStmt Statement T
  | None =>
      match getNodeAs isa_SwitchCase "switch_case" Result with
      | Some SwitchCase_ =>
          match getSubStmt SwitchCase_ with
          | Some Sub => handleStmt Sub T
          | None => Some T
          end
      | None => Some T
      end
  end.

(** One iteration of the loop of [onEndOfTranslationUnit]. *)
Definition flushLocation (Entry : SourceLocation * nat) (O : Output L)
  : option (Output L) :=
  let '(Loc, NBraces) := Entry in
  let TokenLen := MeasureTokenLength LO Loc in
  Source ← getCharacterData SM Loc;
  addReplacementOrDie SM DefaultLO Loc Loc
    (token_text Source TokenLen +:+ string_of_chars NBraces "}"%char) O.

Definition onEndOfTranslationUnit (T : State L) : option (State L) :=
  O ← for_each flushLocation (CurlyBracesInsertedAtLocation T) (Out T);
  Some (mkState (CurlyBracesInsertedAtLocation T) O).

(** The pass over one translation unit: the match callbacks in match
    order, then the end-of-unit callback. *)
Definition runOnTranslationUnit (TU : TranslationUnit) (F : L)
  : option (State L) :=
  T ← matchAST registerMatchers run TU (init F);
  onEndOfTranslationUnit T.

End Tool.

End DCECanonicalizerTool.

(** ** The instrumenter *)

Module DCEInstrumenterTool.

Record State (L : Type) := mkState {
  NFunctionsInserted : nat;
  Out : Output L
}.
Arguments mkState {L} _ _.
Arguments NFunctionsInserted {L} _.
Arguments Out {L} _.

Definition init {L : Type} (F : L) : State L := mkState 0 (mkOutput F []).

(** [std::to_string] on a [size_t]. *)
Definition to_string (n : nat) : string := pretty n.

Section Tool.
Context (SM : SourceManager) (LO DefaultLO : Lexer).
Context {L : Type} `{!EditLedger L}.

Definition registerMatchers : list Matcher :=
  let HasReturnDesc :=
    allOf [isExpansionInMainFile SM; hasDescendant (returnStmt [])] in
  [ ifStmt [isExpansionInMainFile SM;
            hasThen (bind "cstmt" (compoundStmt []))];
    ifStmt [isExpansionInMainFile SM;
            hasElse (bind "cstmt" (compoundStmt []))];
    mapAnyOf_with [forStmt; whileStmt; doStmt; cxxForRangeStmt]
      [isExpansionInMainFile SM; hasBody (bind "cstmt" (compoundStmt []))];
    bind "switch_case"
      (caseStmt [isExpansionInMainFile SM;
                 unless (anyOf [hasDescendant (defaultStmt []);
                                hasDescendant (caseStmt [])])]);
    bind "switch_case"
      (defaultStmt [isExpansionInMainFile SM;
                    unless (anyOf [hasDescendant (defaultStmt []);
                                   hasDescendant (caseStmt [])])]);
    bind "stmt_with_return_descendant"
      (mapAnyOf_with [ifStmt; forStmt; whileStmt; doStmt; cxxForRangeStmt;
                      switchStmt]
         [HasReturnDesc]) ].

(** Returns the call text and post-increments the counter. *)
Definition getNewDCECallStr (T : State L) : string * State L :=
  ("DCEMarker" +:+ to_string (NFunctionsInserted T) +:+ "_();",
   mkState (S (NFunctionsInserted T)) (Out T)).

(** Only ever called on compound statements; [LBracLoc] is theirs. *)
Definition handleCompoundStmt (CStatement : Stmt) (T : State L)
  : option (State L) :=
  match getLBracLoc CStatement with
  | Some LBracLoc =>
      let '(Call, T1) := getNewDCECallStr T in
      O ← addReplacementOrDie SM DefaultLO LBracLoc LBracLoc
            ("{" +:+ nl +:+ Call) (Out T1);
      Some (mkState (NFunctionsInserted T1) O)
  | None => Some T
  end.

Definition handleStmtWithReturnDescendant (Statement : Stmt) (T : State L)
  : option (State L) :=
  let StmtEnd := getEndLoc Statement in
  if negb (getMainFileID SM =? getFileID SM (getSpellingLoc SM StmtEnd))
  then Some T
  else
    let EndTokenLoc := EndTokenLoc LO StmtEnd in
    let TokenLen := MeasureTokenLength LO EndTokenLoc in
    Source ← getCharacterData SM EndTokenLoc;
    let '(Call, T1) := getNewDCECallStr T in
    O ← addReplacementOrDie SM DefaultLO EndTokenLoc EndTokenLoc
          (token_text Source TokenLen +:+ nl +:+ Call) (Out T1);
    Some (mkState (NFunctionsInserted T1) O).

Definition run (Result : BoundNodes) (T : State L) : option (State L) :=
  match getNodeAs isa_CompoundStmt "cstmt" Result with
  | Some CStatement => handleCompoundStmt CStatement T
  | None =>
      match getNodeAs isa_Stmt "stmt_with_return_descendant" Result with
      | Some Statement => handleStmtWithReturnDescendant Statement T
      | None =>
          match getNodeAs isa_SwitchCase "switch_case" Result with
          | Some SwitchCase_ =>
              match getSubStmt SwitchCase_ with
              | Some Sub =>
                  if isa_CompoundStmt Sub then handleCompoundStmt Sub T
                  else Some T
              | None => Some T
              end
          | None => Some T
          end
      end
  end.

(** The forward declarations written by the loop over [0, N). *)
Definition declarations (N : nat) : string :=
  foldl (λ SS I, SS +:+ "void DCEMarker" +:+ to_string I +:+ "_(void);" +:+ nl)
        "" (seq 0 N).

Definition onEndOfTranslationUnit (T : State L) : option (State L) :=
  if (NFunctionsInserted T =? 0)%nat then Some T
  else
    let SS := declarations (NFunctionsInserted T) in
    let FBeginLoc := getLocForStartOfFile SM (getMainFileID SM) in
    let TokenLen := MeasureTokenLength LO FBeginLoc in
    Source ← getCharacterData SM FBeginLoc;
    O ← addReplacementOrDie SM DefaultLO FBeginLoc FBeginLoc
          (SS +:+ token_text Source TokenLen) (Out T);
    Some (mkState (NFunctionsInserted T) O).

Definition runOnTranslationUnit (TU : TranslationUnit) (F : L)
  : option (State L) :=
  T ← matchAST registerMatchers run TU (init F);
  onEndOfTranslationUnit T.

End Tool.

End DCEInstrumenterTool.

(** ** Two edit ledgers *)

(** The recording ledger keeps every replacement handed to it, in call
    order, and never refuses one: running a pass with it yields the edits
    the pass emits. *)
Abbreviation EditTrace := (list Replacement).

Definition trace_ledger : EditLedger EditTrace := λ R F, Some (F ++ [R]).

(** [tooling::Replacements::add] over the set's in-order listing.  The
    entries of one set never overlap, so they are ordered by offset, an
    insertion before a replacement that starts at its offset.  The merge of
    overlapping replacements is left to the parameter
    [mergeIfOrderIndependent]. *)
Section ClangReplacements.
Variable mergeIfOrderIndependent :
  list Replacement → Replacement → option (list Replacement).

(** [Range::overlapsWith]. *)
Definition overlapsWith (R1 R2 : Replacement) : bool :=
  (Offset R2 <? Offset R1 + Length R1) && (Offset R1 <? Offset R2 + Length R2).

(** Split a listing at the first entry that fails [p]. *)
Fixpoint span (p : Replacement → bool) (l : list Replacement)
  : list Replacement * list Replacement :=
  match l with
  | [] => ([], [])
  | x :: r => if p x then let '(a, b) := span p r in (x :: a, b) else ([], l)
  end.

(** Split off the longest tail of entries that overlap [R]. *)
Definition overlapping_tail (R : Replacement) (Before : list Replacement)
  : list Replacement * list Replacement :=
  let '(ov, keep) := span (overlapsWith R) (reverse Before) in
  (reverse keep, reverse ov).

Definition UINT_MAX : N := 4294967295.

Definition Replacements_add (Replaces : list Replacement) (R : Replacement)
  : option (list Replacement) :=
  let wrong_file_path :=
    match Replaces with
    | First :: _ => negb (String.eqb (FilePath R) (FilePath First))
    | [] => false
    end in
  if wrong_file_path then None
  else if Offset R =? UINT_MAX then Some (Replaces ++ [R])
  else
    let AtEnd := Offset R + Length R in
    let '(Before, After) := span (λ E, Offset E <? AtEnd) Replaces in
    let no_entry_at_offset :=
      match last Before with
      | None => Some (R :: After)
      | Some Prev =>
          if negb (overlapsWith R Prev) then Some (Before ++ R :: After)
          else
            let '(Keep, Overlapping) := overlapping_tail R Before in
            Merged ← mergeIfOrderIndependent Overlapping R;
            Some (Keep ++ Merged ++ After)
      end in
    match After with
    | Next :: After' =>
        if Offset R =? Offset Next then
          if Length Next =? 0 then
            if String.eqb (ReplacementText R +:+ ReplacementText Next)
                          (ReplacementText Next +:+ ReplacementText R)
            then Some (Before ++
                       mkReplacement (FilePath R) (Offset R) 0
                         (ReplacementText R +:+ ReplacementText Next) :: After')
            else None
          else Some (Before ++ R :: After)
        else no_entry_at_offset
    | [] => no_entry_at_offset
    end.

(** [FileToReplacements[R.getFilePath()].add(R)]. *)
Definition clang_ledger : EditLedger (gmap string (list Replacement)) :=
  λ R F,
    Rs ← Replacements_add (default [] (F !! FilePath R)) R;
    Some (<[FilePath R := Rs]> F).

End ClangReplacements.

(** ** Concrete source buffers

    A source manager and a lexer given by a finite table with one row per
    location of interest, used to run the passes on concrete inputs. *)
Module Buffers.

Record Row := mkRow {
  row_loc : SourceLocation;
  row_file : FileID;                 (* file id of the decomposed location *)
  row_offset : N;                    (* offset of the decomposed location *)
  row_spelling : SourceLocation;
  row_expansion : SourceLocation;
  row_chars : option string;         (* character data from the location *)
  row_len : N;                       (* length of the token measured here *)
  row_next : option Token;           (* the token that follows *)
  row_begin : SourceLocation         (* start of the token it lies in *)
}.

Fixpoint row_at (T : list Row) (Loc : SourceLocation) : option Row :=
  match T with
  | [] => None
  | r :: T' => if row_loc r =? Loc then Some r else row_at T' Loc
  end.

Definition query {A : Type} (T : list Row) (f : Row → A) (d : A)
  (Loc : SourceLocation) : A :=
  match row_at T Loc with Some r => f r | None => d end.

Fixpoint name_of (Names : list (FileID * string)) (F : FileID) : string :=
  match Names with
  | [] => ""
  | (k, n) :: r => if k =? F then n else name_of r F
  end.

Definition sourceManager (Main : FileID) (Names : list (FileID * string))
  (FileStart : FileID → SourceLocation) (T : list Row) : SourceManager :=
  {| getMainFileID := Main;
     getSpellingLoc := λ Loc, query T row_spelling Loc Loc;
     getExpansionLoc := λ Loc, query T row_expansion Loc Loc;
     getDecomposedLoc := λ Loc, query T (λ r, (row_file r, row_offset r)) (0, 0) Loc;
     getCharacterData := query T row_chars None;
     getLocForStartOfFile := FileStart;
     getFilename := name_of Names;
     isInMainFile := λ Loc, query T (λ r, row_file r =? Main) false Loc |}.

Definition lexer (T : list Row) : Lexer :=
  {| MeasureTokenLength := query T row_len 0;
     findNextToken := query T row_next None;
     GetBeginningOfToken := λ Loc, query T row_begin Loc Loc |}.

(** A single file, [input.cc] with file id 1, whose tokens are written one
    space apart from offset 0; the location of a token is its offset plus
    one. *)
Fixpoint offsets (Start : N) (Toks : list string) : list (N * string) :=
  match Toks with
  | [] => []
  | t :: r => (Start, t) :: offsets (Start + N.of_nat (String.length t) + 1) r
  end.

Fixpoint file_rows (Laid : list (N * string)) : list Row :=
  match Laid with
  | [] => []
  | (o, t) :: r =>
      mkRow (o + 1) 1 o (o + 1) (o + 1) (Some t) (N.of_nat (String.length t))
            (match r with
             | (o', t') :: _ => Some (mkToken (o' + 1) (String.eqb t' ";"))
             | [] => None
             end)
            (o + 1)
      :: file_rows r
  end.

Definition rows (Toks : list string) : list Row := file_rows (offsets 0 Toks).

Definition fileSM (Toks : list string) : SourceManager :=
  sourceManager 1 [(1, "input.cc")] (λ _, 1) (rows Toks).

Definition fileLexer (Toks : list string) : Lexer := lexer (rows Toks).

(** Location of the [i]-th token (from 0). *)
Definition tok (Toks : list string) (i : nat) : SourceLocation :=
  match offsets 0 Toks !! i with Some (o, _) => o + 1 | None => 0 end.

End Buffers.

(** ** What the callbacks act on *)

(** The statement [DCECanonicalizerTool::run] hands to [handleStmt]. *)
Definition canonicalizer_target (Result : BoundNodes) : option Stmt :=
  match getNodeAs isa_Stmt "stmt" Result with
  | Some Statement => Some Statement
  | None => getNodeAs isa_SwitchCase "switch_case" Result ≫= getSubStmt
  end.

(** A place where the instrumenter puts a call: at the opening brace of a
    block, or after a statement that has a [return] below it. *)
Inductive Site :=
| Entry (CStatement : Stmt)
| FallThrough (Statement : Stmt).

(** The handler [DCEInstrumenterTool::run] chooses, with its argument. *)
Definition instrumenter_target (Result : BoundNodes) : option Site :=
  match getNodeAs isa_CompoundStmt "cstmt" Result with
  | Some CStatement => Some (Entry CStatement)
  | None =>
      match getNodeAs isa_Stmt "stmt_with_return_descendant" Result with
      | Some Statement => Some (FallThrough Statement)
      | None =>
          SwitchCase_ ← getNodeAs isa_SwitchCase "switch_case" Result;
          Sub ← getSubStmt SwitchCase_;
          if isa_CompoundStmt Sub then Some (Entry Sub) else None
      end
  end.

(** The callback arguments one node gives rise to, in callback order. *)
Definition targets_at {B : Type} (Matchers : list Matcher)
  (target : BoundNodes → option B) (Node : Stmt) : list B :=
  omap (λ M : Matcher, M Node ≫= target) Matchers.

Definition in_main (SM : SourceManager) (N : Stmt) : bool :=
  isInMainFile SM (getExpansionLoc SM (getBeginLoc N)).

Definition label_below (N : Stmt) : bool := existsb isa_SwitchCase (expand N).

Definition return_below (N : Stmt) : bool := existsb isa_ReturnStmt (expand N).

(** The body positions of a node that the passes look at: both branches of
    an [if], the body of a loop, the sub-statement of a label that has no
    label below it. *)
Definition bodies (SM : SourceManager) (N : Stmt) : list Stmt :=
  if in_main SM N then
    match N with
    | IfStmt _ T E => T :: option_list E
    | ForStmt _ B | WhileStmt _ B | DoStmt _ B _ | CXXForRangeStmt _ B => [B]
    | CaseStmt _ B | DefaultStmt _ B => if label_below N then [] else [B]
    | _ => []
    end
  else [].

Definition is_construct (N : Stmt) : bool :=
  match N with
  | IfStmt _ _ _ | ForStmt _ _ | WhileStmt _ _ | DoStmt _ _ _
  | CXXForRangeStmt _ _ | SwitchStmt _ _ => true
  | _ => false
  end.

(** The sites of one node, in the order their callbacks run: the blocks
    among its body positions first, then the node itself when it is a
    branch, loop or switch with a [return] below it. *)
Definition node_sites (SM : SourceManager) (N : Stmt) : list Site :=
  map Entry (List.filter isa_CompoundStmt (bodies SM N))
  ++ (if in_main SM N && is_construct N && return_below N
      then [FallThrough N] else []).

(** The handler call made for a site. *)
Definition instrument_site {L : Type} `{!EditLedger L}
  (SM : SourceManager) (LO DefaultLO : Lexer) (s : Site)
  (T : DCEInstrumenterTool.State L) : option (DCEInstrumenterTool.State L) :=
  match s with
  | Entry CStatement =>
      DCEInstrumenterTool.handleCompoundStmt SM DefaultLO CStatement T
  | FallThrough Statement =>
      DCEInstrumenterTool.handleStmtWithReturnDescendant SM LO DefaultLO Statement T
  end.

(** ** The edits of a pass *)

(** Every edit of the two passes names one location as both ends of its
    range; [edit_at] is the replacement [createReplacement] builds for it
    and [diag_at] what it prints. *)
Definition edit_at (SM : SourceManager) (DefaultLO : Lexer)
  (Loc : SourceLocation) (Text : string) : Replacement :=
  (createReplacement SM DefaultLO Loc Loc Text).1.

Definition diag_at (SM : SourceManager) (DefaultLO : Lexer)
  (Loc : SourceLocation) (Text : string) : list string :=
  (createReplacement SM DefaultLO Loc Loc Text).2.

(** [handleStmt] goes on to brace a statement when its first token is
    spelled in the main file and it is neither a block nor empty. *)
Definition braced (SM : SourceManager) (Statement : Stmt) : bool :=
  (getMainFileID SM =? getFileID SM (getSpellingLoc SM (getBeginLoc Statement)))
  && negb (isa_CompoundStmt Statement) && negb (isa_NullStmt Statement).

(** The statements the canonicalizer's callbacks receive, in order. *)
Definition canonicalizer_bodies (SM : SourceManager) (TU : TranslationUnit)
  : list Stmt :=
  flat_map (bodies SM) (nodes_in_match_order TU).


(** The text of the token at [Loc] as the passes read it. *)
Definition token_at (SM : SourceManager) (LO : Lexer) (Loc : SourceLocation)
  : string :=
  token_text (default "" (getCharacterData SM Loc)) (MeasureTokenLength LO Loc).

(** The edit the end-of-unit callback makes for one entry of the map. *)
Definition flush_edit (SM : SourceManager) (LO DefaultLO : Lexer)
  (Entry : SourceLocation * nat) : Replacement :=
  edit_at SM DefaultLO Entry.1
    (token_at SM LO Entry.1 +:+ string_of_chars Entry.2 "}"%char).

(** The call text for marker [n]. *)
Definition marker_call (n : nat) : string :=
  "DCEMarker" +:+ DCEInstrumenterTool.to_string n +:+ "_();".

Definition marker_declaration (n : nat) : string :=
  "void DCEMarker" +:+ DCEInstrumenterTool.to_string n +:+ "_(void);" +:+ nl.

(** Where a site's call goes and the text kept in front of it; [None] for a
    statement whose end is not spelled in the main file, which
    [handleStmtWithReturnDescendant] leaves alone. *)
Definition probe_of_site (SM : SourceManager) (LO : Lexer) (s : Site)
  : option (SourceLocation * string) :=
  match s with
  | Entry CStatement => LBracLoc ← getLBracLoc CStatement; Some (LBracLoc, "{")
  | FallThrough Statement =>
      let StmtEnd := getEndLoc Statement in
      if getMainFileID SM =? getFileID SM (getSpellingLoc SM StmtEnd) then
        Some (EndTokenLoc LO StmtEnd, token_at SM LO (EndTokenLoc LO StmtEnd))
      else None
  end.

(** The probes of a unit in the order their callbacks run. *)
Definition probes (SM : SourceManager) (LO : Lexer) (TU : TranslationUnit)
  : list (SourceLocation * string) :=
  omap (probe_of_site SM LO) (flat_map (node_sites SM) (nodes_in_match_order TU)).

(** The edits for a list of probes numbered from [n] on. *)
Fixpoint probe_edits (SM : SourceManager) (DefaultLO : Lexer) (n : nat)
  (Probes : list (SourceLocation * string)) : list Replacement :=
  match Probes with
  | [] => []
  | (Loc, Kept) :: r =>
      edit_at SM DefaultLO Loc (Kept +:+ nl +:+ marker_call n)
      :: probe_edits SM DefaultLO (S n) r
  end.

(** ** Canonical form *)

(** The body positions of a node: the branches of an [if], the body of a
    loop, and the statement under the last label of a run of labels. *)
Definition body_positions (N : Stmt) : list Stmt :=
  match N with
  | IfStmt _ T E => T :: option_list E
  | ForStmt _ B | WhileStmt _ B | DoStmt _ B _ | CXXForRangeStmt _ B => [B]
  | CaseStmt _ B | DefaultStmt _ B => if isa_SwitchCase B then [] else [B]
  | _ => []
  end.

(** A unit is in canonical form when every body position is a block. *)
Definition canonical (TU : TranslationUnit) : bool :=
  forallb (λ N, forallb isa_CompoundStmt (body_positions N))
          (nodes_in_match_order TU).

(** ** Readings of the specification, for comparison with the code *)

(** From the spec's words (4.3, "a single pre-order walk of the syntax
    tree"): the same matchers and callback, the nodes taken in plain
    pre-order. *)
Definition matchAST_preorder {S : Type} (Matchers : list Matcher)
  (run : BoundNodes → S → option S) (TU : TranslationUnit) : S → option S :=
  for_each (matchNode Matchers run) (flat_map preorder TU).

Definition spec_instrument {L : Type} `{!EditLedger L}
  (SM : SourceManager) (LO DefaultLO : Lexer) (TU : TranslationUnit) (F : L)
  : option (DCEInstrumenterTool.State L) :=
  T ← matchAST_preorder (DCEInstrumenterTool.registerMatchers SM)
         (DCEInstrumenterTool.run SM LO DefaultLO) TU
         (DCEInstrumenterTool.init F);
  DCEInstrumenterTool.onEndOfTranslationUnit SM LO DefaultLO T.

(** From the spec's words (4.2 step 5): the body of a label is the run of
    statements after the label up to the next label or the end of the
    switch, here the label's sub-statement and the statements that follow
    the label in the switch block. *)
Fixpoint up_to_next_label (Following : list Stmt) : list Stmt :=
  match Following with
  | [] => []
  | St :: r => if isa_SwitchCase St then [] else St :: up_to_next_label r
  end.

Definition spec_case_body (Sub : Stmt) (Following : list Stmt) : list Stmt :=
  Sub :: up_to_next_label Following.

(** The boundary at which that run would be closed. *)
Definition spec_case_boundary (LO : Lexer) (Sub : Stmt) (Following : list Stmt)
  : SourceLocation :=
  EndTokenLoc LO (getEndLoc (List.last (spec_case_body Sub Following) Sub)).


(** From the spec's words (4.2, failure semantics): a body whose begin and
    end lie in different files or macro expansions is skipped with a
    diagnostic; the test is the one [createReplacement] makes on the two
    ends of a range. *)
Definition crosses_boundary (SM : SourceManager) (Start End : SourceLocation)
  : bool :=
  negb ((getDecomposedLoc SM Start).1 =? (getDecomposedLoc SM End).1)
  || negb (getFileID SM (getSpellingLoc SM Start)
           =? getFileID SM (getSpellingLoc SM End)).

(** ** Concrete inputs *)

Module Inputs.
Import Buffers.

Local Open Scope nat_scope.

(** The canonicalizer's output for the input of the repository's test
    "DCEInstrumentTool switch". *)
Definition switch_toks : list string :=
  ["{"; "switch"; "("; "a"; ")"; "{"; "case"; "1"; ":"; "{"; "a"; "="; "2";
   ";"; "}"; "break"; ";"; "case"; "2"; ":"; "case"; "3"; ":"; "{"; "break";
   ";"; "}"; "case"; "4"; ":"; "{"; "return"; "3"; ";"; "}"; "case"; "5";
   ":"; "{"; "a"; "="; "5"; ";"; "}"; "default"; ":"; "{"; "a"; "="; "42";
   ";"; "}"; "}"; "return"; "a"; ";"; "}"].

Definition switch_tu : TranslationUnit :=
  let t := tok switch_toks in
  [CompoundStmt (t 0) (t 56)
     [SwitchStmt (t 1)
        (CompoundStmt (t 5) (t 52)
           [CaseStmt (t 6) (CompoundStmt (t 9) (t 14) [OtherStmt (t 10) (t 12)]);
            OtherStmt (t 15) (t 15);
            CaseStmt (t 17)
              (CaseStmt (t 20)
                 (CompoundStmt (t 23) (t 26) [OtherStmt (t 24) (t 24)]));
            CaseStmt (t 27)
              (CompoundStmt (t 30) (t 34) [ReturnStmt (t 31) (t 32)]);
            CaseStmt (t 35)
              (CompoundStmt (t 38) (t 43) [OtherStmt (t 39) (t 41)]);
            DefaultStmt (t 44)
              (CompoundStmt (t 46) (t 51) [OtherStmt (t 47) (t 49)])]);
      ReturnStmt (t 53) (t 54)]].

(** [for(;;) if (a>0) a=1;] inside a function body. *)
Definition shared_toks : list string :=
  ["{"; "for"; "("; ";"; ";"; ")"; "if"; "("; "a"; ">"; "0"; ")"; "a"; "=";
   "1"; ";"; "}"].

Definition shared_tu : TranslationUnit :=
  let t := tok shared_toks in
  [CompoundStmt (t 0) (t 16)
     [ForStmt (t 1) (IfStmt (t 6) (OtherStmt (t 12) (t 14)) None)]].

(** [switch (a) { case 3: a = 4; break; }], as in the repository's test
    "DCECanonicalizeTool switch". *)
Definition case_toks : list string :=
  ["{"; "switch"; "("; "a"; ")"; "{"; "case"; "3"; ":"; "a"; "="; "4"; ";";
   "break"; ";"; "}"; "}"].

Definition case_sub : Stmt :=
  let t := tok case_toks in OtherStmt (t 9) (t 11).
Definition case_following : list Stmt :=
  let t := tok case_toks in [OtherStmt (t 13) (t 13)].

Definition case_tu : TranslationUnit :=
  let t := tok case_toks in
  [CompoundStmt (t 0) (t 16)
     [SwitchStmt (t 1)
        (CompoundStmt (t 5) (t 15)
           (CaseStmt (t 6) case_sub :: case_following))]].




(** [switch (a) { case 1: case 2: { switch (b) { case 3: { a = 1; } } } }]. *)
Definition nested_toks : list string :=
  ["{"; "switch"; "("; "a"; ")"; "{"; "case"; "1"; ":"; "case"; "2"; ":";
   "{"; "switch"; "("; "b"; ")"; "{"; "case"; "3"; ":"; "{"; "a"; "="; "1";
   ";"; "}"; "}"; "}"; "}"; "}"].

Definition nested_inner_label : Stmt :=
  let t := tok nested_toks in
  CaseStmt (t 9)
    (CompoundStmt (t 12) (t 28)
       [SwitchStmt (t 13)
          (CompoundStmt (t 17) (t 27)
             [CaseStmt (t 18)
                (CompoundStmt (t 21) (t 26) [OtherStmt (t 22) (t 24)])])]).

Definition nested_group : Stmt :=
  CaseStmt (tok nested_toks 6) nested_inner_label.

Definition nested_tu : TranslationUnit :=
  let t := tok nested_toks in
  [CompoundStmt (t 0) (t 30)
     [SwitchStmt (t 1) (CompoundStmt (t 5) (t 29) [nested_group])]].

(** [if (a) a = 1;], not in canonical form. *)
Definition plain_if_toks : list string :=
  ["{"; "if"; "("; "a"; ")"; "a"; "="; "1"; ";"; "}"].

Definition plain_if : Stmt :=
  let t := tok plain_if_toks in IfStmt (t 1) (OtherStmt (t 5) (t 7)) None.

Local Close Scope nat_scope.

(** A body that ends inside a macro expansion.  The main file (id 1,
    locations are offsets plus one) reads

      #define REST = 1 ;
      { if ( c ) a REST }

    and the expansion of [REST] is the entry with id 2, whose tokens
    [=], [1], [;] have the locations 100, 101, 102.  The body [a = 1]
    begins at [a] (31) and ends at the expanded [1] (101), which is
    spelled in the definition (16) and expanded at the use (33).  The
    lexer measures a macro location at its expansion and finds no next
    token inside an expansion. *)
Definition macro_rows : list Row :=
  [mkRow 31 1 30 31 31 (Some "a REST }") 1 (Some (mkToken 33 false)) 31;
   mkRow 22 1 21 22 22 (Some "if ( c ) a REST }") 2
         (Some (mkToken 25 false)) 22;
   mkRow 33 1 32 33 33 (Some "REST }") 4 (Some (mkToken 38 false)) 33;
   mkRow 16 1 15 16 16 (Some "1 ;") 1 (Some (mkToken 18 true)) 16;
   mkRow 101 2 1 16 33 (Some "1 ;") 4 None 101].

Definition macro_SM : SourceManager :=
  sourceManager 1 [(1, "input.cc")] (λ _, 1) macro_rows.
Definition macro_LO : Lexer := lexer macro_rows.

Definition macro_body : Stmt := OtherStmt 31 101.

(** A block whose opening brace comes from a macro of an included file.
    The header [h.h] (id 2, locations are offsets plus 200) reads

      #define LB {

    and the main file (id 1, locations are offsets plus one) reads

      #include <h.h>
      { if ( a ) LB a = 1 ; } }

    The expansion of [LB] is the entry with id 3; its token [{] has the
    location 300, is spelled in the header (211) and expanded at the use
    (27). *)
Definition header_rows : list Row :=
  [mkRow 1 1 0 1 1 (Some "#include <h.h>") 1 (Some (mkToken 2 false)) 1;
   mkRow 18 1 17 18 18 (Some "if ( a ) LB a = 1 ; } }") 2
         (Some (mkToken 21 false)) 18;
   mkRow 211 2 11 211 211 (Some "{") 1 None 211;
   mkRow 300 3 0 211 27 (Some "{") 2 None 300].

Definition header_SM : SourceManager :=
  sourceManager 1 [(1, "input.cc"); (2, "h.h")] (λ _, 1) header_rows.
Definition header_LO : Lexer := lexer header_rows.

Definition header_tu : TranslationUnit :=
  [CompoundStmt 16 40
     [IfStmt 18 (CompoundStmt 300 38 [OtherStmt 30 34]) None]].

End Inputs.

(** The listing of a [std::map] has strictly ascending keys. *)
Fixpoint ascending (M : LocationCounts) : Prop :=
  match M with
  | [] => True
  | (k, _) :: r => Forall (λ e, k < e.1) r ∧ ascending r
  end.

(** The debt map of the canonicalizer is such a listing with positive
    counts. *)
Definition debt_map_ok (M : LocationCounts) : Prop :=
  ascending M ∧ Forall (λ e, (0 < e.2)%nat) M.

(** ** The edits of a run, independently of the replacement map *)

(** Handing recorded replacements to a replacement map, in the order they
    were recorded; [None] as soon as the map refuses one. *)
Definition commit {L : Type} `{!EditLedger L} (Edits : list Replacement) (F : L)
  : option L :=
  for_each ledger_add Edits F.

(** An output of a run with the recording ledger, replayed on the map [F]. *)
Definition replay {L : Type} `{!EditLedger L} (F : L) (O : Output EditTrace)
  : option (Output L) :=
  F' ← commit (FileToReplacements O) F; Some (mkOutput F' (errs O)).

(** The edit [handleStmt] makes at the first token of a statement: [{] in
    front of the token for a statement it braces, [{}] in place of a null
    statement, nothing for a block or for a statement whose first token is
    not spelled in the main file. *)
Definition opening_edit (SM : SourceManager) (LO DefaultLO : Lexer)
  (Statement : Stmt) : list Replacement :=
  let StmtBegin := getBeginLoc Statement in
  if braced SM Statement then
    [edit_at SM DefaultLO StmtBegin ("{" +:+ token_at SM LO StmtBegin)]
  else if (getMainFileID SM =? getFileID SM (getSpellingLoc SM StmtBegin))
          && isa_NullStmt Statement then
    [edit_at SM DefaultLO StmtBegin "{}"]
  else [].

(** The sum of the counts of a debt map: the closing braces still owed. *)
Definition braces_owed (M : LocationCounts) : nat := list_sum (map snd M).

(** The one diagnostic an edit with equal ends can cause. *)
Definition invalid_location_message : string :=
  "start or end location were invalid" +:+ nl.

(** ** Declarations and the pass that makes globals static *)

(** The declaration classes named by the matchers of
    [GlobalStaticInstrumenterTool], with what the matchers and the callback
    read: the begin location, [isThisDeclarationADefinition],
    [hasGlobalStorage], whether the storage class is [SC_Static], and
    [isMain].  [OtherDecl] stands for every other declaration. *)
Inductive Decl :=
| VarDecl (BeginLoc : SourceLocation)
          (ThisDeclarationIsADefinition GlobalStorage SC_Static : bool)
| FunctionDecl (BeginLoc : SourceLocation)
               (ThisDeclarationIsADefinition SC_Static Main : bool)
| OtherDecl (BeginLoc : SourceLocation).

Definition getDeclBeginLoc (D : Decl) : SourceLocation :=
  match D with
  | VarDecl L _ _ _ => L
  | FunctionDecl L _ _ _ => L
  | OtherDecl L => L
  end.

(** The matchers on declarations, built like those on statements. *)
Module DeclMatchers.

Definition BoundNodes := list (string * Decl).
Definition Matcher := Decl → option BoundNodes.

Fixpoint getNode (ID : string) (Nodes : BoundNodes) : option Decl :=
  match Nodes with
  | [] => None
  | (k, n) :: r => if String.eqb k ID then Some n else getNode ID r
  end.

Definition getNodeAs (isa : Decl → bool) (ID : string) (Nodes : BoundNodes)
  : option Decl :=
  match getNode ID Nodes with
  | Some n => if isa n then Some n else None
  | None => None
  end.

Definition isa_Decl (D : Decl) : bool := true.
Definition isa_VarDecl (D : Decl) : bool :=
  match D with VarDecl _ _ _ _ => true | _ => false end.
Definition isa_FunctionDecl (D : Decl) : bool :=
  match D with FunctionDecl _ _ _ _ => true | _ => false end.

Fixpoint allOf (ms : list Matcher) : Matcher := λ N,
  match ms with
  | [] => Some []
  | m :: r => b ← m N; b' ← allOf r N; Some (b ++ b')
  end.

Definition unless (m : Matcher) : Matcher := λ N,
  match m N with Some _ => None | None => Some [] end.

Definition bind (ID : string) (m : Matcher) : Matcher := λ N,
  b ← m N; Some (b ++ [(ID, N)]).

Definition nodeMatcher (isa : Decl → bool) (ms : list Matcher) : Matcher :=
  λ N, if isa N then allOf ms N else None.

Definition varDecl := nodeMatcher isa_VarDecl.
Definition functionDecl := nodeMatcher isa_FunctionDecl.

(** A narrowing matcher given by a test. *)
Definition narrowing (test : Decl → bool) : Matcher := λ N,
  if test N then Some [] else None.

Definition isExpansionInMainFile (SM : SourceManager) : Matcher :=
  narrowing (λ N, isInMainFile SM (getExpansionLoc SM (getDeclBeginLoc N))).

Definition isDefinition : Matcher :=
  narrowing (λ N, match N with
                  | VarDecl _ d _ _ | FunctionDecl _ d _ _ => d
                  | OtherDecl _ => false
                  end).

Definition hasGlobalStorage : Matcher :=
  narrowing (λ N, match N with VarDecl _ _ g _ => g | _ => false end).

Definition isStaticStorageClass : Matcher :=
  narrowing (λ N, match N with
                  | VarDecl _ _ _ s | FunctionDecl _ _ s _ => s
                  | OtherDecl _ => false
                  end).

Definition isMain : Matcher :=
  narrowing (λ N, match N with FunctionDecl _ _ _ m => m | _ => false end).

Definition matchNode {S : Type} (Matchers : list Matcher)
  (run : BoundNodes → S → option S) (Node : Decl) : S → option S :=
  for_each (λ M s, match M Node with Some R => run R s | None => Some s end)
           Matchers.

(** The engine's walk over the declarations of a unit, given in the order
    it reaches them. *)
Definition matchAST {S : Type} (Matchers : list Matcher)
  (run : BoundNodes → S → option S) (Decls : list Decl) : S → option S :=
  for_each (matchNode Matchers run) Decls.

End DeclMatchers.

Module GlobalStaticInstrumenterTool.
Import DeclMatchers.

Section Tool.
Context (SM : SourceManager) (LO DefaultLO : Lexer).
Context {L : Type} `{!EditLedger L}.

Definition registerMatchers : list Matcher :=
  [ bind "global"
      (varDecl [isExpansionInMainFile SM; isDefinition; hasGlobalStorage;
                unless isStaticStorageClass]);
    bind "global"
      (functionDecl [isExpansionInMainFile SM; isDefinition;
                     unless isStaticStorageClass; unless isMain]) ].

(** The callback does not test the pointer [getCharacterData] returns;
    building the string from a null pointer is undefined, and counted
    as an abort here. *)
Definition run (Result : BoundNodes) (O : Output L) : option (Output L) :=
  match getNodeAs isa_Decl "global" Result with
  | Some GlobalDecl =>
      let Begin := getDeclBeginLoc GlobalDecl in
      let TokenLen := MeasureTokenLength LO Begin in
      Source ← getCharacterData SM Begin;
      addReplacementOrDie SM DefaultLO Begin Begin
        ("static " +:+ token_text Source TokenLen) O
  | None => Some O
  end.

Definition runOnTranslationUnit (Decls : list Decl) (F : L)
  : option (Output L) :=
  matchAST registerMatchers run Decls (mkOutput F []).

End Tool.

End GlobalStaticInstrumenterTool.

(** The declarations the pass rewrites: definitions expanded in the main
    file that are not static already, variables when they have global
    storage, functions when they are not [main]. *)
Definition made_static (SM : SourceManager) (D : Decl) : bool :=
  isInMainFile SM (getExpansionLoc SM (getDeclBeginLoc D))
  && match D with
     | VarDecl _ d g s => d && g && negb s
     | FunctionDecl _ d s m => d && negb s && negb m
     | OtherDecl _ => false
     end.

(** The edit made for such a declaration: [static ] in front of its first
    token. *)
Definition static_edit (SM : SourceManager) (LO DefaultLO : Lexer) (D : Decl)
  : Replacement :=
  edit_at SM DefaultLO (getDeclBeginLoc D)
    ("static " +:+ token_at SM LO (getDeclBeginLoc D)).

(** The states of the passes after a run with the recording ledger,
    replayed on the map [F]. *)
Definition replay_canonicalizer {L : Type} `{!EditLedger L} (F : L)
  (T : DCECanonicalizerTool.State EditTrace)
  : option (DCECanonicalizerTool.State L) :=
  O ← replay F (DCECanonicalizerTool.Out T);
  Some (DCECanonicalizerTool.mkState
          (DCECanonicalizerTool.CurlyBracesInsertedAtLocation T) O).

Definition replay_instrumenter {L : Type} `{!EditLedger L} (F : L)
  (T : DCEInstrumenterTool.State EditTrace)
  : option (DCEInstrumenterTool.State L) :=
  O ← replay F (DCEInstrumenterTool.Out T);
  Some (DCEInstrumenterTool.mkState (DCEInstrumenterTool.NFunctionsInserted T) O).

(** The input of the repository's test "GlobalStaticInstrumenterTool
    functions": [int main() { return 0;} int foo(){ return 42;}
    static int bar(){ return 42;}]. *)
Module GlobalInputs.
Import Buffers.

Local Open Scope nat_scope.

Definition functions_toks : list string :=
  ["int"; "main"; "("; ")"; "{"; "return"; "0"; ";"; "}";
   "int"; "foo"; "("; ")"; "{"; "return"; "42"; ";"; "}";
   "static"; "int"; "bar"; "("; ")"; "{"; "return"; "42"; ";"; "}"].

Definition functions_decls : list Decl :=
  let t := tok functions_toks in
  [FunctionDecl (t 0) true false true;
   FunctionDecl (t 9) true false false;
   FunctionDecl (t 18) true true false].

Local Close Scope nat_scope.

End GlobalInputs.

(** [while (a) { if (b) { return; } }] inside a function body. *)
Module SiteInputs.
Import Buffers.

Local Open Scope nat_scope.

Definition nested_return_toks : list string :=
  ["{"; "while"; "("; "a"; ")"; "{"; "if"; "("; "b"; ")"; "{"; "return"; ";";
   "}"; "}"; "}"].

Definition inner_if : Stmt :=
  let t := tok nested_return_toks in
  IfStmt (t 6) (CompoundStmt (t 10) (t 13) [ReturnStmt (t 11) (t 11)]) None.

Definition outer_while : Stmt :=
  let t := tok nested_return_toks in
  WhileStmt (t 1) (CompoundStmt (t 5) (t 14) [inner_if]).

Local Close Scope nat_scope.

End SiteInputs.

(** * Call chains (callchain_checker/src/CallChainChecker.cpp)

    [ccc::callChainExists] numbers the functions named in a list of calls,
    builds a directed graph over the numbers with the Boost graph library,
    and asks a breadth-first search whether one function is reached from
    another.  The graph type and the search are Boost's; they are modelled
    here as the library documents them: an [adjacency_list<vecS, vecS,
    directedS>] is a vector of out-edge vectors indexed by vertex number,
    and [breadth_first_search] is the colouring algorithm with a first-in
    first-out queue. *)
Module ccc.

(** A call, by the names of the two functions. *)
Record CallPair := mkCallPair {
  Caller : string;
  Callee : string
}.

(** [adjacency_list<vecS, vecS, directedS>]: the out-edges of vertex [u]
    are the [u]-th entry. *)
Abbreviation StaticCallGraph := (list (list nat)).

Definition num_vertices (G : StaticCallGraph) : nat := List.length G.

Definition out_edges (G : StaticCallGraph) (u : nat) : list nat :=
  default [] (G !! u).

(** [boost::add_edge(u, v, g)] for a vector of vertices: the vector is
    grown to hold the larger end, then [v] is appended to the out-edges
    of [u]. *)
Definition add_edge (u v : nat) (G : StaticCallGraph) : StaticCallGraph :=
  let x := Nat.max u v in
  let G' := if (num_vertices G <=? x)%nat
            then G ++ replicate (x + 1 - num_vertices G) [] else G in
  alter (λ out, out ++ [v]) u G'.

(** [boost::default_color_type]; the first is the value of a
    value-initialised entry. *)
Inductive default_color_type :=
| white_color | gray_color | green_color | red_color | black_color.

Definition is_white (c : default_color_type) : bool :=
  match c with white_color => true | _ => false end.

Definition is_black (c : default_color_type) : bool :=
  match c with black_color => true | _ => false end.

(** The loop over the out-edges of the vertex taken from the queue: a
    white target is coloured gray and put at the end of the queue. *)
Fixpoint examine_edges (Targets : list nat) (Q : list nat)
  (Colors : list default_color_type) : list nat * list default_color_type :=
  match Targets with
  | [] => (Q, Colors)
  | v :: r =>
      match Colors !! v with
      | Some white_color => examine_edges r (Q ++ [v]) (<[v := gray_color]> Colors)
      | _ => examine_edges r Q Colors
      end
  end.

(** [breadth_first_visit]: the loop [while (!Q.empty())]; a vertex is
    coloured black once its out-edges have been examined.  The loop is
    run for at most [fuel] rounds. *)
Fixpoint breadth_first_visit (fuel : nat) (G : StaticCallGraph) (Q : list nat)
  (Colors : list default_color_type) : list default_color_type :=
  match fuel, Q with
  | S fuel', u :: Q' =>
      let '(Q'', Colors') := examine_edges (out_edges G u) Q' Colors in
      breadth_first_visit fuel' G Q'' (<[u := black_color]> Colors')
  | _, _ => Colors
  end.

(** [breadth_first_search(g, s, color_map(ColorMap))]: every vertex is
    coloured white, the source gray and queued, then the loop runs.  Each
    round takes one vertex from the queue and no vertex enters the queue
    twice, so [num_vertices] rounds are enough (shown below). *)
Definition breadth_first_search (G : StaticCallGraph) (s : nat)
  : list default_color_type :=
  breadth_first_visit (num_vertices G) G [s]
    (<[s := gray_color]> (replicate (num_vertices G) white_color)).

(** The variables of the first loop of [callChainExists]. *)
Record Build := mkBuild {
  FunctionToIdx : gmap string nat;
  idx : nat;
  SCG : StaticCallGraph
}.

(** [if (not FunctionToIdx.count(Name)) { SCG.added_vertex(idx);
    FunctionToIdx[Name] = idx++; }]; [added_vertex] is the empty hook of
    an unnamed graph. *)
Definition add_function (Name : string) (B : Build) : Build :=
  match FunctionToIdx B !! Name with
  | Some _ => B
  | None => mkBuild (<[Name := idx B]> (FunctionToIdx B)) (S (idx B)) (SCG B)
  end.

(** [FunctionToIdx[Name]] read as a value: zero for a missing key. *)
Definition index_of (B : Build) (Name : string) : nat :=
  default 0%nat (FunctionToIdx B !! Name).

(** One round of the loop over [Calls]. *)
Definition add_call (B : Build) (P : CallPair) : Build :=
  let B1 := add_function (Caller P) B in
  let B2 := add_function (Callee P) B1 in
  mkBuild (FunctionToIdx B2) (idx B2)
          (add_edge (index_of B2 (Caller P)) (index_of B2 (Callee P)) (SCG B2)).

Definition build (Calls : list CallPair) : Build :=
  foldl add_call (mkBuild ∅ 0 []) Calls.

(** The result and the text written to [llvm::errs()]. *)
Definition callChainExists (Calls : list CallPair) (From To : string)
  : bool * list string :=
  let B := build Calls in
  match FunctionToIdx B !! From with
  | None => (false, [From +:+ " is not part of the call graph" +:+ nl])
  | Some f =>
      match FunctionToIdx B !! To with
      | None => (false, [To +:+ " is not part of the call graph" +:+ nl])
      | Some t =>
          let Colors := breadth_first_search (SCG B) f in
          (from_option is_black false (Colors !! t), [])
      end
  end.

End ccc.

(** A function of the call list: one that calls or is called. *)
Definition is_function (Calls : list ccc.CallPair) (Name : string) : Prop :=
  ∃ P, P ∈ Calls ∧ (ccc.Caller P = Name ∨ ccc.Callee P = Name).

(** [calls Calls a b]: the list holds a call of [b] by [a]. *)
Definition calls (Calls : list ccc.CallPair) (a b : string) : Prop :=
  ccc.mkCallPair a b ∈ Calls.

(** An edge of the graph. *)
Definition edge (G : ccc.StaticCallGraph) (u v : nat) : Prop :=
  v ∈ ccc.out_edges G u.

Definition white_count (Colors : list ccc.default_color_type) : nat :=
  List.length (List.filter ccc.is_white Colors).

(** A vertex that has been coloured: in range and not white. *)
Definition discovered (Colors : list ccc.default_color_type) (v : nat) : Prop :=
  ∃ c, Colors !! v = Some c ∧ ccc.is_white c = false.

(** What holds of the queue and the colours at the head of the loop of the
    search from [s]. *)
Record bfs_inv (G : ccc.StaticCallGraph) (s : nat) (Q : list nat)
  (Colors : list ccc.default_color_type) : Prop := mk_bfs_inv {
  inv_length : List.length Colors = ccc.num_vertices G;
  inv_queue : ∀ u, u ∈ Q → discovered Colors u;
  inv_sound : ∀ v, discovered Colors v → rtc (edge G) s v;
  inv_front : ∀ v, discovered Colors v →
                   Colors !! v = Some ccc.black_color ∨ v ∈ Q;
  inv_closed : ∀ u v, Colors !! u = Some ccc.black_color → edge G u v →
                      discovered Colors v;
  inv_source : discovered Colors s
}.

(** What holds of the variables of the first loop of [callChainExists]
    after the calls [Done]. *)
Record build_inv (Done : list ccc.CallPair) (B : ccc.Build) : Prop := mk_build_inv {
  bi_dom : ∀ Name, is_Some (ccc.FunctionToIdx B !! Name) ↔ is_function Done Name;
  bi_range : ∀ Name i, ccc.FunctionToIdx B !! Name = Some i → (i < ccc.idx B)%nat;
  bi_inj : ∀ a b i, ccc.FunctionToIdx B !! a = Some i →
                    ccc.FunctionToIdx B !! b = Some i → a = b;
  bi_surj : ∀ i, (i < ccc.idx B)%nat → ∃ Name, ccc.FunctionToIdx B !! Name = Some i;
  bi_length : ccc.num_vertices (ccc.SCG B) = ccc.idx B;
  bi_edges : ∀ u v, edge (ccc.SCG B) u v
                    ↔ ∃ a b, calls Done a b
                             ∧ ccc.FunctionToIdx B !! a = Some u
                             ∧ ccc.FunctionToIdx B !! b = Some v
}.

(** The calls of a small program: [main] calls [f] and [g], [f] calls [h],
    [h] calls [f], and [k] calls [main]. *)
Definition example_calls : list ccc.CallPair :=
  [ccc.mkCallPair "main" "f"; ccc.mkCallPair "main" "g";
   ccc.mkCallPair "f" "h"; ccc.mkCallPair "h" "f";
   ccc.mkCallPair "k" "main"].

(** * The control-flow extractor (FIPCFGExtractor.cpp)

    [dce::FIPCFGExtractor::run] walks the functions, blocks and
    instructions of an LLVM module and collects the edges of an
    interprocedural control-flow graph and the blocks that call a marker.
    The module is LLVM's; it is modelled by the data the walk reads.  The
    back edges of a function are those [llvm::FindFunctionBackedges]
    reports, a parameter here. *)
Module dce.

(** A [const llvm::BasicBlock *]. *)
Abbreviation BasicBlockRef := N.

(** What the walk reads of the function a call names. *)
Record CalledFunction := mkCalledFunction {
  Callee_isDeclaration : bool;
  Callee_getName : string;
  Callee_getEntryBlock : BasicBlockRef
}.

(** The instruction classes the walk tells apart; [getCalledFunction] is
    null for an indirect call. *)
Inductive Instruction :=
| CallBase (getCalledFunction : option CalledFunction)
| BranchInst (successors : list BasicBlockRef)
| SwitchInst (successors : list BasicBlockRef)
| OtherInst.

Record BasicBlock := mkBasicBlock {
  Ref : BasicBlockRef;
  Instructions : list Instruction
}.

Record Function := mkFunction {
  isDeclaration : bool;
  Blocks : list BasicBlock
}.

Record FIPCFGEdge := mkFIPCFGEdge {
  From : BasicBlockRef;
  To : BasicBlockRef
}.

Record DCEBB := mkDCEBB {
  BB : BasicBlockRef;
  DCEMarker : string
}.

(** [FIPCFGExtractor::Result]. *)
Definition Result : Type := list FIPCFGEdge * list DCEBB.

(** [StringRef::contains]: [Other] occurs somewhere in [Name]. *)
Fixpoint contains (Name Other : string) : bool :=
  String.prefix Other Name
  || match Name with
     | EmptyString => false
     | String _ Rest => contains Rest Other
     end.

(** [SmallSet::contains] on pairs of blocks. *)
Definition is_back_edge (BackEdges : list (BasicBlockRef * BasicBlockRef))
  (From To : BasicBlockRef) : bool :=
  existsb (λ e, (e.1 =? From) && (e.2 =? To)) BackEdges.

Section Extractor.
Variable FindFunctionBackedges : Function → list (BasicBlockRef * BasicBlockRef).

Definition getBackEdges (F : Function) : list (BasicBlockRef * BasicBlockRef) :=
  FindFunctionBackedges F.

(** The loops over the successors of a branch and of a switch. *)
Definition add_successors (BackEdges : list (BasicBlockRef * BasicBlockRef))
  (BB : BasicBlockRef) (Successors : list BasicBlockRef) (R : Result) : Result :=
  foldl (λ (R : Result) Succ,
           if is_back_edge BackEdges BB Succ then R
           else (R.1 ++ [mkFIPCFGEdge BB Succ], R.2))
        R Successors.

(** The body of the loop over the instructions of a block.  The callee
    of a call is used without a test; a null callee is counted as an
    abort. *)
Definition visit_instruction (BackEdges : list (BasicBlockRef * BasicBlockRef))
  (BB : BasicBlockRef) (I : Instruction) (R : Result) : option Result :=
  match I with
  | CallBase CB =>
      Callee ← CB;
      if Callee_isDeclaration Callee then
        let Name := Callee_getName Callee in
        if contains Name "DCEMarker"
        then Some (R.1, R.2 ++ [mkDCEBB BB Name])
        else Some R
      else Some (R.1 ++ [mkFIPCFGEdge BB (Callee_getEntryBlock Callee)], R.2)
  | BranchInst Successors => Some (add_successors BackEdges BB Successors R)
  | SwitchInst Successors => Some (add_successors BackEdges BB Successors R)
  | OtherInst => Some R
  end.

Definition visit_block (BackEdges : list (BasicBlockRef * BasicBlockRef))
  (Block : BasicBlock) : Result → option Result :=
  for_each (visit_instruction BackEdges (Ref Block)) (Instructions Block).

Definition visit_function (F : Function) (R : Result) : option Result :=
  if isDeclaration F then Some R
  else for_each (visit_block (getBackEdges F)) (Blocks F) R.

Definition run (M : list Function) : option Result :=
  for_each visit_function M ([], []).

End Extractor.

End dce.

(** The name of the function the instrumenter declares and calls for
    marker [n]. *)
Definition marker_name (n : nat) : string :=
  "DCEMarker" +:+ DCEInstrumenterTool.to_string n +:+ "_".

(** A result holds at least the edges and marker blocks of another. *)
Definition result_le (R R' : dce.Result) : Prop :=
  (∀ e, e ∈ R.1 → e ∈ R'.1) ∧ (∀ m, m ∈ R.2 → m ∈ R'.2).

(** Where an edge of the result comes from. *)
Definition edge_origin (BackEdges : dce.Function → list (N * N))
  (M : list dce.Function) (e : dce.FIPCFGEdge) : Prop :=
  ∃ F Block,
    F ∈ M ∧ dce.isDeclaration F = false ∧ Block ∈ dce.Blocks F
    ∧ dce.From e = dce.Ref Block
    ∧ ((∃ Callee, dce.CallBase (Some Callee) ∈ dce.Instructions Block
                  ∧ dce.Callee_isDeclaration Callee = false
                  ∧ dce.To e = dce.Callee_getEntryBlock Callee)
       ∨ (∃ Successors,
            (dce.BranchInst Successors ∈ dce.Instructions Block
             ∨ dce.SwitchInst Successors ∈ dce.Instructions Block)
            ∧ dce.To e ∈ Successors
            ∧ dce.is_back_edge (BackEdges F) (dce.From e) (dce.To e) = false)).

(** Where a marker block of the result comes from. *)
Definition marker_origin (M : list dce.Function) (m : dce.DCEBB) : Prop :=
  ∃ F Block Callee,
    F ∈ M ∧ dce.isDeclaration F = false ∧ Block ∈ dce.Blocks F
    ∧ dce.BB m = dce.Ref Block
    ∧ dce.CallBase (Some Callee) ∈ dce.Instructions Block
    ∧ dce.Callee_isDeclaration Callee = true
    ∧ dce.DCEMarker m = dce.Callee_getName Callee
    ∧ dce.contains (dce.Callee_getName Callee) "DCEMarker" = true.

(** A small module: [f] calls marker 0 in its first block, which branches
    to the second block or back to itself; the second block calls the
    defined function [g] and the declared function [printf]. *)
Module ExtractorInputs.

Definition marker0 : dce.CalledFunction :=
  dce.mkCalledFunction true "DCEMarker0_" 0.
Definition printf : dce.CalledFunction :=
  dce.mkCalledFunction true "printf" 0.
Definition g_callee : dce.CalledFunction :=
  dce.mkCalledFunction false "g" 10.

Definition f_first : dce.BasicBlock :=
  dce.mkBasicBlock 1 [dce.CallBase (Some marker0); dce.BranchInst [2; 1]].
Definition f_second : dce.BasicBlock :=
  dce.mkBasicBlock 2 [dce.CallBase (Some g_callee); dce.CallBase (Some printf);
                      dce.OtherInst].

Definition f : dce.Function := dce.mkFunction false [f_first; f_second].
Definition g : dce.Function :=
  dce.mkFunction false [dce.mkBasicBlock 10 [dce.OtherInst]].
Definition printf_decl : dce.Function := dce.mkFunction true [].

Definition module : list dce.Function := [printf_decl; f; g].

(** The back edges of [f]: the branch of its first block to itself. *)
Definition back_edges (F : dce.Function) : list (N * N) :=
  match dce.Blocks F with
  | B :: _ => if dce.Ref B =? 1 then [(1, 1)] else []
  | [] => []
  end.

End ExtractorInputs.

(** ** Bodies that end across a boundary *)

Module BoundaryInputs.
Import Buffers.

(** The unit around [Inputs.macro_body]: [{ if ( c ) a REST }] after
    [#define REST = 1 ;], all in the main file. *)
Definition macro_tu : TranslationUnit :=
  [CompoundStmt 20 38 [IfStmt 22 Inputs.macro_body None]].

(** The same body with the macro defined in an included file.  The
    header [h.h] (id 2, locations are offsets plus 200) reads

      #define TAIL = 1 ;

    and the main file (id 1, locations are offsets plus one) reads

      #include <h.h>
      { if ( c ) a TAIL }

    The expansion of [TAIL] is the entry with id 3, whose tokens [=],
    [1], [;] have the locations 300, 301, 302.  The body [a = 1] begins
    at [a] (27) and ends at the expanded [1] (301), which is spelled in
    the header (215) and expanded at the use (29). *)
Definition tail_rows : list Row :=
  [mkRow 27 1 26 27 27 (Some "a TAIL }") 1 (Some (mkToken 29 false)) 27;
   mkRow 18 1 17 18 18 (Some "if ( c ) a TAIL }") 2
         (Some (mkToken 21 false)) 18;
   mkRow 29 1 28 29 29 (Some "TAIL }") 4 (Some (mkToken 34 false)) 29;
   mkRow 215 2 15 215 215 (Some "1 ;") 1 (Some (mkToken 217 true)) 215;
   mkRow 301 3 1 215 29 (Some "1 ;") 4 None 301].

Definition tail_SM : SourceManager :=
  sourceManager 1 [(1, "input.cc"); (2, "h.h")] (λ _, 1) tail_rows.
Definition tail_LO : Lexer := lexer tail_rows.

Definition tail_body : Stmt := OtherStmt 27 301.
Definition tail_if : Stmt := IfStmt 18 tail_body None.

Definition tail_tu : TranslationUnit := [CompoundStmt 16 34 [tail_if]].

End BoundaryInputs.

(** * Properties *)

(** ** The match engine *)

Lemma for_each_app {A S : Type} (f : A → S → option S) (l1 l2 : list A) (s : S) :
  for_each f (l1 ++ l2) s = for_each f l1 s ≫= for_each f l2.
Proof.
  revert s. induction l1 as [|x l1 IH]; intros s; simpl; [done|].
  destruct (f x s) as [s'|]; simpl; [apply IH | done].
Qed.

Lemma for_each_flat_map {A B S : Type} (f : A → S → option S)
  (g : B → S → option S) (h : A → list B) (l : list A) (s : S) :
  (∀ x s, f x s = for_each g (h x) s) →
  for_each f l s = for_each g (flat_map h l) s.
Proof.
  intros Hf. revert s. induction l as [|x l IH]; intros s; simpl; [done|].
  rewrite for_each_app, Hf. destruct (for_each g (h x) s); simpl; [apply IH | done].
Qed.

(** A callback that acts through a handler on a target read off the match
    result turns the engine's walk over one node into the handler run over
    the node's targets. *)
Lemma matchNode_targets {B S : Type} (Matchers : list Matcher)
  (run : BoundNodes → S → option S) (target : BoundNodes → option B)
  (act : B → S → option S) (N : Stmt) (s : S) :
  (∀ R s, run R s = match target R with Some b => act b s | None => Some s end) →
  matchNode Matchers run N s = for_each act (targets_at Matchers target N) s.
Proof.
  intros Hrun. unfold matchNode, targets_at. revert s.
  induction Matchers as [|M Ms IH]; intros s; simpl; [done|].
  destruct (M N) as [R|]; simpl.
  - rewrite Hrun. destruct (target R) as [b|]; simpl; [|apply IH].
    destruct (act b s); simpl; [apply IH | done].
  - apply IH.
Qed.

Lemma matchAST_targets {B S : Type} (Matchers : list Matcher)
  (run : BoundNodes → S → option S) (target : BoundNodes → option B)
  (act : B → S → option S) (TU : TranslationUnit) (s : S) :
  (∀ R s, run R s = match target R with Some b => act b s | None => Some s end) →
  matchAST Matchers run TU s
  = for_each act (flat_map (targets_at Matchers target) (nodes_in_match_order TU)) s.
Proof.
  intros Hrun. unfold matchAST. apply for_each_flat_map.
  intros N s'. by apply matchNode_targets.
Qed.

(** ** Matchers *)

Lemma hasDescendant_kind (isa : Stmt → bool) (N : Stmt) :
  hasDescendant (nodeMatcher isa []) N
  = if existsb isa (expand N) then Some [] else None.
Proof.
  unfold hasDescendant. induction (expand N) as [|D l IH]; simpl; [done|].
  unfold nodeMatcher at 1. destruct (isa D); simpl; [done | apply IH].
Qed.

Lemma unless_label_below (N : Stmt) :
  unless (anyOf [hasDescendant (defaultStmt []); hasDescendant (caseStmt [])]) N
  = if label_below N then None else Some [].
Proof.
  unfold unless, label_below, defaultStmt, caseStmt. simpl.
  rewrite !hasDescendant_kind.
  assert (existsb isa_SwitchCase (expand N)
          = existsb isa_DefaultStmt (expand N) || existsb isa_CaseStmt (expand N))
    as ->.
  { induction (expand N) as [|D l IH]; simpl; [done|].
    rewrite IH. unfold isa_SwitchCase.
    destruct (isa_CaseStmt D), (isa_DefaultStmt D); simpl;
      rewrite ?orb_true_r; done. }
  destruct (existsb isa_DefaultStmt (expand N)); simpl; [done|].
  destruct (existsb isa_CaseStmt (expand N)); done.
Qed.

Lemma canonicalizer_targets (SM : SourceManager) (N : Stmt) :
  targets_at (DCECanonicalizerTool.registerMatchers SM) canonicalizer_target N
  = bodies SM N.
Proof.
  unfold targets_at, DCECanonicalizerTool.registerMatchers, bodies, in_main.
  cbn [omap list_omap]. unfold bind.
  destruct N as [L R B|L|L T [E|]|L B|L B|L B R|L B|L B|L B|L B|L E|L E];
    cbn -[label_below unless anyOf];
    rewrite ?unless_label_below;
    unfold isExpansionInMainFile; cbn -[label_below];
    destruct (isInMainFile SM (getExpansionLoc SM L)); cbn -[label_below]; try done.
  all: by destruct (label_below _).
Qed.

Lemma canonicalizer_run_target {L : Type} `{!EditLedger L}
  (SM : SourceManager) (LO DefaultLO : Lexer) (R : BoundNodes)
  (T : DCECanonicalizerTool.State L) :
  DCECanonicalizerTool.run SM LO DefaultLO R T
  = match canonicalizer_target R with
    | Some Statement => DCECanonicalizerTool.handleStmt SM LO DefaultLO Statement T
    | None => Some T
    end.
Proof.
  unfold DCECanonicalizerTool.run, canonicalizer_target.
  destruct (getNodeAs isa_Stmt "stmt" R); [done|].
  destruct (getNodeAs isa_SwitchCase "switch_case" R) as [SC|]; simpl; [|done].
  by destruct (getSubStmt SC).
Qed.

(** The canonicalizer's walk is [handleStmt] run over the body positions of
    the nodes, in match order. *)
Lemma canonicalizer_walk {L : Type} `{!EditLedger L}
  (SM : SourceManager) (LO DefaultLO : Lexer) (TU : TranslationUnit)
  (T : DCECanonicalizerTool.State L) :
  matchAST (DCECanonicalizerTool.registerMatchers SM)
           (DCECanonicalizerTool.run SM LO DefaultLO) TU T
  = for_each (DCECanonicalizerTool.handleStmt SM LO DefaultLO)
             (flat_map (bodies SM) (nodes_in_match_order TU)) T.
Proof.
  rewrite (matchAST_targets _ _ canonicalizer_target
             (DCECanonicalizerTool.handleStmt SM LO DefaultLO)).
  - f_equal. apply flat_map_ext. intros N. apply canonicalizer_targets.
  - intros R s. apply canonicalizer_run_target.
Qed.

Lemma compoundStmt_nil (S : Stmt) :
  compoundStmt [] S = if isa_CompoundStmt S then Some [] else None.
Proof. done. Qed.

Ltac analyse_matchers SM N NL RD :=
  let HR := fresh "HR" in
  let HL := fresh "HL" in
  pose proof (hasDescendant_kind isa_ReturnStmt N) as HR;
  pose proof (unless_label_below N) as HL;
  fold (return_below N) in HR; revert HR HL;
  generalize (return_below N) (label_below N);
  try set (NL := unless _); try set (RD := hasDescendant _);
  try clearbody NL; try clearbody RD;
  let rb := fresh "rb" in
  let lb := fresh "lb" in
  intros rb lb HR HL;
  destruct N as [L R B|L|L T [E|]|L B|L B|L B R|L B|L B|L B|L B|L E|L E];
    cbn -[compoundStmt];
    rewrite ?HR, ?HL, ?compoundStmt_nil;
    unfold isExpansionInMainFile; cbn -[compoundStmt];
    destruct (isInMainFile SM (getExpansionLoc SM L));
    cbn -[compoundStmt]; try done;
    rewrite ?HR, ?HL, ?compoundStmt_nil;
    repeat match goal with
           | |- context [isa_CompoundStmt ?X] =>
               destruct (isa_CompoundStmt X) eqn:?; cbn
           end;
    unfold instrumenter_target, getNodeAs; cbn;
    repeat match goal with
           | H : isa_CompoundStmt _ = _ |- _ => rewrite H; cbn
           end;
    try (destruct rb; cbn); try (destruct lb; cbn); try done.

(** The first five matchers of the instrumenter yield the blocks among the
    body positions of a node. *)
Lemma instrumenter_entry_targets (SM : SourceManager) (N : Stmt) :
  targets_at (take 5 (DCEInstrumenterTool.registerMatchers SM))
             instrumenter_target N
  = map Entry (List.filter isa_CompoundStmt (bodies SM N)).
Proof.
  unfold targets_at, DCEInstrumenterTool.registerMatchers, bodies, in_main.
  cbn [take omap list_omap]. unfold bind, mapAnyOf_with.
  analyse_matchers SM N NL RD.
  all: by destruct (isa_CompoundStmt B).
Qed.

(** The sixth yields the node itself when it is a branch, loop or switch of
    the main file with a [return] below it. *)
Lemma instrumenter_fallthrough_targets (SM : SourceManager) (N : Stmt) :
  targets_at (drop 5 (DCEInstrumenterTool.registerMatchers SM))
             instrumenter_target N
  = if in_main SM N && is_construct N && return_below N
    then [FallThrough N] else [].
Proof.
  unfold targets_at, DCEInstrumenterTool.registerMatchers, in_main.
  cbn [drop omap list_omap]. unfold bind, mapAnyOf_with, returnStmt.
  analyse_matchers SM N NL RD.
Qed.

Lemma instrumenter_targets (SM : SourceManager) (N : Stmt) :
  targets_at (DCEInstrumenterTool.registerMatchers SM) instrumenter_target N
  = node_sites SM N.
Proof.
  unfold node_sites.
  rewrite <- instrumenter_entry_targets, <- instrumenter_fallthrough_targets.
  unfold targets_at. rewrite <- omap_app. by rewrite take_drop.
Qed.

Lemma instrumenter_run_target {L : Type} `{!EditLedger L}
  (SM : SourceManager) (LO DefaultLO : Lexer) (R : BoundNodes)
  (T : DCEInstrumenterTool.State L) :
  DCEInstrumenterTool.run SM LO DefaultLO R T
  = match instrumenter_target R with
    | Some s => instrument_site SM LO DefaultLO s T
    | None => Some T
    end.
Proof.
  unfold DCEInstrumenterTool.run, instrumenter_target, instrument_site.
  destruct (getNodeAs isa_CompoundStmt "cstmt" R); [done|].
  destruct (getNodeAs isa_Stmt "stmt_with_return_descendant" R); [done|].
  destruct (getNodeAs isa_SwitchCase "switch_case" R) as [SC|]; simpl; [|done].
  destruct (getSubStmt SC) as [Sub|]; simpl; [|done].
  by destruct (isa_CompoundStmt Sub).
Qed.

(** The instrumenter's walk is the handlers run over the sites of the
    nodes, in match order. *)
Lemma instrumenter_walk {L : Type} `{!EditLedger L}
  (SM : SourceManager) (LO DefaultLO : Lexer) (TU : TranslationUnit)
  (T : DCEInstrumenterTool.State L) :
  matchAST (DCEInstrumenterTool.registerMatchers SM)
           (DCEInstrumenterTool.run SM LO DefaultLO) TU T
  = for_each (instrument_site SM LO DefaultLO)
             (flat_map (node_sites SM) (nodes_in_match_order TU)) T.
Proof.
  rewrite (matchAST_targets _ _ instrumenter_target
             (instrument_site SM LO DefaultLO)).
  - f_equal. apply flat_map_ext. intros N. apply instrumenter_targets.
  - intros R s. apply instrumenter_run_target.
Qed.

(** ** Replacements *)

Section ReplacementFacts.
Context (SM : SourceManager) (DefaultLO : Lexer).

(** With one location for both ends only the validity test can fail. *)
Lemma createReplacement_at (Loc : SourceLocation) (Text : string) :
  createReplacement SM DefaultLO Loc Loc Text
  = if isValid Loc then
      (Replacement_of_token_range SM DefaultLO
         (getSpellingLoc SM (getSpellingLoc SM Loc))
         (getSpellingLoc SM (getSpellingLoc SM Loc)) Text, [])
    else (InvalidReplacement, ["start or end location were invalid" +:+ nl]).
Proof.
  unfold createReplacement. destruct (isValid Loc); simpl; [|done].
  by rewrite !N.eqb_refl.
Qed.


Lemma addReplacementOrDie_trace (Loc : SourceLocation) (Text : string)
  (O : Output EditTrace) :
  @addReplacementOrDie SM DefaultLO EditTrace trace_ledger Loc Loc Text O
  = Some (mkOutput (FileToReplacements O ++ [edit_at SM DefaultLO Loc Text])
                   (errs O ++ diag_at SM DefaultLO Loc Text)).
Proof.
  unfold addReplacementOrDie, edit_at, diag_at.
  by destruct (createReplacement SM DefaultLO Loc Loc Text).
Qed.

End ReplacementFacts.

(** ** The instrumenter's numbering *)

Lemma probe_edits_app (SM : SourceManager) (DefaultLO : Lexer) (n : nat)
  (l1 l2 : list (SourceLocation * string)) :
  probe_edits SM DefaultLO n (l1 ++ l2)
  = probe_edits SM DefaultLO n l1
    ++ probe_edits SM DefaultLO (n + List.length l1) l2.
Proof.
  revert n. induction l1 as [|[Loc Kept] l1 IH]; intros n; simpl.
  - by rewrite Nat.add_0_r.
  - rewrite IH. do 3 f_equal. lia.
Qed.

Lemma probe_edits_length (SM : SourceManager) (DefaultLO : Lexer) (n : nat)
  (l : list (SourceLocation * string)) :
  List.length (probe_edits SM DefaultLO n l) = List.length l.
Proof.
  revert n. induction l as [|[Loc Kept] l IH]; intros n; simpl; [done|].
  by rewrite IH.
Qed.

Lemma probe_edits_lookup (SM : SourceManager) (DefaultLO : Lexer) (n i : nat)
  (l : list (SourceLocation * string)) (Loc : SourceLocation) (Kept : string) :
  l !! i = Some (Loc, Kept) →
  probe_edits SM DefaultLO n l !! i
  = Some (edit_at SM DefaultLO Loc (Kept +:+ nl +:+ marker_call (n + i))).
Proof.
  revert n i. induction l as [|[Loc' Kept'] l IH]; intros n i; [done|].
  destruct i as [|i]; simpl.
  - intros [= -> ->]. by rewrite Nat.add_0_r.
  - intros Hl. rewrite (IH (S n) i Hl).
    by replace (S n + i)%nat with (n + S i)%nat by lia.
Qed.

Section InstrumenterTrace.
Context (SM : SourceManager) (LO DefaultLO : Lexer).

Local Abbreviation State := (DCEInstrumenterTool.State EditTrace).
Local Abbreviation site_step :=
  (@instrument_site EditTrace trace_ledger SM LO DefaultLO).

(** One handler call either aborts, or numbers the probe of its site (if
    any) with the current counter and advances the counter by as much. *)
Lemma instrument_site_trace (s : Site) (T T' : State) :
  site_step s T = Some T' →
  DCEInstrumenterTool.NFunctionsInserted T'
  = (DCEInstrumenterTool.NFunctionsInserted T
     + List.length (option_list (probe_of_site SM LO s)))%nat
  ∧ FileToReplacements (DCEInstrumenterTool.Out T')
    = FileToReplacements (DCEInstrumenterTool.Out T)
      ++ probe_edits SM DefaultLO (DCEInstrumenterTool.NFunctionsInserted T)
           (option_list (probe_of_site SM LO s)).
Proof.
  destruct s as [C|St]; simpl.
  - unfold DCEInstrumenterTool.handleCompoundStmt.
    destruct (getLBracLoc C) as [Lb|]; simpl.
    + rewrite addReplacementOrDie_trace. simpl. intros [= <-]. simpl.
      split; [lia | done].
    + intros [= <-]. split; [lia | by rewrite app_nil_r].
  - unfold DCEInstrumenterTool.handleStmtWithReturnDescendant.
    destruct (getMainFileID SM =? getFileID SM (getSpellingLoc SM (getEndLoc St)));
      simpl.
    + unfold token_at.
      destruct (getCharacterData SM (EndTokenLoc LO (getEndLoc St))) as [src|];
        simpl; [|done].
      rewrite addReplacementOrDie_trace. simpl. intros [= <-]. simpl.
      split; [lia | done].
    + intros [= <-]. split; [lia | by rewrite app_nil_r].
Qed.

Lemma instrument_sites_trace (Sites : list Site) (T T' : State) :
  for_each site_step Sites T = Some T' →
  DCEInstrumenterTool.NFunctionsInserted T'
  = (DCEInstrumenterTool.NFunctionsInserted T
     + List.length (omap (probe_of_site SM LO) Sites))%nat
  ∧ FileToReplacements (DCEInstrumenterTool.Out T')
    = FileToReplacements (DCEInstrumenterTool.Out T)
      ++ probe_edits SM DefaultLO (DCEInstrumenterTool.NFunctionsInserted T)
           (omap (probe_of_site SM LO) Sites).
Proof.
  unfold omap. revert T. induction Sites as [|s Sites IH]; intros T; simpl.
  - intros [= <-]. split; [lia | by rewrite app_nil_r].
  - destruct (site_step s T) as [T1|] eqn:Hs; simpl; [|done].
    intros Hrest. apply instrument_site_trace in Hs as [Hn Hf].
    apply IH in Hrest as [Hn' Hf'].
    rewrite Hn', Hf', Hn, Hf.
    destruct (probe_of_site SM LO s) as [p|]; simpl in *.
    + split; [lia|]. rewrite <- List.app_assoc. f_equal.
      destruct p as [Loc Kept]. simpl. f_equal.
      by replace (DCEInstrumenterTool.NFunctionsInserted T + 1)%nat
        with (S (DCEInstrumenterTool.NFunctionsInserted T)) by lia.
    + split; [lia|]. rewrite app_nil_r.
      by replace (DCEInstrumenterTool.NFunctionsInserted T + 0)%nat
        with (DCEInstrumenterTool.NFunctionsInserted T) by lia.
Qed.

(** The walk of the instrumenter over a unit, started with counter zero:
    the [i]-th probe in callback order gets marker [i]. *)
Lemma instrumenter_walk_trace (TU : TranslationUnit) (F : EditTrace)
  (T' : State) :
  matchAST (DCEInstrumenterTool.registerMatchers SM)
           (@DCEInstrumenterTool.run SM LO DefaultLO EditTrace trace_ledger)
           TU (DCEInstrumenterTool.init F) = Some T' →
  DCEInstrumenterTool.NFunctionsInserted T' = List.length (probes SM LO TU)
  ∧ FileToReplacements (DCEInstrumenterTool.Out T')
    = F ++ probe_edits SM DefaultLO 0 (probes SM LO TU).
Proof.
  rewrite instrumenter_walk. intros H.
  apply instrument_sites_trace in H as [Hn Hf]. done.
Qed.

End InstrumenterTrace.

(** ** Strings *)

Lemma string_app_cons (x : ascii) (a b : string) :
  String x a +:+ b = String x (a +:+ b).
Proof. done. Qed.

Lemma string_app_assoc (a b c : string) : (a +:+ b) +:+ c = a +:+ (b +:+ c).
Proof.
  induction a as [|x a IH]; [done|]. by rewrite !string_app_cons, IH.
Qed.

Lemma string_app_nil_r (a : string) : a +:+ "" = a.
Proof. induction a as [|x a IH]; [done|]. by rewrite string_app_cons, IH. Qed.




Lemma foldl_append (f : nat → string) (l : list nat) (s : string) :
  foldl (λ SS I, SS +:+ f I) s l = s +:+ foldr (λ I r, f I +:+ r) "" l.
Proof.
  revert s. induction l as [|x l IH]; intros s; simpl.
  - by rewrite string_app_nil_r.
  - by rewrite IH, string_app_assoc.
Qed.

(** The declarations are those of the markers 0, 1, ..., N-1, in this
    order. *)
Lemma declarations_ascending (N : nat) :
  DCEInstrumenterTool.declarations N
  = foldr (λ I r, marker_declaration I +:+ r) "" (seq 0 N).
Proof.
  unfold DCEInstrumenterTool.declarations.
  change (λ SS I, SS +:+ "void DCEMarker" +:+ DCEInstrumenterTool.to_string I
                     +:+ "_(void);" +:+ nl)
    with (λ SS I, SS +:+ marker_declaration I).
  by rewrite foldl_append.
Qed.

(** ** The passes go through when the source text can be read *)

Lemma for_each_total {A S : Type} (f : A → S → option S) (l : list A) (s : S) :
  (∀ x s, is_Some (f x s)) → is_Some (for_each f l s).
Proof.
  intros Hf. revert s. induction l as [|x l IH]; intros s; simpl; [by eexists|].
  destruct (Hf x s) as [s' ->]. simpl. apply IH.
Qed.

(** With the recording ledger the only way to abort is an unreadable
    location, so a run returns a result when character data is available. *)
Lemma instrument_total (SM : SourceManager) (LO DefaultLO : Lexer)
  (TU : TranslationUnit) (F : EditTrace) :
  (∀ Loc, is_Some (getCharacterData SM Loc)) →
  is_Some (@DCEInstrumenterTool.runOnTranslationUnit SM LO DefaultLO EditTrace
             trace_ledger TU F).
Proof.
  intros Hread. unfold DCEInstrumenterTool.runOnTranslationUnit.
  rewrite instrumenter_walk.
  destruct (for_each_total (@instrument_site EditTrace trace_ledger SM LO DefaultLO)
              (flat_map (node_sites SM) (nodes_in_match_order TU))
              (DCEInstrumenterTool.init F)) as [T ->].
  { intros [C|St] T; simpl.
    - unfold DCEInstrumenterTool.handleCompoundStmt.
      destruct (getLBracLoc C); simpl; [|by eexists].
      rewrite addReplacementOrDie_trace. by eexists.
    - unfold DCEInstrumenterTool.handleStmtWithReturnDescendant.
      destruct (negb _); [by eexists|].
      destruct (Hread (EndTokenLoc LO (getEndLoc St))) as [src ->]. simpl.
      rewrite addReplacementOrDie_trace. by eexists. }
  simpl. unfold DCEInstrumenterTool.onEndOfTranslationUnit.
  destruct (_ =? _)%nat; [by eexists|].
  destruct (Hread (getLocForStartOfFile SM (getMainFileID SM))) as [src ->].
  simpl. rewrite addReplacementOrDie_trace. by eexists.
Qed.

(** ** Claims about the instrumenter *)

Section InstrumenterClaims.
Context (SM : SourceManager) (LO DefaultLO : Lexer).

Local Abbreviation State := (DCEInstrumenterTool.State EditTrace).
Local Abbreviation instrument :=
  (@DCEInstrumenterTool.runOnTranslationUnit SM LO DefaultLO EditTrace
     trace_ledger).

(** What a whole run emits: the numbered probes in callback order and,
    when there is at least one, the declarations at the start of the main
    file. *)
Lemma instrument_trace (TU : TranslationUnit) (F : EditTrace) (T' : State) :
  instrument TU F = Some T' →
  let N := List.length (probes SM LO TU) in
  let FBeginLoc := getLocForStartOfFile SM (getMainFileID SM) in
  DCEInstrumenterTool.NFunctionsInserted T' = N
  ∧ FileToReplacements (DCEInstrumenterTool.Out T')
    = F ++ probe_edits SM DefaultLO 0 (probes SM LO TU)
        ++ (if (N =? 0)%nat then []
            else [edit_at SM DefaultLO FBeginLoc
                    (foldr (λ I r, marker_declaration I +:+ r) "" (seq 0 N)
                     +:+ token_at SM LO FBeginLoc)]).
Proof.
  unfold DCEInstrumenterTool.runOnTranslationUnit.
  destruct (matchAST _ _ _ _) as [T|] eqn:Hwalk; simpl; [|done].
  apply instrumenter_walk_trace in Hwalk as [Hn Hf].
  unfold DCEInstrumenterTool.onEndOfTranslationUnit. rewrite Hn.
  destruct (List.length (probes SM LO TU) =? 0)%nat eqn:HN.
  - intros [= <-]. by rewrite Hn, Hf, app_nil_r.
  - unfold token_at.
    destruct (getCharacterData SM _) as [src|]; simpl; [|done].
    rewrite addReplacementOrDie_trace. simpl. intros [= <-]. simpl.
    rewrite ?Hn, Hf, declarations_ascending, <- List.app_assoc. done.
Qed.


(** C3 (amended) - numbering order: the numbering is a function of the
    unit alone (two runs, whatever the replacement map held before, end
    with the same counter and emit the same edits), and the marker of a
    probe is its position in one fixed order: the nodes in the order the
    match engine reaches them (a node, then all of its children, then what
    lies below each child in turn), and on one node the blocks among its
    body positions before the node's own fall-through probe. *)
Theorem numbering_follows_match_order (TU : TranslationUnit)
  (F1 F2 : EditTrace) (T1 T2 : State) :
  instrument TU F1 = Some T1 →
  instrument TU F2 = Some T2 →
  DCEInstrumenterTool.NFunctionsInserted T1
  = DCEInstrumenterTool.NFunctionsInserted T2
  ∧ (∃ Edits Declarations,
       Edits
       = probe_edits SM DefaultLO 0
           (omap (probe_of_site SM LO)
                 (flat_map (node_sites SM) (flat_map match_order TU)))
         ++ Declarations
       ∧ FileToReplacements (DCEInstrumenterTool.Out T1) = F1 ++ Edits
       ∧ FileToReplacements (DCEInstrumenterTool.Out T2) = F2 ++ Edits)
  ∧ (∀ N, node_sites SM N
          = map Entry (List.filter isa_CompoundStmt (bodies SM N))
            ++ (if in_main SM N && is_construct N && return_below N
                then [FallThrough N] else []))
  ∧ (∀ Root, match_order Root
             = Root :: children Root ++ flat_map expand (children Root)).
Proof.
  intros H1 H2.
  apply instrument_trace in H1 as [Hn1 Hf1].
  apply instrument_trace in H2 as [Hn2 Hf2].
  split; [congruence|]. split; [|split; [done|]].
  - eexists _, _. split; [reflexivity|]. split; [exact Hf1 | exact Hf2].
  - intros Root. unfold match_order. f_equal.
    destruct Root as [L R B|L|L T [E|]|L B|L B|L B R|L B|L B|L B|L B|L E|L E];
      simpl; rewrite ?app_nil_r; done.
Qed.

End InstrumenterClaims.

(** In a run of two labels over one block only the inner label is matched,
    and it gets one entry probe, provided the block has no label below it. *)
Lemma label_chain_sites (SM : SourceManager) (K1 K2 : SourceLocation) (B : Stmt) :
  node_sites SM (CaseStmt K1 (CaseStmt K2 B)) = []
  ∧ (in_main SM (CaseStmt K2 B) = true → isa_CompoundStmt B = true →
     label_below B = false →
     node_sites SM (CaseStmt K2 B) = [Entry B]).
Proof.
  split.
  - unfold node_sites, bodies. simpl. rewrite andb_false_r.
    by destruct (in_main SM _).
  - intros Hm HB Hl. unfold node_sites, bodies. rewrite Hm.
    assert (label_below (CaseStmt K2 B) = false) as ->.
    { unfold label_below in *. simpl. rewrite Hl.
      by destruct B. }
    simpl. by rewrite HB.
Qed.

Lemma filter_none {A : Type} (f : A → bool) (l : list A) :
  Forall (λ x, f x = false) l → List.filter f l = [].
Proof.
  induction 1 as [|x l Hx _ IH]; simpl; [done|]. by rewrite Hx.
Qed.

Lemma bodies_children (SM : SourceManager) (N B : Stmt) :
  B ∈ bodies SM N → B ∈ children N.
Proof.
  unfold bodies. destruct (in_main SM N); [|by intros ?%elem_of_nil].
  destruct N; simpl; try (by intros ?%elem_of_nil); try done;
    (destruct (label_below _); [by intros ?%elem_of_nil | done]).
Qed.

(** C9 - a body that is not a block gets no entry probe: no callback of
    the instrumenter takes a statement that is not a compound statement as
    an entry site; on a node all of whose sub-statements are not compound
    statements the callbacks do nothing but the node's own fall-through
    probe, if it has one; on a case or default label they leave the state
    as it is, and no error is raised. *)
Theorem non_compound_body_not_probed {L : Type} `{!EditLedger L}
  (SM : SourceManager) (LO DefaultLO : Lexer) (N : Stmt)
  (T : DCEInstrumenterTool.State L) :
  Forall (λ B, isa_CompoundStmt B = false) (children N) →
  (∀ N' B, isa_CompoundStmt B = false →
           Entry B ∉ targets_at (DCEInstrumenterTool.registerMatchers SM)
                       instrumenter_target N')
  ∧ (∀ M R, M ∈ take 5 (DCEInstrumenterTool.registerMatchers SM) →
          M N = Some R → instrumenter_target R = None
                         ∧ DCEInstrumenterTool.run SM LO DefaultLO R T = Some T)
  ∧ matchNode (DCEInstrumenterTool.registerMatchers SM)
              (DCEInstrumenterTool.run SM LO DefaultLO) N T
    = (if in_main SM N && is_construct N && return_below N
       then DCEInstrumenterTool.handleStmtWithReturnDescendant SM LO DefaultLO N T
       else Some T)
  ∧ (isa_SwitchCase N = true →
     matchNode (DCEInstrumenterTool.registerMatchers SM)
               (DCEInstrumenterTool.run SM LO DefaultLO) N T = Some T).
Proof.
  intros Hch.
  assert (List.filter isa_CompoundStmt (bodies SM N) = []) as Hnone.
  { apply filter_none. apply Forall_forall. intros B HB.
    rewrite Forall_forall in Hch. by apply Hch, (bodies_children SM). }
  assert (matchNode (DCEInstrumenterTool.registerMatchers SM)
            (DCEInstrumenterTool.run SM LO DefaultLO) N T
          = if in_main SM N && is_construct N && return_below N
            then DCEInstrumenterTool.handleStmtWithReturnDescendant
                   SM LO DefaultLO N T
            else Some T) as Hnode.
  { rewrite (matchNode_targets _ _ instrumenter_target
               (instrument_site SM LO DefaultLO))
      by (intros; apply instrumenter_run_target).
    rewrite instrumenter_targets. unfold node_sites. rewrite Hnone. simpl.
    destruct (in_main SM N && is_construct N && return_below N); simpl; [|done].
    by destruct (DCEInstrumenterTool.handleStmtWithReturnDescendant _ _ _ _ _). }
  split; [|split; [|split; [exact Hnode|]]].
  - intros N' B HB. rewrite instrumenter_targets. unfold node_sites.
    intros [Hin|Hin]%elem_of_app.
    + apply list_elem_of_fmap in Hin as [C [[= <-] HC]].
      apply list_elem_of_In, filter_In in HC as [_ HC]. congruence.
    + destruct (in_main SM N' && is_construct N' && return_below N');
        [|by apply elem_of_nil in Hin].
      by apply list_elem_of_singleton in Hin.
  - intros M R HM HR.
    assert (instrumenter_target R = None) as Hnt.
    { destruct (instrumenter_target R) as [s|] eqn:Hs; [|done].
      assert (s ∈ targets_at (take 5 (DCEInstrumenterTool.registerMatchers SM))
                    instrumenter_target N) as Hin.
      { apply list_elem_of_omap. exists M. split; [done|]. by rewrite HR. }
      rewrite instrumenter_entry_targets, Hnone in Hin.
      by apply elem_of_nil in Hin. }
    split; [done|]. by rewrite instrumenter_run_target, Hnt.
  - intros HN. rewrite Hnode.
    assert (is_construct N = false) as -> by (by destruct N).
    by rewrite andb_false_r.
Qed.

(** ** The brace-debt map *)








(** ** The canonicalizer with the recording ledger *)

Section CanonicalizerTrace.
Context (SM : SourceManager) (LO DefaultLO : Lexer).

Local Abbreviation State := (DCECanonicalizerTool.State EditTrace).
Local Abbreviation handle :=
  (@DCECanonicalizerTool.handleStmt SM LO DefaultLO EditTrace trace_ledger).

(** [handleStmt], case by case. *)
Lemma handleStmt_trace (St : Stmt) (T : State) :
  handle St T
  = if braced SM St then
      BeginSource ← getCharacterData SM (getBeginLoc St);
      Some (DCECanonicalizerTool.mkState
              (increment (EndTokenLoc LO (getEndLoc St))
                         (DCECanonicalizerTool.CurlyBracesInsertedAtLocation T))
              (mkOutput
                 (FileToReplacements (DCECanonicalizerTool.Out T)
                  ++ [edit_at SM DefaultLO (getBeginLoc St)
                        ("{" +:+ token_text BeginSource
                                   (MeasureTokenLength LO (getBeginLoc St)))])
                 (errs (DCECanonicalizerTool.Out T)
                  ++ diag_at SM DefaultLO (getBeginLoc St)
                       ("{" +:+ token_text BeginSource
                                  (MeasureTokenLength LO (getBeginLoc St))))))
    else if (getMainFileID SM
             =? getFileID SM (getSpellingLoc SM (getBeginLoc St)))
            && isa_NullStmt St then
      Some (DCECanonicalizerTool.mkState
              (DCECanonicalizerTool.CurlyBracesInsertedAtLocation T)
              (mkOutput
                 (FileToReplacements (DCECanonicalizerTool.Out T)
                  ++ [edit_at SM DefaultLO (getBeginLoc St) "{}"])
                 (errs (DCECanonicalizerTool.Out T)
                  ++ diag_at SM DefaultLO (getBeginLoc St) "{}")))
    else Some T.
Proof.
  unfold DCECanonicalizerTool.handleStmt, braced.
  destruct (getMainFileID SM =? _); simpl; [|done].
  destruct (isa_CompoundStmt St) eqn:HC; simpl.
  { destruct St; try done. }
  destruct (isa_NullStmt St); simpl.
  - by rewrite addReplacementOrDie_trace.
  - destruct (getCharacterData SM (getBeginLoc St)); simpl; [|done].
    by rewrite addReplacementOrDie_trace.
Qed.

Local Abbreviation canon_inv T :=
  (debt_map_ok (DCECanonicalizerTool.CurlyBracesInsertedAtLocation T)).



(** The end-of-unit loop makes one edit per entry of the map, in the
    order of the map, provided the text at each key can be read. *)
Lemma flush_trace (M : LocationCounts) (O : Output EditTrace) :
  Forall (λ e, is_Some (getCharacterData SM e.1)) M →
  ∃ diags,
    for_each (@DCECanonicalizerTool.flushLocation SM LO DefaultLO EditTrace
                trace_ledger) M O
    = Some (mkOutput (FileToReplacements O ++ map (flush_edit SM LO DefaultLO) M)
                     (errs O ++ diags)).
Proof.
  intros HF. revert O.
  induction HF as [|[Loc d] M [src Hsrc] _ IH]; intros O; simpl.
  - exists []. rewrite !app_nil_r. by destruct O.
  - simpl in Hsrc. rewrite Hsrc. simpl. rewrite addReplacementOrDie_trace.
    simpl. destruct (IH (mkOutput
      (FileToReplacements O ++ [edit_at SM DefaultLO Loc
         (token_text src (MeasureTokenLength LO Loc) +:+ string_of_chars d "}")])
      (errs O ++ diag_at SM DefaultLO Loc
         (token_text src (MeasureTokenLength LO Loc) +:+ string_of_chars d "}"))))
      as [diags Hd].
    eexists. rewrite Hd. simpl. unfold flush_edit, token_at. simpl.
    rewrite Hsrc. simpl. rewrite <- !List.app_assoc. reflexivity.
Qed.

Lemma canonicalize_total (TU : TranslationUnit) (F : EditTrace) :
  (∀ Loc, is_Some (getCharacterData SM Loc)) →
  is_Some (@DCECanonicalizerTool.runOnTranslationUnit SM LO DefaultLO
             EditTrace trace_ledger TU F).
Proof.
  intros Hread. unfold DCECanonicalizerTool.runOnTranslationUnit.
  rewrite canonicalizer_walk.
  destruct (for_each_total handle (flat_map (bodies SM) (nodes_in_match_order TU))
              (DCECanonicalizerTool.init F)) as [T ->].
  { intros St T. rewrite handleStmt_trace.
    destruct (braced SM St); [|by destruct (_ && _); eexists].
    destruct (Hread (getBeginLoc St)) as [src ->]. by eexists. }
  simpl. unfold DCECanonicalizerTool.onEndOfTranslationUnit.
  destruct (flush_trace (DCECanonicalizerTool.CurlyBracesInsertedAtLocation T)
              (DCECanonicalizerTool.Out T)) as [diags ->].
  { apply Forall_forall. intros e _. apply Hread. }
  by eexists.
Qed.



End CanonicalizerTrace.

(** ** Claims about the canonicalizer, for any ledger *)

Lemma label_below_sub (N B : Stmt) :
  getSubStmt N = Some B → label_below N = false → isa_SwitchCase B = false.
Proof.
  unfold label_below. destruct N; simpl; try done; intros [= ->];
    by intros [? _]%orb_false_iff.
Qed.

Lemma bodies_body_positions (SM : SourceManager) (N B : Stmt) :
  B ∈ bodies SM N → B ∈ body_positions N.
Proof.
  unfold bodies. destruct (in_main SM N); [|by intros ?%elem_of_nil].
  destruct N as [| | | | | | | |K Sub|K Sub| |]; simpl;
    try (by intros ?%elem_of_nil); try done.
  - destruct (label_below _) eqn:Hl; [by intros ?%elem_of_nil|].
    by rewrite (label_below_sub (CaseStmt K Sub) Sub eq_refl Hl).
  - destruct (label_below _) eqn:Hl; [by intros ?%elem_of_nil|].
    by rewrite (label_below_sub (DefaultStmt K Sub) Sub eq_refl Hl).
Qed.

Section CanonicalizerClaims.
Context {L : Type} `{!EditLedger L}.
Context (SM : SourceManager) (LO DefaultLO : Lexer).

Lemma handleStmt_block (St : Stmt) (T : DCECanonicalizerTool.State L) :
  isa_CompoundStmt St = true →
  DCECanonicalizerTool.handleStmt SM LO DefaultLO St T = Some T.
Proof.
  intros HC. unfold DCECanonicalizerTool.handleStmt. rewrite HC.
  by destruct (negb _).
Qed.

(** C4 - idempotence: on a unit in canonical form (every branch of an
    [if], every loop body and the statement under every last label is a
    block) the canonicalizer emits no edit: the replacement map, the debt
    map and the diagnostics are what they were at the start. *)
Theorem canonicalize_idempotent (TU : TranslationUnit) (F : L) :
  canonical TU = true →
  DCECanonicalizerTool.runOnTranslationUnit SM LO DefaultLO TU F
  = Some (DCECanonicalizerTool.init F).
Proof.
  intros Hcan. unfold DCECanonicalizerTool.runOnTranslationUnit.
  rewrite canonicalizer_walk.
  assert (Forall (λ B, isa_CompoundStmt B = true)
            (flat_map (bodies SM) (nodes_in_match_order TU))) as Hall.
  { apply Forall_forall. intros B [N [HN HB]]%list_elem_of_In%in_flat_map.
    apply list_elem_of_In, bodies_body_positions in HB.
    unfold canonical in Hcan. rewrite forallb_forall in Hcan.
    specialize (Hcan N HN). rewrite forallb_forall in Hcan.
    by apply Hcan, list_elem_of_In. }
  assert (for_each (DCECanonicalizerTool.handleStmt SM LO DefaultLO)
            (flat_map (bodies SM) (nodes_in_match_order TU))
            (DCECanonicalizerTool.init F)
          = Some (DCECanonicalizerTool.init F)) as ->.
  { induction Hall as [|B Bs HB _ IH]; simpl; [done|].
    by rewrite handleStmt_block. }
  done.
Qed.

(** C1 (amended) - case bodies: for every case or default label the
    canonicalizer matches, what is braced is the label's sub-statement,
    the one statement that directly follows the label, and not the
    statements after it; that sub-statement is never itself a label, so of
    a run of consecutive labels only the last is handled, once. *)
Theorem case_body_is_sub_statement (N : Stmt) (M : Matcher) (R : BoundNodes)
  (T : DCECanonicalizerTool.State L) :
  M ∈ DCECanonicalizerTool.registerMatchers SM →
  isa_SwitchCase N = true →
  M N = Some R →
  ∃ B, getSubStmt N = Some B
       ∧ isa_SwitchCase B = false
       ∧ R = [("switch_case", N)]
       ∧ DCECanonicalizerTool.run SM LO DefaultLO R T
         = DCECanonicalizerTool.handleStmt SM LO DefaultLO B T
       ∧ ∀ (T0 : DCECanonicalizerTool.State EditTrace) (BeginSource : string),
           braced SM B = true →
           getCharacterData SM (getBeginLoc B) = Some BeginSource →
           let Text := "{" +:+ token_text BeginSource
                                 (MeasureTokenLength LO (getBeginLoc B)) in
           @DCECanonicalizerTool.run SM LO DefaultLO EditTrace trace_ledger R T0
           = Some (DCECanonicalizerTool.mkState
                     (increment (EndTokenLoc LO (getEndLoc B))
                        (DCECanonicalizerTool.CurlyBracesInsertedAtLocation T0))
                     (mkOutput
                        (FileToReplacements (DCECanonicalizerTool.Out T0)
                         ++ [edit_at SM DefaultLO (getBeginLoc B) Text])
                        (errs (DCECanonicalizerTool.Out T0)
                         ++ diag_at SM DefaultLO (getBeginLoc B) Text))).
Proof.
  intros HM HN HR.
  assert (label_below N = false ∧ R = [("switch_case", N)]) as [Hl ->].
  { unfold DCECanonicalizerTool.registerMatchers in HM.
    pose proof (unless_label_below N) as HL. revert HL.
    set (NL := unless _) in *. clearbody NL.
    generalize (label_below N). intros lb HL.
    repeat (apply elem_of_cons in HM as [->|HM]);
      try (by apply elem_of_nil in HM);
      destruct N as [| | | | | | | |K Sub|K Sub| |]; try done;
      revert HR; unfold bind; cbn; rewrite ?HL;
      unfold isExpansionInMainFile;
      destruct (isInMainFile _ _); cbn; try done;
      destruct lb; cbn; try done;
      intros [= HRR]; by rewrite <- HRR. }
  assert (∀ B (T0 : DCECanonicalizerTool.State EditTrace) BeginSource,
            braced SM B = true →
            getCharacterData SM (getBeginLoc B) = Some BeginSource →
            @DCECanonicalizerTool.handleStmt SM LO DefaultLO EditTrace
              trace_ledger B T0
            = Some (DCECanonicalizerTool.mkState
                      (increment (EndTokenLoc LO (getEndLoc B))
                         (DCECanonicalizerTool.CurlyBracesInsertedAtLocation T0))
                      (mkOutput
                         (FileToReplacements (DCECanonicalizerTool.Out T0)
                          ++ [edit_at SM DefaultLO (getBeginLoc B)
                                ("{" +:+ token_text BeginSource
                                   (MeasureTokenLength LO (getBeginLoc B)))])
                         (errs (DCECanonicalizerTool.Out T0)
                          ++ diag_at SM DefaultLO (getBeginLoc B)
                               ("{" +:+ token_text BeginSource
                                  (MeasureTokenLength LO (getBeginLoc B)))))))
    as Hbraced.
  { intros B T0 src Hb Hsrc. by rewrite handleStmt_trace, Hb, Hsrc. }
  destruct N as [| | | | | | | |K Sub|K Sub| |]; try done;
    exists Sub; (split; [done|]); split.
  - by apply (label_below_sub (CaseStmt K Sub) Sub).
  - split; [done|]. split; [done|]. intros T0 src Hb Hsrc. by apply Hbraced.
  - by apply (label_below_sub (DefaultStmt K Sub) Sub).
  - split; [done|]. split; [done|]. intros T0 src Hb Hsrc. by apply Hbraced.
Qed.

End CanonicalizerClaims.

(** ** Ranges that cannot be edited *)

Section CrossBoundary.
Context (mergeIfOrderIndependent :
           list Replacement → Replacement → option (list Replacement)).
Context (SM : SourceManager) (LO DefaultLO : Lexer).

(** The set kept under the empty file name only ever holds the empty
    replacement, and adding the empty replacement to it succeeds. *)
Lemma clang_ledger_invalid (F : gmap string (list Replacement)) :
  F !! "" = None ∨ F !! "" = Some [InvalidReplacement] →
  clang_ledger mergeIfOrderIndependent InvalidReplacement F
  = Some (<["" := [InvalidReplacement]]> F).
Proof.
  unfold clang_ledger. simpl. by intros [-> | ->].
Qed.

Lemma createReplacement_unusable (Start End : SourceLocation) (Text : string) :
  negb (isValid Start) || negb (isValid End)
  || crosses_boundary SM Start End = true →
  ∃ msg, createReplacement SM DefaultLO Start End Text
         = (InvalidReplacement, [msg]).
Proof.
  unfold createReplacement, crosses_boundary.
  destruct (negb (isValid Start) || negb (isValid End)); simpl; [by eexists|].
  destruct (negb (_ =? _)); simpl; [by eexists|].
  intros ->. by eexists.
Qed.

End CrossBoundary.

(** ** The passes on concrete inputs *)

Section Runs.
Import Inputs Buffers.

Local Abbreviation canonicalize toks :=
  (@DCECanonicalizerTool.runOnTranslationUnit (fileSM toks) (fileLexer toks)
     (fileLexer toks) EditTrace trace_ledger).
Local Abbreviation instrument toks :=
  (@DCEInstrumenterTool.runOnTranslationUnit (fileSM toks) (fileLexer toks)
     (fileLexer toks) EditTrace trace_ledger).
Local Abbreviation edits_of_canonicalizer R :=
  ((λ T, FileToReplacements (DCECanonicalizerTool.Out T)) <$> R).
Local Abbreviation edits_of_instrumenter R :=
  ((λ T, FileToReplacements (DCEInstrumenterTool.Out T)) <$> R).

(** The repository's test "DCEInstrumentTool switch": the probe after the
    switch is 0, the blocks of [case 1], [case 4], [case 5] and [default]
    get 1 to 4, and the block under [case 2: case 3:], which is reached
    only when [case 2] is expanded, gets 5. *)
Example switch_test_numbering :
  edits_of_instrumenter (instrument switch_toks switch_tu [])
  = Some [mkReplacement "input.cc" 144 1 ("}" +:+ nl +:+ "DCEMarker0_();");
          mkReplacement "input.cc" 26 1 ("{" +:+ nl +:+ "DCEMarker1_();");
          mkReplacement "input.cc" 85 1 ("{" +:+ nl +:+ "DCEMarker2_();");
          mkReplacement "input.cc" 109 1 ("{" +:+ nl +:+ "DCEMarker3_();");
          mkReplacement "input.cc" 131 1 ("{" +:+ nl +:+ "DCEMarker4_();");
          mkReplacement "input.cc" 64 1 ("{" +:+ nl +:+ "DCEMarker5_();");
          mkReplacement "input.cc" 0 1
            (marker_declaration 0 +:+ marker_declaration 1
             +:+ marker_declaration 2 +:+ marker_declaration 3
             +:+ marker_declaration 4 +:+ marker_declaration 5 +:+ "{")].
Proof. vm_compute. reflexivity. Qed.

(** The spec's example [for(;;) if (a>0) a=1;]: both bodies end at the
    [;], which is rewritten once, with two braces; the edits applied by
    Clang's replacement set are the same three. *)
Example shared_boundary_edits :
  edits_of_canonicalizer (canonicalize shared_toks shared_tu [])
  = Some [mkReplacement "input.cc" 14 2 "{if";
          mkReplacement "input.cc" 27 1 "{a";
          mkReplacement "input.cc" 33 1 ";}}"]
  ∧ (λ T, FileToReplacements (DCECanonicalizerTool.Out T) !! "input.cc")
      <$> @DCECanonicalizerTool.runOnTranslationUnit (fileSM shared_toks)
            (fileLexer shared_toks) (fileLexer shared_toks) _
            (clang_ledger (λ _ _, None)) shared_tu ∅
    = Some (Some [mkReplacement "input.cc" 14 2 "{if";
                  mkReplacement "input.cc" 27 1 "{a";
                  mkReplacement "input.cc" 33 1 ";}}"]).
Proof. split; vm_compute; reflexivity. Qed.

(** Counterexample to C1 as stated: in [case 3: a = 4; break;] the brace
    debt is registered at the [;] after [a = 4] (location 33), so the
    block ends before [break;]; the run of statements up to the next
    label would end at the [;] after [break] (location 41). *)
Lemma case_body_run_counterexample :
  (DCECanonicalizerTool.CurlyBracesInsertedAtLocation
     <$> canonicalize case_toks case_tu [])
  = Some [(33, 1%nat)]
  ∧ edits_of_canonicalizer (canonicalize case_toks case_tu [])
    = Some [mkReplacement "input.cc" 26 1 "{a";
            mkReplacement "input.cc" 32 1 ";}"]
  ∧ spec_case_boundary (fileLexer case_toks) case_sub case_following = 41
  ∧ (DCECanonicalizerTool.CurlyBracesInsertedAtLocation
       <$> canonicalize case_toks case_tu [])
    ≠ Some [(spec_case_boundary (fileLexer case_toks) case_sub case_following,
             1%nat)].
Proof. vm_compute. repeat split; try reflexivity. discriminate. Qed.

(** Counterexample to C3 as stated: with the nodes taken in pre-order the
    block under [case 2: case 3:] would get marker 2 and the block of
    [case 4] marker 3; the pass gives them 5 and 2. *)
Lemma preorder_numbering_counterexample :
  edits_of_instrumenter (instrument switch_toks switch_tu [])
    ≫= (λ l, l !! 5%nat)
  = Some (mkReplacement "input.cc" 64 1 ("{" +:+ nl +:+ "DCEMarker5_();"))
  ∧ edits_of_instrumenter
      (@spec_instrument EditTrace trace_ledger (fileSM switch_toks)
         (fileLexer switch_toks) (fileLexer switch_toks) switch_tu [])
    ≫= (λ l, l !! 2%nat)
    = Some (mkReplacement "input.cc" 64 1 ("{" +:+ nl +:+ "DCEMarker2_();"))
  ∧ edits_of_instrumenter (instrument switch_toks switch_tu [])
    ≠ edits_of_instrumenter
        (@spec_instrument EditTrace trace_ledger (fileSM switch_toks)
           (fileLexer switch_toks) (fileLexer switch_toks) switch_tu []).
Proof. vm_compute. repeat split; try reflexivity. discriminate. Qed.


(** C8 (the code at the failing inputs): the body [a REST] of the [if]
    begins in the main file and ends inside the expansion of a macro, so
    its two ends fail the test [createReplacement] makes on a range: for
    the range from its begin to its end the function prints the
    diagnostic for different macro expansions and returns the empty
    replacement.  The canonicalizer never gives it that range; each of
    its edits names one location as both ends.  So the body is not
    skipped and nothing is printed: the run writes the opening brace at
    [a] and, at the end of the unit, the closing brace over the [1] of
    the macro's definition, whose text becomes [1 ;}].  With the macro
    defined in the included file [h.h] that second edit is a replacement
    in [h.h].  The fall-through handler of the instrumenter, which tests
    where the end of a statement is spelled, leaves the [if], which has
    this very end, alone. *)
Theorem cross_boundary_body_is_braced :
  crosses_boundary macro_SM (getBeginLoc macro_body) (getEndLoc macro_body)
  = true
  ∧ createReplacement macro_SM macro_LO (getBeginLoc macro_body)
      (getEndLoc macro_body) "{a"
    = (InvalidReplacement,
       ["start or end location were in different macro expansions" +:+ nl])
  ∧ (λ T, (DCECanonicalizerTool.CurlyBracesInsertedAtLocation T,
           FileToReplacements (DCECanonicalizerTool.Out T),
           errs (DCECanonicalizerTool.Out T)))
      <$> @DCECanonicalizerTool.runOnTranslationUnit macro_SM macro_LO
            macro_LO EditTrace trace_ledger BoundaryInputs.macro_tu []
    = Some ([(101, 1%nat)],
            [mkReplacement "input.cc" 30 1 "{a";
             mkReplacement "input.cc" 15 1 "1 ;}"],
            [])
  ∧ crosses_boundary BoundaryInputs.tail_SM
      (getBeginLoc BoundaryInputs.tail_body)
      (getEndLoc BoundaryInputs.tail_body)
    = true
  ∧ (λ T, (DCECanonicalizerTool.CurlyBracesInsertedAtLocation T,
           FileToReplacements (DCECanonicalizerTool.Out T),
           errs (DCECanonicalizerTool.Out T)))
      <$> @DCECanonicalizerTool.runOnTranslationUnit BoundaryInputs.tail_SM
            BoundaryInputs.tail_LO BoundaryInputs.tail_LO EditTrace
            trace_ledger BoundaryInputs.tail_tu []
    = Some ([(301, 1%nat)],
            [mkReplacement "input.cc" 26 1 "{a";
             mkReplacement "h.h" 15 1 "1 ;}"],
            [])
  ∧ getFilename BoundaryInputs.tail_SM (getMainFileID BoundaryInputs.tail_SM)
    = "input.cc"
  ∧ getEndLoc BoundaryInputs.tail_if = getEndLoc BoundaryInputs.tail_body
  ∧ @DCEInstrumenterTool.handleStmtWithReturnDescendant
      BoundaryInputs.tail_SM BoundaryInputs.tail_LO BoundaryInputs.tail_LO
      EditTrace trace_ledger BoundaryInputs.tail_if
      (DCEInstrumenterTool.init [])
    = Some (DCEInstrumenterTool.init []).
Proof. vm_compute. repeat split; reflexivity. Qed.

(** C7 (the code at the failing input): the run of labels
    [case 1: case 2:] shares a block that holds a nested switch.  Neither
    label yields a site, because each has the nested [case 3] below it;
    the only probe of the unit is the one of the nested [case 3] block
    (offset 61), and the block of the run (offset 35) gets none. *)
Theorem nested_switch_group_gets_no_probe :
  node_sites (fileSM nested_toks) nested_group = []
  ∧ node_sites (fileSM nested_toks) nested_inner_label = []
  ∧ edits_of_instrumenter (instrument nested_toks nested_tu [])
    = Some [mkReplacement "input.cc" 61 1 ("{" +:+ nl +:+ "DCEMarker0_();");
            mkReplacement "input.cc" 0 1 (marker_declaration 0 +:+ "{")].
Proof.
  by vm_compute.
Qed.

(** C10 (the code at the failing input): the opening brace of the block
    comes from the macro [LB] of the included file [h.h]; the [if] is
    expanded in the main file, so it is matched, and the entry probe is
    written over the brace where it is spelled, in [h.h]. *)
Theorem edit_lands_in_included_file :
  (λ T, FileToReplacements (DCEInstrumenterTool.Out T))
    <$> @DCEInstrumenterTool.runOnTranslationUnit header_SM header_LO
          header_LO EditTrace trace_ledger header_tu []
  = Some [mkReplacement "h.h" 11 1 ("{" +:+ nl +:+ "DCEMarker0_();");
          mkReplacement "input.cc" 0 1 (marker_declaration 0 +:+ "#")]
  ∧ getFilename header_SM (getMainFileID header_SM) = "input.cc".
Proof. by vm_compute. Qed.

(** *** The theorems above at concrete inputs *)


Lemma numbering_follows_match_order_witness :
  ∃ T1 T2, instrument switch_toks switch_tu [] = Some T1
           ∧ instrument switch_toks switch_tu [InvalidReplacement] = Some T2
           ∧ DCEInstrumenterTool.NFunctionsInserted T1
             = DCEInstrumenterTool.NFunctionsInserted T2
           ∧ ∃ Edits,
               FileToReplacements (DCEInstrumenterTool.Out T1) = [] ++ Edits
               ∧ FileToReplacements (DCEInstrumenterTool.Out T2)
                 = [InvalidReplacement] ++ Edits.
Proof.
  destruct (instrument switch_toks switch_tu []) as [T1|] eqn:Hrun1;
    [|vm_compute in Hrun1; discriminate].
  destruct (instrument switch_toks switch_tu [InvalidReplacement])
    as [T2|] eqn:Hrun2; [|vm_compute in Hrun2; discriminate].
  exists T1, T2. split; [reflexivity|]. split; [reflexivity|].
  destruct (numbering_follows_match_order _ _ _ _ _ _ T1 T2 Hrun1 Hrun2)
    as (Hn & (Edits & Decls & _ & H1 & H2) & _).
  split; [exact Hn|]. exists Edits. split; [exact H1 | exact H2].
Defined.

Lemma canonicalize_idempotent_witness :
  canonical switch_tu = true
  ∧ canonicalize switch_toks switch_tu []
    = Some (DCECanonicalizerTool.init []).
Proof.
  split; [vm_compute; reflexivity|].
  apply (@canonicalize_idempotent EditTrace trace_ledger).
  vm_compute. reflexivity.
Defined.



Lemma non_compound_body_not_probed_witness :
  Forall (λ B, isa_CompoundStmt B = false) (children plain_if)
  ∧ matchNode (DCEInstrumenterTool.registerMatchers (fileSM plain_if_toks))
      (@DCEInstrumenterTool.run (fileSM plain_if_toks)
         (fileLexer plain_if_toks) (fileLexer plain_if_toks) EditTrace
         trace_ledger)
      plain_if (DCEInstrumenterTool.init [])
    = Some (DCEInstrumenterTool.init []).
Proof.
  assert (Forall (λ B, isa_CompoundStmt B = false) (children plain_if)) as H.
  { repeat constructor. }
  split; [exact H|].
  rewrite (proj1 (proj2 (proj2 (@non_compound_body_not_probed EditTrace trace_ledger
                           (fileSM plain_if_toks) (fileLexer plain_if_toks)
                           (fileLexer plain_if_toks) plain_if
                           (DCEInstrumenterTool.init []) H)))).
  vm_compute. reflexivity.
Defined.

Lemma case_body_is_sub_statement_witness :
  let SM := fileSM case_toks in
  let N := CaseStmt (tok case_toks 6) case_sub in
  ∃ M, M ∈ DCECanonicalizerTool.registerMatchers SM
       ∧ isa_SwitchCase N = true
       ∧ M N = Some [("switch_case", N)]
       ∧ ∃ B, getSubStmt N = Some B ∧ isa_SwitchCase B = false.
Proof.
  intros SM N.
  exists (bind "switch_case"
            (caseStmt [isExpansionInMainFile SM;
                       unless (anyOf [hasDescendant (defaultStmt []);
                                      hasDescendant (caseStmt [])])])).
  assert (bind "switch_case"
            (caseStmt [isExpansionInMainFile SM;
                       unless (anyOf [hasDescendant (defaultStmt []);
                                      hasDescendant (caseStmt [])])])
          ∈ DCECanonicalizerTool.registerMatchers SM) as HM.
  { unfold DCECanonicalizerTool.registerMatchers.
    do 3 apply list_elem_of_further. apply list_elem_of_here. }
  split; [exact HM|]. split; [reflexivity|]. split; [vm_compute; reflexivity|].
  destruct (@case_body_is_sub_statement EditTrace trace_ledger SM
              (fileLexer case_toks) (fileLexer case_toks) N _
              [("switch_case", N)] (DCECanonicalizerTool.init [])
              HM eq_refl eq_refl)
    as (B & HB & HnB & _).
  exists B. split; [exact HB | exact HnB].
Defined.

End Runs.

(** * Further properties of the passes *)

(** ** A run on a replacement map is the recorded run, replayed *)

Lemma option_bind_Some {A : Type} (m : option A) : m ≫= Some = m.
Proof. by destruct m. Qed.

Lemma option_bind_assoc {A B C : Type} (m : option A) (f : A → option B)
  (g : B → option C) :
  (m ≫= f) ≫= g = m ≫= (λ x, f x ≫= g).
Proof. by destruct m. Qed.

(** When every step of a loop commutes with a translation of the state, so
    does the loop. *)
Lemma for_each_commutes {A S1 S2 : Type} (f1 : A → S1 → option S1)
  (f2 : A → S2 → option S2) (rep : S1 → option S2) (l : list A) (s : S1) :
  (∀ x s, rep s ≫= f2 x = f1 x s ≫= rep) →
  rep s ≫= for_each f2 l = for_each f1 l s ≫= rep.
Proof.
  intros Hstep. revert s. induction l as [|x l IH]; intros s; simpl.
  - apply option_bind_Some.
  - rewrite <- (option_bind_assoc (rep s)), Hstep.
    destruct (f1 x s) as [s1|]; simpl; [apply IH | done].
Qed.

Section Replay.
Context {L : Type} `{!EditLedger L}.
Context (SM : SourceManager) (LO DefaultLO : Lexer) (F0 : L).

Lemma commit_snoc (E : list Replacement) (R : Replacement) :
  commit (E ++ [R]) F0 = commit E F0 ≫= ledger_add R.
Proof.
  unfold commit. rewrite for_each_app. destruct (for_each _ E F0); simpl; [|done].
  apply option_bind_Some.
Qed.

(** One call of [addReplacementOrDie] on the map is the recorded call,
    replayed. *)
Lemma addReplacementOrDie_replay (Loc : SourceLocation) (Text : string)
  (O : Output EditTrace) :
  replay F0 O ≫= addReplacementOrDie SM DefaultLO Loc Loc Text
  = @addReplacementOrDie SM DefaultLO EditTrace trace_ledger Loc Loc Text O
    ≫= replay F0.
Proof.
  rewrite addReplacementOrDie_trace. simpl. unfold replay. simpl.
  rewrite commit_snoc.
  destruct (commit (FileToReplacements O) F0) as [F|]; simpl; [|done].
  unfold addReplacementOrDie, edit_at, diag_at. simpl.
  by destruct (createReplacement SM DefaultLO Loc Loc Text).
Qed.

Ltac replay_step Loc Text O :=
  let H := fresh "H" in
  pose proof (addReplacementOrDie_replay Loc Text O) as H;
  destruct (replay F0 O); simpl in *;
  [ rewrite H; clear H;
    destruct (@addReplacementOrDie SM DefaultLO EditTrace trace_ledger
                Loc Loc Text O); simpl; done
  | destruct (@addReplacementOrDie SM DefaultLO EditTrace trace_ledger
                Loc Loc Text O); simpl in *; [by rewrite <- H | done] ].

Lemma handleStmt_replay (St : Stmt) (T : DCECanonicalizerTool.State EditTrace) :
  replay_canonicalizer F0 T ≫= DCECanonicalizerTool.handleStmt SM LO DefaultLO St
  = @DCECanonicalizerTool.handleStmt SM LO DefaultLO EditTrace trace_ledger St T
    ≫= replay_canonicalizer F0.
Proof.
  unfold DCECanonicalizerTool.handleStmt, replay_canonicalizer.
  destruct (negb _); simpl; [apply option_bind_Some|].
  destruct (isa_CompoundStmt St); simpl; [apply option_bind_Some|].
  destruct (isa_NullStmt St); simpl.
  - replay_step (getBeginLoc St) "{}" (DCECanonicalizerTool.Out T).
  - destruct (getCharacterData SM (getBeginLoc St)) as [src|]; simpl.
    + replay_step (getBeginLoc St)
        ("{" +:+ token_text src (MeasureTokenLength LO (getBeginLoc St)))
        (DCECanonicalizerTool.Out T).
    + by destruct (replay F0 _).
Qed.

Lemma flushLocation_replay (Entry : SourceLocation * nat) (O : Output EditTrace) :
  replay F0 O ≫= DCECanonicalizerTool.flushLocation SM LO DefaultLO Entry
  = @DCECanonicalizerTool.flushLocation SM LO DefaultLO EditTrace trace_ledger
      Entry O ≫= replay F0.
Proof.
  destruct Entry as [Loc NBraces]. unfold DCECanonicalizerTool.flushLocation.
  destruct (getCharacterData SM Loc) as [src|]; simpl.
  - apply addReplacementOrDie_replay.
  - by destruct (replay F0 O).
Qed.

Lemma canonicalizer_flush_replay (T : DCECanonicalizerTool.State EditTrace) :
  replay_canonicalizer F0 T
    ≫= DCECanonicalizerTool.onEndOfTranslationUnit SM LO DefaultLO
  = @DCECanonicalizerTool.onEndOfTranslationUnit SM LO DefaultLO EditTrace
      trace_ledger T ≫= replay_canonicalizer F0.
Proof.
  unfold DCECanonicalizerTool.onEndOfTranslationUnit, replay_canonicalizer.
  pose proof (for_each_commutes
                (@DCECanonicalizerTool.flushLocation SM LO DefaultLO EditTrace
                   trace_ledger)
                (DCECanonicalizerTool.flushLocation SM LO DefaultLO)
                (replay F0)
                (DCECanonicalizerTool.CurlyBracesInsertedAtLocation T)
                (DCECanonicalizerTool.Out T) flushLocation_replay) as H.
  destruct (replay F0 (DCECanonicalizerTool.Out T)) as [O|]; simpl in *.
  - rewrite H. by destruct (for_each _ _ (DCECanonicalizerTool.Out T)).
  - destruct (for_each _ _ (DCECanonicalizerTool.Out T)); simpl in *;
      [by rewrite <- H | done].
Qed.

Lemma canonicalizer_replay (TU : TranslationUnit) :
  DCECanonicalizerTool.runOnTranslationUnit SM LO DefaultLO TU F0
  = @DCECanonicalizerTool.runOnTranslationUnit SM LO DefaultLO EditTrace
      trace_ledger TU [] ≫= replay_canonicalizer F0.
Proof.
  unfold DCECanonicalizerTool.runOnTranslationUnit.
  rewrite !canonicalizer_walk, option_bind_assoc.
  rewrite <- (option_bind_assoc _ _ (replay_canonicalizer F0)).
  change (for_each (DCECanonicalizerTool.handleStmt SM LO DefaultLO)
            (flat_map (bodies SM) (nodes_in_match_order TU))
            (DCECanonicalizerTool.init F0))
    with (replay_canonicalizer F0 (DCECanonicalizerTool.init [])
            ≫= for_each (DCECanonicalizerTool.handleStmt SM LO DefaultLO)
                 (flat_map (bodies SM) (nodes_in_match_order TU))).
  rewrite (for_each_commutes
             (@DCECanonicalizerTool.handleStmt SM LO DefaultLO EditTrace
                trace_ledger) _ _ _ _ handleStmt_replay).
  rewrite option_bind_assoc.
  destruct (for_each _ _ (DCECanonicalizerTool.init [])) as [T|]; simpl; [|done].
  apply canonicalizer_flush_replay.
Qed.

Lemma instrument_site_replay (s : Site) (T : DCEInstrumenterTool.State EditTrace) :
  replay_instrumenter F0 T ≫= instrument_site SM LO DefaultLO s
  = @instrument_site EditTrace trace_ledger SM LO DefaultLO s T
    ≫= replay_instrumenter F0.
Proof.
  unfold instrument_site, replay_instrumenter.
  destruct s as [C|St].
  - unfold DCEInstrumenterTool.handleCompoundStmt.
    destruct (getLBracLoc C) as [Lb|]; simpl; [|apply option_bind_Some].
    replay_step Lb
      ("{" +:+ nl +:+ "DCEMarker"
       +:+ DCEInstrumenterTool.to_string (DCEInstrumenterTool.NFunctionsInserted T)
       +:+ "_();")
      (DCEInstrumenterTool.Out T).
  - unfold DCEInstrumenterTool.handleStmtWithReturnDescendant.
    destruct (negb _); simpl; [apply option_bind_Some|].
    destruct (getCharacterData SM (EndTokenLoc LO (getEndLoc St))) as [src|];
      simpl.
    + replay_step (EndTokenLoc LO (getEndLoc St))
        (token_text src (MeasureTokenLength LO (EndTokenLoc LO (getEndLoc St)))
         +:+ nl +:+ "DCEMarker"
         +:+ DCEInstrumenterTool.to_string
               (DCEInstrumenterTool.NFunctionsInserted T)
         +:+ "_();")
        (DCEInstrumenterTool.Out T).
    + by destruct (replay F0 _).
Qed.

Lemma instrumenter_flush_replay (T : DCEInstrumenterTool.State EditTrace) :
  replay_instrumenter F0 T
    ≫= DCEInstrumenterTool.onEndOfTranslationUnit SM LO DefaultLO
  = @DCEInstrumenterTool.onEndOfTranslationUnit SM LO DefaultLO EditTrace
      trace_ledger T ≫= replay_instrumenter F0.
Proof.
  unfold DCEInstrumenterTool.onEndOfTranslationUnit, replay_instrumenter.
  destruct (DCEInstrumenterTool.NFunctionsInserted T =? 0)%nat eqn:HN; simpl.
  - destruct (replay F0 _); simpl; [by rewrite HN | done].
  - destruct (getCharacterData SM _) as [src|]; simpl.
    + pose proof (addReplacementOrDie_replay
                    (getLocForStartOfFile SM (getMainFileID SM))
                    (DCEInstrumenterTool.declarations
                       (DCEInstrumenterTool.NFunctionsInserted T)
                     +:+ token_text src
                           (MeasureTokenLength LO
                              (getLocForStartOfFile SM (getMainFileID SM))))
                    (DCEInstrumenterTool.Out T)) as H.
      destruct (replay F0 (DCEInstrumenterTool.Out T)); simpl in *.
      * rewrite HN, H.
        by destruct (@addReplacementOrDie SM DefaultLO EditTrace trace_ledger
                       _ _ _ (DCEInstrumenterTool.Out T)).
      * destruct (@addReplacementOrDie SM DefaultLO EditTrace trace_ledger
                    _ _ _ (DCEInstrumenterTool.Out T)); simpl in *;
          [by rewrite <- H | done].
    + destruct (replay F0 _); simpl; [by rewrite HN | done].
Qed.

Lemma instrumenter_replay (TU : TranslationUnit) :
  DCEInstrumenterTool.runOnTranslationUnit SM LO DefaultLO TU F0
  = @DCEInstrumenterTool.runOnTranslationUnit SM LO DefaultLO EditTrace
      trace_ledger TU [] ≫= replay_instrumenter F0.
Proof.
  unfold DCEInstrumenterTool.runOnTranslationUnit.
  rewrite !instrumenter_walk, option_bind_assoc.
  rewrite <- (option_bind_assoc _ _ (replay_instrumenter F0)).
  change (for_each (instrument_site SM LO DefaultLO)
            (flat_map (node_sites SM) (nodes_in_match_order TU))
            (DCEInstrumenterTool.init F0))
    with (replay_instrumenter F0 (DCEInstrumenterTool.init [])
            ≫= for_each (instrument_site SM LO DefaultLO)
                 (flat_map (node_sites SM) (nodes_in_match_order TU))).
  rewrite (for_each_commutes
             (@instrument_site EditTrace trace_ledger SM LO DefaultLO)
             _ _ _ _ instrument_site_replay).
  rewrite option_bind_assoc.
  destruct (for_each _ _ (DCEInstrumenterTool.init [])) as [T|]; simpl; [|done].
  apply instrumenter_flush_replay.
Qed.

End Replay.

(** ** The pass that makes globals static *)

Section GlobalStatic.
Context (SM : SourceManager) (LO DefaultLO : Lexer).

(** On one declaration the two matchers lead to at most one callback,
    for the declarations [made_static] describes. *)
Lemma global_matchNode {L : Type} `{!EditLedger L} (D : Decl) (O : Output L) :
  DeclMatchers.matchNode (GlobalStaticInstrumenterTool.registerMatchers SM)
    (GlobalStaticInstrumenterTool.run SM LO DefaultLO) D O
  = if made_static SM D then
      Source ← getCharacterData SM (getDeclBeginLoc D);
      addReplacementOrDie SM DefaultLO (getDeclBeginLoc D) (getDeclBeginLoc D)
        ("static " +:+ token_text Source
                         (MeasureTokenLength LO (getDeclBeginLoc D))) O
    else Some O.
Proof.
  unfold DeclMatchers.matchNode, GlobalStaticInstrumenterTool.registerMatchers,
    made_static, GlobalStaticInstrumenterTool.run.
  destruct D as [B d g s|B d s m|B]; cbn;
    unfold DeclMatchers.isExpansionInMainFile, DeclMatchers.narrowing; cbn;
    destruct (isInMainFile SM (getExpansionLoc SM B)); cbn; try done.
  - destruct d, g, s; cbn; try done.
    by destruct (getCharacterData SM B) as [src|]; cbn;
      [destruct (addReplacementOrDie _ _ _ _ _ _)|].
  - destruct d, s, m; cbn; try done.
    by destruct (getCharacterData SM B) as [src|]; cbn;
      [destruct (addReplacementOrDie _ _ _ _ _ _)|].
Qed.


(** X15 - the static pass on any replacement map: a run of the pass on
    a map [F0] is the run with the recording ledger followed by handing
    the recorded replacements to [F0] in the order they were made; so
    which declarations are rewritten, and with what text, does not
    depend on what the map holds. *)
Theorem static_pass_replays_recorded_edits {L : Type} `{!EditLedger L}
  (F0 : L) (Decls : list Decl) :
  GlobalStaticInstrumenterTool.runOnTranslationUnit SM LO DefaultLO Decls F0
  = @GlobalStaticInstrumenterTool.runOnTranslationUnit SM LO DefaultLO
      EditTrace trace_ledger Decls [] ≫= replay F0.
Proof.
  unfold GlobalStaticInstrumenterTool.runOnTranslationUnit, DeclMatchers.matchAST.
  change (Some (mkOutput F0 [])) with (replay F0 (mkOutput [] [])).
  change (for_each
            (DeclMatchers.matchNode (GlobalStaticInstrumenterTool.registerMatchers SM)
               (GlobalStaticInstrumenterTool.run SM LO DefaultLO)) Decls
            (mkOutput F0 []))
    with (replay F0 (mkOutput [] [])
            ≫= for_each
                 (DeclMatchers.matchNode
                    (GlobalStaticInstrumenterTool.registerMatchers SM)
                    (GlobalStaticInstrumenterTool.run SM LO DefaultLO)) Decls).
  apply for_each_commutes. intros D O. rewrite (global_matchNode D O).
  destruct (made_static SM D) eqn:Hm.
  - destruct (getCharacterData SM (getDeclBeginLoc D)) as [src|] eqn:Hs; simpl.
    + rewrite <- addReplacementOrDie_replay.
      destruct (replay F0 O); simpl; [|done].
      by rewrite global_matchNode, Hm, Hs.
    + destruct (replay F0 O); simpl; [|done].
      by rewrite global_matchNode, Hm, Hs.
  - simpl. destruct (replay F0 O); simpl; [|done].
    by rewrite global_matchNode, Hm.
Qed.

Lemma global_static_trace (Decls : list Decl) (O : Output EditTrace) :
  Forall (λ D, made_static SM D = true →
               is_Some (getCharacterData SM (getDeclBeginLoc D))) Decls →
  FileToReplacements
    <$> for_each
          (DeclMatchers.matchNode
             (GlobalStaticInstrumenterTool.registerMatchers SM)
             (@GlobalStaticInstrumenterTool.run SM LO DefaultLO
                EditTrace trace_ledger)) Decls O
  = Some (FileToReplacements O
          ++ map (static_edit SM LO DefaultLO)
               (List.filter (made_static SM) Decls)).
Proof.
  intros HF. revert O.
  induction HF as [|D Ds HD _ IH]; intros O; simpl.
  - by rewrite app_nil_r.
  - rewrite global_matchNode. destruct (made_static SM D) eqn:Hm; simpl.
    + destruct (HD eq_refl) as [src Hsrc]. rewrite Hsrc. simpl.
      rewrite addReplacementOrDie_trace. simpl. rewrite IH. simpl.
      rewrite <- List.app_assoc. unfold static_edit, token_at.
      by rewrite Hsrc.
    + apply IH.
Qed.

(** X7 - what the pass edits: with the text of every rewritten
    declaration readable, the run returns, and its edits are one per
    declaration that is a definition expanded in the main file, not
    static already, a variable with global storage or a function other
    than [main]; in the order the declarations are reached, each edit
    putting [static ] in front of the declaration's first token. *)
Theorem globals_are_made_static (Decls : list Decl) :
  Forall (λ D, made_static SM D = true →
               is_Some (getCharacterData SM (getDeclBeginLoc D))) Decls →
  FileToReplacements
    <$> @GlobalStaticInstrumenterTool.runOnTranslationUnit SM LO DefaultLO
          EditTrace trace_ledger Decls []
  = Some (map (static_edit SM LO DefaultLO) (List.filter (made_static SM) Decls)).
Proof.
  intros HF.
  apply (global_static_trace Decls (mkOutput [] []) HF).
Qed.

(** X8 - what the pass leaves alone, for any replacement map: on a
    unit that holds only declarations that are static already, are
    [main], are not definitions, are variables without global storage,
    are neither variables nor functions, or are not expanded in the main
    file, the run returns the map it was given and no diagnostic. *)
Theorem static_globals_are_left_alone {L : Type} `{!EditLedger L}
  (Decls : list Decl) (F : L) :
  Forall (λ D, isInMainFile SM (getExpansionLoc SM (getDeclBeginLoc D)) = false
               ∨ match D with
                 | VarDecl _ d g s => d = false ∨ g = false ∨ s = true
                 | FunctionDecl _ d s m => d = false ∨ s = true ∨ m = true
                 | OtherDecl _ => True
                 end) Decls →
  GlobalStaticInstrumenterTool.runOnTranslationUnit SM LO DefaultLO Decls F
  = Some (mkOutput F []).
Proof.
  unfold GlobalStaticInstrumenterTool.runOnTranslationUnit, DeclMatchers.matchAST.
  generalize (mkOutput F []). intros O HF.
  induction HF as [|D Ds HD _ IH]; simpl; [done|].
  rewrite global_matchNode.
  assert (made_static SM D = false) as ->; [|apply IH].
  unfold made_static. destruct HD as [-> | HD]; [done|].
  apply andb_false_iff. right.
  destruct D as [B d g s|B d s m|B]; [| |done].
  - destruct HD as [-> | [-> | ->]]; cbn; rewrite ?andb_false_r; done.
  - destruct HD as [-> | [-> | ->]]; cbn; rewrite ?andb_false_r; done.
Qed.

End GlobalStatic.

(** ** Replacements with one location for both ends *)

Section SingleTokenEdits.
Context (SM : SourceManager) (LO DefaultLO : Lexer).

Lemma diag_at_cases (Loc : SourceLocation) (Text : string) :
  diag_at SM DefaultLO Loc Text
  = if isValid Loc then [] else [invalid_location_message].
Proof.
  unfold diag_at. rewrite createReplacement_at. by destruct (isValid Loc).
Qed.

Lemma edit_at_cases (Loc : SourceLocation) (Text : string) :
  edit_at SM DefaultLO Loc Text
  = if isValid Loc then
      Replacement_of_token_range SM DefaultLO
        (getSpellingLoc SM (getSpellingLoc SM Loc))
        (getSpellingLoc SM (getSpellingLoc SM Loc)) Text
    else InvalidReplacement.
Proof.
  unfold edit_at. rewrite createReplacement_at. by destruct (isValid Loc).
Qed.

(** X3 - an edit replaces one whole token: for a valid location whose
    spelling location is its own spelling location, and a token shorter
    than 2^32 characters, the replacement [createReplacement] builds with
    that location as both ends names the file the location is spelled
    in, starts at the offset of the spelling location, is as long as the
    token measured there with default language options, and carries the
    given text unchanged. *)
Theorem edit_replaces_one_token (Loc : SourceLocation) (Text : string) :
  isValid Loc = true →
  getSpellingLoc SM (getSpellingLoc SM Loc) = getSpellingLoc SM Loc →
  MeasureTokenLength DefaultLO (getSpellingLoc SM Loc) < 2 ^ 32 →
  createReplacement SM DefaultLO Loc Loc Text
  = (mkReplacement
       (getFilename SM (getFileID SM (getSpellingLoc SM Loc)))
       (getDecomposedLoc SM (getSpellingLoc SM Loc)).2
       (MeasureTokenLength DefaultLO (getSpellingLoc SM Loc))
       Text,
     []).
Proof.
  intros Hv Hsp Hlen. rewrite createReplacement_at, Hv.
  unfold Replacement_of_token_range, getRangeSize, getFileID.
  rewrite !Hsp, N.eqb_refl. simpl. do 2 f_equal.
  rewrite N2Z.inj_add, Z.add_simpl_l.
  rewrite Z.mod_small; [apply N2Z.id|]. lia.
Qed.

End SingleTokenEdits.

(** ** The canonicalizer's edits *)

Lemma braces_owed_increment (K : SourceLocation) (M : LocationCounts) :
  braces_owed (increment K M) = S (braces_owed M).
Proof.
  unfold braces_owed. induction M as [|[k n] r IH]; simpl; [done|].
  destruct (K <? k); simpl; [done|]. destruct (K =? k); simpl; [done|].
  rewrite IH. lia.
Qed.

Section CanonicalizerEdits.
Context (SM : SourceManager) (LO DefaultLO : Lexer).

Local Abbreviation State := (DCECanonicalizerTool.State EditTrace).
Local Abbreviation handle :=
  (@DCECanonicalizerTool.handleStmt SM LO DefaultLO EditTrace trace_ledger).
Local Abbreviation canonicalize :=
  (@DCECanonicalizerTool.runOnTranslationUnit SM LO DefaultLO EditTrace
     trace_ledger).
Local Abbreviation Curly := DCECanonicalizerTool.CurlyBracesInsertedAtLocation.
Local Abbreviation Edits T := (FileToReplacements (DCECanonicalizerTool.Out T)).
Local Abbreviation Diags T := (errs (DCECanonicalizerTool.Out T)).

Lemma handleStmt_edits (St : Stmt) (T T' : State) :
  handle St T = Some T' →
  Edits T' = Edits T ++ opening_edit SM LO DefaultLO St
  ∧ braces_owed (Curly T')
    = (braces_owed (Curly T) + if braced SM St then 1 else 0)%nat
  ∧ ∃ diags, Diags T' = Diags T ++ diags
             ∧ Forall (λ m, m = invalid_location_message) diags.
Proof.
  rewrite handleStmt_trace. unfold opening_edit, token_at.
  destruct (braced SM St); simpl.
  - destruct (getCharacterData SM (getBeginLoc St)) as [src|]; simpl; [|done].
    intros [= <-]. simpl. split; [done|]. split.
    + rewrite braces_owed_increment. lia.
    + eexists. split; [done|]. rewrite diag_at_cases.
      destruct (isValid _); repeat constructor.
  - destruct (_ && _); intros [= <-]; simpl.
    + split; [done|]. split; [lia|]. eexists. split; [done|].
      rewrite diag_at_cases. destruct (isValid _); repeat constructor.
    + rewrite app_nil_r. split; [done|]. split; [lia|]. exists [].
      by rewrite app_nil_r.
Qed.

Lemma handleStmts_edits (Sts : list Stmt) (T T' : State) :
  for_each handle Sts T = Some T' →
  Edits T' = Edits T ++ flat_map (opening_edit SM LO DefaultLO) Sts
  ∧ braces_owed (Curly T')
    = (braces_owed (Curly T) + List.length (List.filter (braced SM) Sts))%nat
  ∧ ∃ diags, Diags T' = Diags T ++ diags
             ∧ Forall (λ m, m = invalid_location_message) diags.
Proof.
  revert T. induction Sts as [|St Sts IH]; intros T; simpl.
  - intros [= <-]. rewrite app_nil_r. split; [done|]. split; [lia|].
    exists []. by rewrite app_nil_r.
  - destruct (handle St T) as [T1|] eqn:H1; simpl; [|done]. intros Hrest.
    apply handleStmt_edits in H1 as (He1 & Hb1 & d1 & Hd1 & Hm1).
    apply IH in Hrest as (He & Hb & d & Hd & Hm).
    rewrite He, He1, Hb, Hb1, Hd, Hd1, <- !List.app_assoc.
    split; [done|]. split.
    + destruct (braced SM St); simpl; lia.
    + exists (d1 ++ d). split; [done|]. by apply Forall_app.
Qed.

Lemma flush_edits (M : LocationCounts) (O O' : Output EditTrace) :
  for_each (@DCECanonicalizerTool.flushLocation SM LO DefaultLO EditTrace
              trace_ledger) M O = Some O' →
  FileToReplacements O' = FileToReplacements O ++ map (flush_edit SM LO DefaultLO) M
  ∧ ∃ diags, errs O' = errs O ++ diags
             ∧ Forall (λ m, m = invalid_location_message) diags.
Proof.
  revert O. induction M as [|[Loc d] M IH]; intros O; simpl.
  - intros [= <-]. rewrite app_nil_r. split; [done|]. exists [].
    by rewrite app_nil_r.
  - destruct (getCharacterData SM Loc) as [src|] eqn:Hsrc; simpl; [|done].
    rewrite addReplacementOrDie_trace. simpl. intros Hrest.
    apply IH in Hrest as (He & ds & Hd & Hm). simpl in He, Hd.
    rewrite He, Hd, <- !List.app_assoc. split.
    + unfold flush_edit, token_at. simpl. by rewrite Hsrc.
    + eexists. split; [done|]. apply Forall_app. split; [|done].
      rewrite diag_at_cases. destruct (isValid _); repeat constructor.
Qed.

(** X2 - opening and closing braces balance: the edits of a run are the
    opening edits of the statements handed to [handleStmt], in callback
    order ([{] in front of the first token of a braced statement, [{}]
    for a null statement), followed by one closing edit per entry of the
    debt map; and the closing braces owed by the map, summed over its
    entries, are as many as the statements that were given an opening
    brace. *)
Theorem braces_balance (TU : TranslationUnit) (T' : State) :
  canonicalize TU [] = Some T' →
  Edits T'
  = flat_map (opening_edit SM LO DefaultLO) (canonicalizer_bodies SM TU)
    ++ map (flush_edit SM LO DefaultLO) (Curly T')
  ∧ braces_owed (Curly T')
    = List.length (List.filter (braced SM) (canonicalizer_bodies SM TU)).
Proof.
  unfold DCECanonicalizerTool.runOnTranslationUnit.
  rewrite canonicalizer_walk.
  destruct (for_each _ _ _) as [T|] eqn:Hwalk; simpl; [|done].
  apply handleStmts_edits in Hwalk as (He & Hb & _).
  unfold DCECanonicalizerTool.onEndOfTranslationUnit.
  destruct (for_each _ (Curly T) _) as [O|] eqn:Hflush; simpl; [|done].
  apply flush_edits in Hflush as [Hf _]. intros [= <-]. simpl.
  rewrite Hf, He, Hb. done.
Qed.

Lemma canonicalizer_diagnostics (TU : TranslationUnit) (T' : State) :
  canonicalize TU [] = Some T' →
  Forall (λ m, m = invalid_location_message) (Diags T').
Proof.
  unfold DCECanonicalizerTool.runOnTranslationUnit.
  rewrite canonicalizer_walk.
  destruct (for_each _ _ _) as [T|] eqn:Hwalk; simpl; [|done].
  apply handleStmts_edits in Hwalk as (_ & _ & d1 & Hd1 & Hm1).
  unfold DCECanonicalizerTool.onEndOfTranslationUnit.
  destruct (for_each _ (Curly T) _) as [O|] eqn:Hflush; simpl; [|done].
  apply flush_edits in Hflush as (_ & d2 & Hd2 & Hm2). intros [= <-]. simpl.
  rewrite Hd2, Hd1. simpl. by apply Forall_app.
Qed.

(** X4 - opening edits stay in the main file: every edit the walk of
    the canonicalizer makes (the end-of-unit edits apart) is either the
    empty replacement, made for an invalid location, or a replacement in
    the main file, provided the spelling location of each handled
    statement's begin is its own spelling location. *)
Theorem opening_edits_are_in_the_main_file (TU : TranslationUnit) (T : State) :
  matchAST (DCECanonicalizerTool.registerMatchers SM)
    (@DCECanonicalizerTool.run SM LO DefaultLO EditTrace trace_ledger) TU
    (DCECanonicalizerTool.init []) = Some T →
  Forall (λ B, getSpellingLoc SM (getSpellingLoc SM (getBeginLoc B))
               = getSpellingLoc SM (getBeginLoc B))
         (canonicalizer_bodies SM TU) →
  Forall (λ R, R = InvalidReplacement
               ∨ FilePath R = getFilename SM (getMainFileID SM))
         (Edits T).
Proof.
  rewrite canonicalizer_walk. intros Hwalk Hsp.
  apply handleStmts_edits in Hwalk as (He & _). simpl in He. rewrite He.
  unfold canonicalizer_bodies in Hsp. clear He.
  induction Hsp as [|B Bs HB _ IH]; simpl; [constructor|].
  apply Forall_app. split; [|done].
  unfold opening_edit, braced.
  destruct (N.eqb_spec (getMainFileID SM)
              (getFileID SM (getSpellingLoc SM (getBeginLoc B)))) as [Hmain|];
    simpl; [|constructor].
  assert (∀ Text, edit_at SM DefaultLO (getBeginLoc B) Text = InvalidReplacement
                  ∨ FilePath (edit_at SM DefaultLO (getBeginLoc B) Text)
                    = getFilename SM (getMainFileID SM)) as Hedit.
  { intros Text. rewrite edit_at_cases. destruct (isValid _); [right | by left].
    unfold Replacement_of_token_range. simpl. rewrite !HB, Hmain. done. }
  destruct (negb (isa_CompoundStmt B) && negb (isa_NullStmt B)).
  - constructor; [apply Hedit | constructor].
  - destruct (isa_NullStmt B); constructor; [apply Hedit | constructor].
Qed.

End CanonicalizerEdits.

(** ** The instrumenter's sites *)

Lemma omap_nil_None {A B : Type} (f : A → option B) (l : list A) :
  omap f l = [] → Forall (λ x, f x = None) l.
Proof.
  unfold omap. induction l as [|x l IH]; simpl; [constructor|].
  destruct (f x) eqn:Hx; [done|]. intros Hl. constructor; [done | by apply IH].
Qed.

Section InstrumenterSites.
Context (SM : SourceManager) (LO DefaultLO : Lexer).

(** A site without a probe leaves the state as it is, whatever the map. *)
Lemma instrument_site_no_probe {L : Type} `{!EditLedger L} (s : Site)
  (T : DCEInstrumenterTool.State L) :
  probe_of_site SM LO s = None →
  instrument_site SM LO DefaultLO s T = Some T.
Proof.
  destruct s as [C|St]; simpl.
  - unfold DCEInstrumenterTool.handleCompoundStmt.
    by destruct (getLBracLoc C).
  - unfold DCEInstrumenterTool.handleStmtWithReturnDescendant.
    by destruct (getMainFileID SM =? _).
Qed.

(** X1 - a unit without probe sites: the instrumenter returns the state
    it started with (no edit, no diagnostic, counter zero, and so no
    edit at the start of the file either) exactly when the unit has no
    probe: no block in body position of a matched node and no branch,
    loop or switch with a [return] below it that ends in the main
    file. *)
Theorem instrumenter_changes_nothing_iff_no_probe {L : Type} `{!EditLedger L}
  (TU : TranslationUnit) (F : L) :
  DCEInstrumenterTool.runOnTranslationUnit SM LO DefaultLO TU F
  = Some (DCEInstrumenterTool.init F)
  ↔ probes SM LO TU = [].
Proof.
  split.
  - rewrite instrumenter_replay.
    destruct (@DCEInstrumenterTool.runOnTranslationUnit SM LO DefaultLO
                EditTrace trace_ledger TU []) as [Tt|] eqn:Hrun; simpl; [|done].
    apply instrument_trace in Hrun as [Hn _].
    unfold replay_instrumenter. destruct (replay F _); simpl; [|done].
    intros [= Hc _]. rewrite Hn in Hc. by apply nil_length_inv.
  - intros Hnone. unfold DCEInstrumenterTool.runOnTranslationUnit.
    rewrite instrumenter_walk. unfold probes in Hnone.
    apply omap_nil_None in Hnone.
    assert (for_each (instrument_site SM LO DefaultLO)
              (flat_map (node_sites SM) (nodes_in_match_order TU))
              (DCEInstrumenterTool.init F)
            = Some (DCEInstrumenterTool.init F)) as ->; [|done].
    induction Hnone as [|s Sites Hs _ IH]; simpl; [done|].
    by rewrite instrument_site_no_probe.
Qed.

(** X9 - where a fall-through probe is due: the callbacks on a node
    include the fall-through handler exactly when the node is a branch,
    loop or switch expanded in the main file that has a [return]
    statement somewhere below it, and then for the node itself; labels,
    blocks and other statements never get one. *)
Theorem fall_through_site_criterion (N St : Stmt) :
  FallThrough St
    ∈ targets_at (DCEInstrumenterTool.registerMatchers SM) instrumenter_target N
  ↔ St = N ∧ in_main SM N = true ∧ is_construct N = true
    ∧ existsb isa_ReturnStmt (expand N) = true.
Proof.
  rewrite instrumenter_targets. unfold node_sites. rewrite elem_of_app.
  fold (return_below N). split.
  - intros [Hin|Hin].
    + by apply list_elem_of_fmap in Hin as [C [[=] _]].
    + destruct (in_main SM N) eqn:Hm, (is_construct N) eqn:Hc,
        (return_below N) eqn:Hr; simpl in Hin;
        try (by apply elem_of_nil in Hin).
      apply list_elem_of_singleton in Hin as [= ->]. done.
  - intros (-> & -> & -> & ->). right. simpl. apply list_elem_of_here.
Qed.

End InstrumenterSites.

(** ** Diagnostics *)

Section Diagnostics.
Context (SM : SourceManager) (LO DefaultLO : Lexer).

Local Abbreviation only_invalid :=
  (Forall (λ m : string, m = invalid_location_message)).

Lemma instrument_site_diagnostics (s : Site)
  (T T' : DCEInstrumenterTool.State EditTrace) :
  only_invalid (errs (DCEInstrumenterTool.Out T)) →
  @instrument_site EditTrace trace_ledger SM LO DefaultLO s T = Some T' →
  only_invalid (errs (DCEInstrumenterTool.Out T')).
Proof.
  intros HT. destruct s as [C|St]; simpl.
  - unfold DCEInstrumenterTool.handleCompoundStmt.
    destruct (getLBracLoc C) as [Lb|]; simpl; [|by intros [= <-]].
    rewrite addReplacementOrDie_trace. simpl. intros [= <-]. simpl.
    apply Forall_app. split; [done|]. rewrite diag_at_cases.
    destruct (isValid _); repeat constructor.
  - unfold DCEInstrumenterTool.handleStmtWithReturnDescendant.
    destruct (negb _); [by intros [= <-]|].
    destruct (getCharacterData SM _) as [src|]; simpl; [|done].
    rewrite addReplacementOrDie_trace. simpl. intros [= <-]. simpl.
    apply Forall_app. split; [done|]. rewrite diag_at_cases.
    destruct (isValid _); repeat constructor.
Qed.

Lemma instrumenter_diagnostics (TU : TranslationUnit)
  (T' : DCEInstrumenterTool.State EditTrace) :
  @DCEInstrumenterTool.runOnTranslationUnit SM LO DefaultLO EditTrace
    trace_ledger TU [] = Some T' →
  only_invalid (errs (DCEInstrumenterTool.Out T')).
Proof.
  unfold DCEInstrumenterTool.runOnTranslationUnit. rewrite instrumenter_walk.
  assert (∀ Sites T T',
            only_invalid (errs (DCEInstrumenterTool.Out T)) →
            for_each (@instrument_site EditTrace trace_ledger SM LO DefaultLO)
              Sites T = Some T' →
            only_invalid (errs (DCEInstrumenterTool.Out T'))) as Hwalk.
  { induction Sites as [|s Sites IH]; intros T T'' HT; simpl.
    - by intros [= <-].
    - destruct (instrument_site _ _ _ s T) as [T1|] eqn:H1; simpl; [|done].
      apply IH. by eapply instrument_site_diagnostics. }
  destruct (for_each _ _ _) as [T|] eqn:HT; simpl; [|done].
  apply Hwalk in HT; [|constructor].
  unfold DCEInstrumenterTool.onEndOfTranslationUnit.
  destruct (_ =? _)%nat; [by intros [= <-]|].
  destruct (getCharacterData SM _) as [src|]; simpl; [|done].
  rewrite addReplacementOrDie_trace. simpl. intros [= <-]. simpl.
  apply Forall_app. split; [done|]. rewrite diag_at_cases.
  destruct (isValid _); repeat constructor.
Qed.

(** X5 - the only diagnostic: whatever the unit, what a run of the
    canonicalizer or of the instrumenter writes to the error stream
    consists of copies of the message for an invalid location; the
    messages for ends in different macro expansions or in different
    files are never printed, since every edit of the passes names one
    location as both ends of its range. *)
Theorem passes_report_only_invalid_locations (TU : TranslationUnit) :
  (∀ T, @DCECanonicalizerTool.runOnTranslationUnit SM LO DefaultLO EditTrace
          trace_ledger TU [] = Some T →
        only_invalid (errs (DCECanonicalizerTool.Out T)))
  ∧ (∀ T, @DCEInstrumenterTool.runOnTranslationUnit SM LO DefaultLO EditTrace
            trace_ledger TU [] = Some T →
          only_invalid (errs (DCEInstrumenterTool.Out T))).
Proof.
  split; intros T HT.
  - by apply (canonicalizer_diagnostics SM LO DefaultLO TU).
  - by apply instrumenter_diagnostics with TU.
Qed.

End Diagnostics.

(** ** Statements below a statement *)

(** Induction over statements that reaches the members of a block. *)
Lemma Stmt_nested_ind (P : Stmt → Prop)
  (HCompound : ∀ L R B, Forall P B → P (CompoundStmt L R B))
  (HNull : ∀ L, P (NullStmt L))
  (HIf : ∀ L T E, P T → from_option P True E → P (IfStmt L T E))
  (HFor : ∀ L B, P B → P (ForStmt L B))
  (HWhile : ∀ L B, P B → P (WhileStmt L B))
  (HDo : ∀ L B R, P B → P (DoStmt L B R))
  (HRange : ∀ L B, P B → P (CXXForRangeStmt L B))
  (HSwitch : ∀ L B, P B → P (SwitchStmt L B))
  (HCase : ∀ L B, P B → P (CaseStmt L B))
  (HDefault : ∀ L B, P B → P (DefaultStmt L B))
  (HReturn : ∀ L E, P (ReturnStmt L E))
  (HOther : ∀ L E, P (OtherStmt L E)) :
  ∀ S, P S.
Proof.
  fix IH 1. intros [L R B|L|L T E|L B|L B|L B R|L B|L B|L B|L B|L E|L E].
  - apply HCompound.
    exact ((fix members (B : list Stmt) : Forall P B :=
              match B with
              | [] => @List.Forall_nil _ P
              | x :: r => @List.Forall_cons _ P x r (IH x) (members r)
              end) B).
  - apply HNull.
  - apply HIf; [apply IH|]. destruct E as [e|]; simpl; [apply IH | exact Logic.I].
  - apply HFor, IH.
  - apply HWhile, IH.
  - apply HDo, IH.
  - apply HRange, IH.
  - apply HSwitch, IH.
  - apply HCase, IH.
  - apply HDefault, IH.
  - apply HReturn.
  - apply HOther.
Qed.

(** What lies below a statement below [N] lies below [N]. *)
Lemma expand_trans (N : Stmt) :
  ∀ M D, M ∈ expand N → D ∈ expand M → D ∈ expand N.
Proof.
  induction N as [L R B IH|L|L T E IHT IHE|L B IH|L B IH|L B R IH|L B IH|L B IH
                 |L B IH|L B IH|L E|L E] using Stmt_nested_ind;
    intros M D HM HD; simpl in *;
    try (by apply elem_of_nil in HM);
    try (apply elem_of_cons in HM as [->|HM];
         apply elem_of_cons; right; [done | by eapply IH]).
  - apply elem_of_app. right. apply list_elem_of_In, in_flat_map.
    apply elem_of_app in HM as [HM|HM].
    + exists M. split; by apply list_elem_of_In.
    + apply list_elem_of_In, in_flat_map in HM as [C [HC HM]].
      exists C. split; [done|]. apply list_elem_of_In.
      rewrite Forall_forall in IH.
      apply (IH C (proj2 (list_elem_of_In _ _) HC) M D);
        [by apply list_elem_of_In | done].
  - destruct E as [e|]; simpl in *.
    + apply elem_of_cons in HM as [->|HM].
      { do 2 (apply elem_of_cons; right). apply elem_of_app. by left. }
      apply elem_of_cons in HM as [->|HM].
      { do 2 (apply elem_of_cons; right). apply elem_of_app. by right. }
      apply elem_of_app in HM as [HM|HM];
        do 2 (apply elem_of_cons; right); apply elem_of_app;
        [left; by eapply IHT | right; by eapply IHE].
    + apply elem_of_cons in HM as [->|HM].
      { apply elem_of_cons; right. apply elem_of_app. by left. }
      rewrite app_nil_r in HM.
      apply elem_of_cons; right. apply elem_of_app. left. by eapply IHT.
Qed.

(** X10 - enclosing statements: the test for a fall-through probe looks
    for a [return] at any depth, so it is inherited outwards: when a
    statement gets a fall-through site, every branch, loop or switch
    expanded in the main file that has this statement somewhere below it
    gets one too. *)
Theorem fall_through_sites_are_inherited (SM : SourceManager) (N M : Stmt) :
  M ∈ expand N →
  FallThrough M
    ∈ targets_at (DCEInstrumenterTool.registerMatchers SM) instrumenter_target M →
  in_main SM N = true →
  is_construct N = true →
  FallThrough N
    ∈ targets_at (DCEInstrumenterTool.registerMatchers SM) instrumenter_target N.
Proof.
  rewrite !instrumenter_targets. unfold node_sites.
  intros HM [Hin|Hin]%elem_of_app Hmain Hc.
  { by apply list_elem_of_fmap in Hin as [C [[=] _]]. }
  apply elem_of_app. right. rewrite Hmain, Hc. simpl.
  assert (return_below N = true) as ->; [|apply list_elem_of_here].
  destruct (in_main SM M && is_construct M && return_below M) eqn:HMs;
    [|by apply elem_of_nil in Hin].
  apply andb_true_iff in HMs as [_ Hr]. unfold return_below in *.
  apply existsb_exists in Hr as [D [HD HDr]]. apply existsb_exists.
  exists D. split; [|done]. apply list_elem_of_In.
  apply (expand_trans N M D HM). by apply list_elem_of_In.
Qed.

(** ** Runs on any replacement map *)

(** X6 - the edits do not depend on the replacement map: a run of the
    canonicalizer or of the instrumenter on a map [F] is the run with the
    recording ledger followed by handing the recorded replacements to [F]
    one by one, in the order they were made.  So the replacements a pass
    asks for, its diagnostics, its debt map and its counter are those of
    the recorded run, and a run aborts exactly when source text cannot be
    read or the map refuses one of those replacements. *)
Theorem runs_replay_recorded_edits {L : Type} `{!EditLedger L}
  (SM : SourceManager) (LO DefaultLO : Lexer) (TU : TranslationUnit) (F : L) :
  DCECanonicalizerTool.runOnTranslationUnit SM LO DefaultLO TU F
  = @DCECanonicalizerTool.runOnTranslationUnit SM LO DefaultLO EditTrace
      trace_ledger TU [] ≫= replay_canonicalizer F
  ∧ DCEInstrumenterTool.runOnTranslationUnit SM LO DefaultLO TU F
    = @DCEInstrumenterTool.runOnTranslationUnit SM LO DefaultLO EditTrace
        trace_ledger TU [] ≫= replay_instrumenter F.
Proof.
  split; [apply canonicalizer_replay | apply instrumenter_replay].
Qed.

(** ** The properties above at concrete inputs *)

Section MoreRuns.
Import Inputs GlobalInputs SiteInputs Buffers.

Lemma globals_are_made_static_witness :
  FileToReplacements
    <$> @GlobalStaticInstrumenterTool.runOnTranslationUnit
          (fileSM functions_toks) (fileLexer functions_toks)
          (fileLexer functions_toks) EditTrace trace_ledger functions_decls []
  = Some [mkReplacement "input.cc" 28 3 "static int"].
Proof.
  rewrite (globals_are_made_static (fileSM functions_toks)
             (fileLexer functions_toks) (fileLexer functions_toks)
             functions_decls).
  - vm_compute. reflexivity.
  - repeat constructor; intros _; vm_compute; eexists; reflexivity.
Defined.

Lemma static_globals_are_left_alone_witness :
  @GlobalStaticInstrumenterTool.runOnTranslationUnit
    (fileSM functions_toks) (fileLexer functions_toks)
    (fileLexer functions_toks) EditTrace trace_ledger
    [FunctionDecl (tok functions_toks 0) true false true;
     FunctionDecl (tok functions_toks 18) true true false] []
  = Some (mkOutput [] []).
Proof.
  apply (@static_globals_are_left_alone (fileSM functions_toks)
           (fileLexer functions_toks) (fileLexer functions_toks)
           EditTrace trace_ledger).
  repeat constructor; right; simpl; auto.
Defined.

Lemma edit_replaces_one_token_witness :
  createReplacement (fileSM shared_toks) (fileLexer shared_toks)
    (tok shared_toks 6) (tok shared_toks 6) "{if"
  = (mkReplacement "input.cc" 14 2 "{if", []).
Proof.
  rewrite (edit_replaces_one_token (fileSM shared_toks) (fileLexer shared_toks)
             (tok shared_toks 6) "{if").
  - vm_compute. reflexivity.
  - vm_compute. reflexivity.
  - vm_compute. reflexivity.
  - vm_compute. reflexivity.
Defined.

Lemma braces_balance_witness :
  ∃ T', @DCECanonicalizerTool.runOnTranslationUnit (fileSM shared_toks)
          (fileLexer shared_toks) (fileLexer shared_toks) EditTrace
          trace_ledger shared_tu [] = Some T'
        ∧ braces_owed (DCECanonicalizerTool.CurlyBracesInsertedAtLocation T')
          = 2%nat.
Proof.
  destruct (@DCECanonicalizerTool.runOnTranslationUnit (fileSM shared_toks)
              (fileLexer shared_toks) (fileLexer shared_toks) EditTrace
              trace_ledger shared_tu []) as [T'|] eqn:Hrun;
    [|vm_compute in Hrun; discriminate].
  exists T'. split; [reflexivity|].
  destruct (braces_balance _ _ _ _ _ Hrun) as [_ Hb].
  rewrite Hb. vm_compute. reflexivity.
Defined.

Lemma opening_edits_are_in_the_main_file_witness :
  ∃ T, matchAST (DCECanonicalizerTool.registerMatchers (fileSM shared_toks))
         (@DCECanonicalizerTool.run (fileSM shared_toks)
            (fileLexer shared_toks) (fileLexer shared_toks) EditTrace
            trace_ledger)
         shared_tu (DCECanonicalizerTool.init []) = Some T
       ∧ Forall (λ R, R = InvalidReplacement ∨ FilePath R = "input.cc")
                (FileToReplacements (DCECanonicalizerTool.Out T)).
Proof.
  destruct (matchAST _ _ shared_tu _) as [T|] eqn:Hwalk;
    [|vm_compute in Hwalk; discriminate].
  exists T. split; [reflexivity|].
  apply (opening_edits_are_in_the_main_file _ _ _ _ _ Hwalk).
  vm_compute. repeat constructor.
Defined.

Lemma passes_report_only_invalid_locations_witness :
  ∃ T, @DCEInstrumenterTool.runOnTranslationUnit (fileSM switch_toks)
         (fileLexer switch_toks) (fileLexer switch_toks) EditTrace
         trace_ledger switch_tu [] = Some T
       ∧ Forall (λ m, m = invalid_location_message)
                (errs (DCEInstrumenterTool.Out T)).
Proof.
  destruct (@DCEInstrumenterTool.runOnTranslationUnit (fileSM switch_toks)
              (fileLexer switch_toks) (fileLexer switch_toks) EditTrace
              trace_ledger switch_tu []) as [T|] eqn:Hrun;
    [|vm_compute in Hrun; discriminate].
  exists T. split; [reflexivity|].
  exact (proj2 (passes_report_only_invalid_locations (fileSM switch_toks)
                  (fileLexer switch_toks) (fileLexer switch_toks) switch_tu)
               T Hrun).
Defined.

Lemma fall_through_sites_are_inherited_witness :
  inner_if ∈ expand outer_while
  ∧ FallThrough outer_while
      ∈ targets_at
          (DCEInstrumenterTool.registerMatchers (fileSM nested_return_toks))
          instrumenter_target outer_while.
Proof.
  assert (inner_if ∈ expand outer_while) as Hbelow.
  { simpl. apply list_elem_of_further, list_elem_of_here. }
  split; [exact Hbelow|].
  apply (fall_through_sites_are_inherited (fileSM nested_return_toks)
           outer_while inner_if Hbelow).
  - vm_compute. apply list_elem_of_further, list_elem_of_here.
  - vm_compute. reflexivity.
  - reflexivity.
Defined.

End MoreRuns.

(** * Call chains *)

(** ** Colours *)

Lemma white_count_insert_gray (Colors : list ccc.default_color_type) (v : nat) :
  Colors !! v = Some ccc.white_color →
  S (white_count (<[v := ccc.gray_color]> Colors)) = white_count Colors.
Proof.
  unfold white_count. revert v.
  induction Colors as [|c Colors IH]; intros [|v]; simpl; try done.
  - by intros [= ->].
  - intros Hv. destruct (ccc.is_white c); simpl; rewrite <- (IH v Hv); done.
Qed.

Lemma white_count_insert_black (Colors : list ccc.default_color_type) (u : nat) :
  Colors !! u ≠ Some ccc.white_color →
  white_count (<[u := ccc.black_color]> Colors) = white_count Colors.
Proof.
  unfold white_count. revert u.
  induction Colors as [|c Colors IH]; intros [|u]; simpl; try done.
  - intros Hc. by destruct c.
  - intros Hu. destruct (ccc.is_white c); simpl; by rewrite (IH u Hu).
Qed.

Lemma discovered_not_white (Colors : list ccc.default_color_type) (v : nat) :
  discovered Colors v → Colors !! v ≠ Some ccc.white_color.
Proof. intros (c & Hc & Hw) Hv. rewrite Hv in Hc. by injection Hc as <-. Qed.

Lemma discovered_insert (Colors : list ccc.default_color_type) (u v : nat)
  (c : ccc.default_color_type) :
  ccc.is_white c = false → discovered Colors v → discovered (<[u := c]> Colors) v.
Proof.
  intros Hc (c' & Hv & Hw). destruct (decide (u = v)) as [->|Hne].
  - exists c. split; [|done]. apply list_lookup_insert_eq.
    by eapply lookup_lt_Some.
  - exists c'. by rewrite list_lookup_insert_ne.
Qed.

(** The effect of examining the out-edges of one vertex. *)
Lemma examine_edges_spec (Targets Q : list nat)
  (Colors : list ccc.default_color_type) :
  ∃ New Colors',
    ccc.examine_edges Targets Q Colors = (Q ++ New, Colors')
    ∧ List.length Colors' = List.length Colors
    ∧ (white_count Colors' + List.length New = white_count Colors)%nat
    ∧ (∀ v, discovered Colors v → Colors' !! v = Colors !! v)
    ∧ (∀ v, v ∈ New → v ∈ Targets ∧ Colors' !! v = Some ccc.gray_color)
    ∧ (∀ v, discovered Colors' v → discovered Colors v ∨ v ∈ New)
    ∧ (∀ v, v ∈ Targets → (v < List.length Colors)%nat → discovered Colors' v).
Proof.
  revert Q Colors. induction Targets as [|t Targets IH]; intros Q Colors; simpl.
  - exists [], Colors. rewrite app_nil_r. split; [done|]. split; [done|].
    split; [simpl; lia|]. split; [done|].
    split; [by intros v ?%elem_of_nil|]. split; [by left|].
    by intros v ?%elem_of_nil.
  - assert (∀ Q0,
              Colors !! t ≠ Some ccc.white_color →
              ∃ New Colors',
                ccc.examine_edges Targets Q0 Colors = (Q0 ++ New, Colors')
                ∧ List.length Colors' = List.length Colors
                ∧ (white_count Colors' + List.length New = white_count Colors)%nat
                ∧ (∀ v, discovered Colors v → Colors' !! v = Colors !! v)
                ∧ (∀ v, v ∈ New →
                        v ∈ t :: Targets ∧ Colors' !! v = Some ccc.gray_color)
                ∧ (∀ v, discovered Colors' v → discovered Colors v ∨ v ∈ New)
                ∧ (∀ v, v ∈ t :: Targets → (v < List.length Colors)%nat →
                        discovered Colors' v)) as Hskip.
    { intros Q0 Hnw.
      destruct (IH Q0 Colors) as (New & C' & He & Hl & Hw & Hk & Hn & Hd & Ht).
      exists New, C'. split; [done|]. split; [done|]. split; [done|].
      split; [done|]. split; [|split; [done|]].
      - intros v Hv. destruct (Hn v Hv). split; [by right | done].
      - intros v [->|Hv]%elem_of_cons Hlt; [|by apply Ht].
        destruct (lookup_lt_is_Some_2 Colors t Hlt) as [c Hc].
        assert (discovered Colors t) as Hdt.
        { exists c. split; [done|]. destruct c; try done. }
        destruct Hdt as (c' & Hc' & Hw').
        exists c'. split; [|done]. rewrite Hk; [done|]. by exists c'. }
    destruct (Colors !! t) as [c|] eqn:Hc; [|by apply Hskip].
    destruct c; try (by apply Hskip).
    destruct (IH (Q ++ [t]) (<[t := ccc.gray_color]> Colors))
      as (New & C' & He & Hl & Hw & Hk & Hn & Hd & Ht).
    assert (discovered (<[t := ccc.gray_color]> Colors) t) as Hgt.
    { exists ccc.gray_color. split; [|done]. apply list_lookup_insert_eq.
      by eapply lookup_lt_Some. }
    exists (t :: New), C'. rewrite He, <- List.app_assoc. split; [done|].
    split; [by rewrite Hl, length_insert|]. split.
    { simpl. rewrite <- (white_count_insert_gray Colors t Hc). lia. }
    split; [|split; [|split]].
    + intros v Hv. rewrite Hk by (by apply discovered_insert).
      apply list_lookup_insert_ne. intros <-.
      by apply discovered_not_white in Hv.
    + intros v [->|Hv]%elem_of_cons.
      * split; [by left|]. rewrite Hk by done. apply list_lookup_insert_eq.
        by eapply lookup_lt_Some.
      * destruct (Hn v Hv). split; [by right | done].
    + intros v Hv. destruct (Hd v Hv) as [(c & Hcv & Hwc)|Hin]; [|right; by right].
      destruct (decide (t = v)) as [->|Hne]; [right; by left|].
      left. exists c. by rewrite list_lookup_insert_ne in Hcv.
    + intros v [->|Hv]%elem_of_cons Hlt.
      * destruct Hgt as (c & Hcv & Hwc). exists c. split; [|done].
        rewrite Hk; [done|]. by exists c.
      * apply Ht; [done|]. by rewrite length_insert.
Qed.

(** ** The search *)

Section Search.
Context (G : ccc.StaticCallGraph) (s : nat).
Hypothesis targets_in_range :
  ∀ u v, edge G u v → (v < ccc.num_vertices G)%nat.

(** One round of the loop keeps the invariant and takes one from the sum
    of the white vertices and the queue's length. *)
Lemma bfs_round (u : nat) (Q : list nat) (Colors : list ccc.default_color_type) :
  bfs_inv G s (u :: Q) Colors →
  ∃ New Colors',
    ccc.examine_edges (ccc.out_edges G u) Q Colors = (Q ++ New, Colors')
    ∧ bfs_inv G s (Q ++ New) (<[u := ccc.black_color]> Colors')
    ∧ (white_count (<[u := ccc.black_color]> Colors') + List.length (Q ++ New)
       = white_count Colors + List.length Q)%nat.
Proof.
  intros [Hlen Hq Hs Hf Hc Hsrc].
  destruct (examine_edges_spec (ccc.out_edges G u) Q Colors)
    as (New & C' & He & Hl & Hw & Hk & Hn & Hd & Ht).
  exists New, C'. split; [done|].
  assert (discovered Colors u) as Hu by (apply Hq; by left).
  assert (∀ v, discovered Colors v → discovered C' v) as Hmono.
  { intros v Hv. destruct (Hv) as (c & Hcv & Hwc). exists c.
    by rewrite Hk. }
  assert (∀ v, discovered C' v → discovered (<[u := ccc.black_color]> C') v)
    as Hblack by (intros v; by apply discovered_insert).
  split; [split|].
  - by rewrite length_insert, Hl.
  - intros x [Hx|Hx]%elem_of_app.
    + apply Hblack, Hmono, Hq. by right.
    + apply Hblack. exists ccc.gray_color. by destruct (Hn x Hx).
  - intros v (c & Hcv & Hwc). destruct (decide (u = v)) as [<-|Hne].
    { by apply Hs. }
    rewrite list_lookup_insert_ne in Hcv by done.
    destruct (Hd v) as [Hv|Hv]; [by exists c | by apply Hs|].
    destruct (Hn v Hv) as [Hout _].
    eapply rtc_r; [by apply Hs | exact Hout].
  - intros v (c & Hcv & Hwc). destruct (decide (u = v)) as [<-|Hne].
    { left. apply list_lookup_insert_eq. apply lookup_lt_Some in Hcv.
      by rewrite length_insert in Hcv. }
    rewrite list_lookup_insert_ne in Hcv |- * by done.
    destruct (Hd v) as [Hv|Hv]; [by exists c | | right; apply elem_of_app; by right].
    rewrite (Hk v Hv). destruct (Hf v Hv) as [Hb|[->|Hin]%elem_of_cons];
      [by left | done | right; apply elem_of_app; by left].
  - intros x v Hx Hxv. apply Hblack. destruct (decide (u = x)) as [<-|Hne].
    + apply Ht; [done|]. rewrite Hlen. by eapply targets_in_range.
    + rewrite list_lookup_insert_ne in Hx by done.
      assert (discovered Colors x) as Hdx.
      { destruct (Hd x) as [Hv|Hv]; [by exists ccc.black_color | done|].
        destruct (Hn x Hv) as [_ Hg]. congruence. }
      apply Hmono, (Hc x v); [|done]. by rewrite <- (Hk x Hdx).
  - by apply Hblack, Hmono.
  - rewrite white_count_insert_black.
    + rewrite length_app. lia.
    + by apply discovered_not_white, Hmono.
Qed.

(** With fuel for every white vertex and every queued one the loop ends
    with an empty queue. *)
Lemma breadth_first_visit_inv (fuel : nat) (Q : list nat)
  (Colors : list ccc.default_color_type) :
  bfs_inv G s Q Colors →
  (white_count Colors + List.length Q ≤ fuel)%nat →
  bfs_inv G s [] (ccc.breadth_first_visit fuel G Q Colors).
Proof.
  revert Q Colors. induction fuel as [|fuel IH]; intros Q Colors Hinv Hfuel.
  - destruct Q; simpl in *; [done | lia].
  - destruct Q as [|u Q]; simpl; [done|].
    destruct (bfs_round u Q Colors Hinv) as (New & C' & -> & Hinv' & Hm).
    apply IH; [done|]. simpl in Hfuel. lia.
Qed.

(** More fuel than that changes nothing. *)
Lemma breadth_first_visit_enough_fuel (fuel fuel' : nat) (Q : list nat)
  (Colors : list ccc.default_color_type) :
  bfs_inv G s Q Colors →
  (white_count Colors + List.length Q ≤ fuel)%nat → (fuel ≤ fuel')%nat →
  ccc.breadth_first_visit fuel' G Q Colors
  = ccc.breadth_first_visit fuel G Q Colors.
Proof.
  revert fuel' Q Colors.
  induction fuel as [|fuel IH]; intros fuel' Q Colors Hinv Hfuel Hle.
  - destruct Q; simpl in *; [by destruct fuel' | lia].
  - destruct fuel' as [|fuel']; [lia|].
    destruct Q as [|u Q]; simpl; [done|].
    destruct (bfs_round u Q Colors Hinv) as (New & C' & -> & Hinv' & Hm).
    apply IH; [done | simpl in Hfuel; lia | lia].
Qed.

Lemma white_count_replicate (n : nat) :
  white_count (replicate n ccc.white_color) = n.
Proof.
  unfold white_count. induction n as [|n IH]; simpl; [done|]. by rewrite IH.
Qed.

Lemma bfs_inv_start :
  (s < ccc.num_vertices G)%nat →
  bfs_inv G s [s]
    (<[s := ccc.gray_color]> (replicate (ccc.num_vertices G) ccc.white_color)).
Proof.
  intros Hs.
  assert (∀ v, discovered (<[s := ccc.gray_color]>
                             (replicate (ccc.num_vertices G) ccc.white_color)) v
               → v = s) as Honly.
  { intros v (c & Hcv & Hwc). destruct (decide (s = v)) as [<-|Hne]; [done|].
    rewrite list_lookup_insert_ne in Hcv by done.
    apply lookup_replicate in Hcv as [-> _]. done. }
  assert (discovered (<[s := ccc.gray_color]>
                        (replicate (ccc.num_vertices G) ccc.white_color)) s)
    as Hsrc.
  { exists ccc.gray_color. split; [|done]. apply list_lookup_insert_eq.
    by rewrite length_replicate. }
  split.
  - by rewrite length_insert, length_replicate.
  - by intros u ->%list_elem_of_singleton.
  - by intros v ->%Honly.
  - intros v ->%Honly. right. by left.
  - intros u v Hu _. destruct (decide (s = u)) as [<-|Hne].
    + rewrite list_lookup_insert_eq in Hu by (by rewrite length_replicate).
      done.
    + rewrite list_lookup_insert_ne in Hu by done.
      by apply lookup_replicate in Hu as [? _].
  - done.
Qed.

(** The search from a vertex of the graph colours black exactly the
    vertices reached from it along edges, the vertex itself included. *)
Lemma breadth_first_search_black (t : nat) :
  (s < ccc.num_vertices G)%nat →
  ccc.breadth_first_search G s !! t = Some ccc.black_color ↔ rtc (edge G) s t.
Proof.
  intros Hs. unfold ccc.breadth_first_search.
  destruct (breadth_first_visit_inv (ccc.num_vertices G) [s] _ (bfs_inv_start Hs))
    as [Hlen Hq Hsound Hf Hc Hsrc].
  { pose proof (white_count_insert_gray
                  (replicate (ccc.num_vertices G) ccc.white_color) s) as Hw.
    rewrite white_count_replicate in Hw. simpl.
    rewrite <- Hw at 2; [lia|]. by apply lookup_replicate. }
  split.
  - intros Ht. apply Hsound. by exists ccc.black_color.
  - intros Hreach.
    assert (∀ v, discovered
                   (ccc.breadth_first_visit (ccc.num_vertices G) G [s]
                      (<[s := ccc.gray_color]>
                         (replicate (ccc.num_vertices G) ccc.white_color))) v →
                 ccc.breadth_first_visit (ccc.num_vertices G) G [s]
                   (<[s := ccc.gray_color]>
                      (replicate (ccc.num_vertices G) ccc.white_color)) !! v
                 = Some ccc.black_color) as Hdone.
    { intros v Hv. destruct (Hf v Hv) as [Hb|Hin]; [done|].
      by apply elem_of_nil in Hin. }
    revert t Hreach. apply rtc_ind_r.
    + by apply Hdone.
    + intros y z _ Hyz IH. by apply Hdone, (Hc y z).
Qed.

End Search.

(** ** The graph of the calls *)

Lemma add_edge_num_vertices (u v : nat) (G : ccc.StaticCallGraph) :
  ccc.num_vertices (ccc.add_edge u v G)
  = Nat.max (ccc.num_vertices G) (Nat.max u v + 1).
Proof.
  unfold ccc.add_edge, ccc.num_vertices. rewrite length_alter.
  destruct (Nat.leb_spec (List.length G) (Nat.max u v)).
  - rewrite length_app, length_replicate. lia.
  - lia.
Qed.

Lemma add_edge_out_edges (u v x : nat) (G : ccc.StaticCallGraph) :
  ccc.out_edges (ccc.add_edge u v G) x
  = ccc.out_edges G x ++ (if decide (x = u) then [v] else []).
Proof.
  unfold ccc.add_edge, ccc.out_edges, ccc.num_vertices.
  set (G' := if (List.length G <=? Nat.max u v)%nat
             then G ++ replicate (Nat.max u v + 1 - List.length G) [] else G).
  assert (default [] (G' !! x) = default [] (G !! x)) as Hsame.
  { subst G'. destruct (Nat.leb_spec (List.length G) (Nat.max u v)); [|done].
    destruct (decide (x < List.length G)%nat).
    - by rewrite lookup_app_l.
    - rewrite lookup_app_r by lia. rewrite (lookup_ge_None_2 G) by lia.
      destruct (replicate _ _ !! _) eqn:Hr; [|done].
      by apply lookup_replicate in Hr as [-> _]. }
  assert (u < List.length G')%nat as Hu.
  { subst G'. destruct (Nat.leb_spec (List.length G) (Nat.max u v)).
    - rewrite length_app, length_replicate. lia.
    - lia. }
  destruct (decide (x = u)) as [->|Hne].
  - rewrite list_lookup_alter_eq.
    destruct (lookup_lt_is_Some_2 G' u Hu) as [out Hout].
    rewrite Hout in Hsame |- *. simpl in *. by rewrite Hsame.
  - rewrite list_lookup_alter_ne by done. by rewrite Hsame, app_nil_r.
Qed.

Lemma edge_add_edge (u v x y : nat) (G : ccc.StaticCallGraph) :
  edge (ccc.add_edge u v G) x y ↔ edge G x y ∨ (x = u ∧ y = v).
Proof.
  unfold edge. rewrite add_edge_out_edges, elem_of_app.
  destruct (decide (x = u)) as [->|Hne].
  - rewrite list_elem_of_singleton. split.
    + intros [H|H]; [by left | right; by split].
    + intros [H|[_ H]]; [by left | by right].
  - rewrite elem_of_nil. split.
    + intros [H|[]]. by left.
    + intros [H|[H _]]; [by left | done].
Qed.

(** The index map after one more name. *)
Lemma add_function_spec (Name : string) (B : ccc.Build) :
  (∀ n i, ccc.FunctionToIdx B !! n = Some i → (i < ccc.idx B)%nat) →
  let B' := ccc.add_function Name B in
  ccc.SCG B' = ccc.SCG B
  ∧ (∀ n i, ccc.FunctionToIdx B !! n = Some i → ccc.FunctionToIdx B' !! n = Some i)
  ∧ (∀ n i, ccc.FunctionToIdx B' !! n = Some i →
            ccc.FunctionToIdx B !! n = Some i ∨ (n = Name ∧ i = ccc.idx B
               ∧ ccc.FunctionToIdx B !! Name = None ∧ ccc.idx B' = S (ccc.idx B)))
  ∧ is_Some (ccc.FunctionToIdx B' !! Name)
  ∧ (ccc.idx B ≤ ccc.idx B')%nat
  ∧ (ccc.idx B' = ccc.idx B
     ∨ ccc.idx B' = S (ccc.idx B) ∧ ccc.FunctionToIdx B' !! Name = Some (ccc.idx B)).
Proof.
  intros Hrange B'. subst B'. unfold ccc.add_function.
  destruct (ccc.FunctionToIdx B !! Name) as [i|] eqn:HN; simpl.
  - split; [done|]. split; [done|]. split; [by left|]. split; [by eexists|].
    split; [lia | by left].
  - split; [done|]. split; [|split; [|split; [|split]]].
    + intros n i Hn. rewrite lookup_insert_ne; [done|]. congruence.
    + intros n i. destruct (decide (Name = n)) as [<-|Hne].
      * rewrite lookup_insert_eq. intros [= <-]. by right.
      * rewrite lookup_insert_ne by done. by left.
    + rewrite lookup_insert_eq. by eexists.
    + lia.
    + right. by rewrite lookup_insert_eq.
Qed.

Lemma is_function_snoc (Done : list ccc.CallPair) (P : ccc.CallPair) (Name : string) :
  is_function (Done ++ [P]) Name
  ↔ is_function Done Name ∨ ccc.Caller P = Name ∨ ccc.Callee P = Name.
Proof.
  unfold is_function. split.
  - intros (P' & [Hin| ->%list_elem_of_singleton]%elem_of_app & HP);
      [left; by exists P' | by right].
  - intros [(P' & Hin & HP)|HP].
    + exists P'. split; [|done]. apply elem_of_app. by left.
    + exists P. split; [|done]. apply elem_of_app. right. by left.
Qed.

Lemma calls_snoc (Done : list ccc.CallPair) (P : ccc.CallPair) (a b : string) :
  calls (Done ++ [P]) a b
  ↔ calls Done a b ∨ (a = ccc.Caller P ∧ b = ccc.Callee P).
Proof.
  unfold calls. rewrite elem_of_app, list_elem_of_singleton.
  destruct P as [c d]; simpl. split.
  - intros [H|H]; [by left | right; by injection H].
  - intros [H|[-> ->]]; [by left | by right].
Qed.

Lemma calls_is_function (Done : list ccc.CallPair) (a b : string) :
  calls Done a b → is_function Done a ∧ is_function Done b.
Proof.
  intros H. split; exists (ccc.mkCallPair a b); (split; [done|]); simpl; auto.
Qed.

Lemma add_function_range (Name : string) (B : ccc.Build) :
  (∀ n i, ccc.FunctionToIdx B !! n = Some i → (i < ccc.idx B)%nat) →
  ∀ n i, ccc.FunctionToIdx (ccc.add_function Name B) !! n = Some i →
         (i < ccc.idx (ccc.add_function Name B))%nat.
Proof.
  intros Hrange n i Hn.
  destruct (add_function_spec Name B Hrange) as (_ & _ & Hinv & _ & Hle & _).
  destruct (Hinv n i Hn) as [Hold|(_ & -> & _ & ->)]; [|lia].
  apply Hrange in Hold. lia.
Qed.

Lemma add_function_inj (Name : string) (B : ccc.Build) :
  (∀ n i, ccc.FunctionToIdx B !! n = Some i → (i < ccc.idx B)%nat) →
  (∀ a b i, ccc.FunctionToIdx B !! a = Some i →
            ccc.FunctionToIdx B !! b = Some i → a = b) →
  ∀ a b i, ccc.FunctionToIdx (ccc.add_function Name B) !! a = Some i →
           ccc.FunctionToIdx (ccc.add_function Name B) !! b = Some i → a = b.
Proof.
  intros Hrange Hinj a b i Ha Hb.
  destruct (add_function_spec Name B Hrange) as (_ & _ & Hinv & _).
  destruct (Hinv a i Ha) as [Ha'|(Hna & Hia & _)],
           (Hinv b i Hb) as [Hb'|(Hnb & Hib & _)].
  - by apply (Hinj a b i).
  - apply Hrange in Ha'. lia.
  - apply Hrange in Hb'. lia.
  - congruence.
Qed.

Lemma add_function_surj (Name : string) (B : ccc.Build) :
  (∀ n i, ccc.FunctionToIdx B !! n = Some i → (i < ccc.idx B)%nat) →
  (∀ i, (i < ccc.idx B)%nat → ∃ n, ccc.FunctionToIdx B !! n = Some i) →
  ∀ i, (i < ccc.idx (ccc.add_function Name B))%nat →
       ∃ n, ccc.FunctionToIdx (ccc.add_function Name B) !! n = Some i.
Proof.
  intros Hrange Hsurj i Hi.
  destruct (add_function_spec Name B Hrange) as (_ & Hsub & _ & _ & _ & Hidx).
  destruct (decide (i < ccc.idx B)%nat) as [Hold|Hnew].
  - destruct (Hsurj i Hold) as [n Hn]. exists n. by apply Hsub.
  - destruct Hidx as [Heq|[Heq HN]]; [lia|].
    exists Name. rewrite HN. f_equal. lia.
Qed.

(** One round of the first loop keeps [build_inv]. *)
Lemma add_call_inv (Done : list ccc.CallPair) (P : ccc.CallPair) (B : ccc.Build) :
  build_inv Done B → build_inv (Done ++ [P]) (ccc.add_call B P).
Proof.
  intros [Hdom Hrange Hinj Hsurj Hlen Hedges].
  pose proof (add_function_surj (ccc.Caller P) B Hrange Hsurj) as Hsurj1.
  pose proof (add_function_spec (ccc.Caller P) B Hrange)
    as (HG1 & Hsub1 & Hinv1 & Hsome1 & Hle1 & Hidx1).
  pose proof (add_function_range (ccc.Caller P) B Hrange) as Hrange1.
  pose proof (add_function_inj (ccc.Caller P) B Hrange Hinj) as Hinj1.
  set (B1 := ccc.add_function (ccc.Caller P) B) in *.
  pose proof (add_function_spec (ccc.Callee P) B1 Hrange1)
    as (HG2 & Hsub2 & Hinv2 & Hsome2 & Hle2 & Hidx2).
  pose proof (add_function_range (ccc.Callee P) B1 Hrange1) as Hrange2.
  pose proof (add_function_inj (ccc.Callee P) B1 Hrange1 Hinj1) as Hinj2.
  pose proof (add_function_surj (ccc.Callee P) B1 Hrange1 Hsurj1) as Hsurj2.
  set (B2 := ccc.add_function (ccc.Callee P) B1) in *.
  destruct Hsome1 as [u0 Hu0]. apply Hsub2 in Hu0.
  destruct Hsome2 as [v0 Hv0].
  assert (ccc.index_of B2 (ccc.Caller P) = u0) as Hu
    by (unfold ccc.index_of; by rewrite Hu0).
  assert (ccc.index_of B2 (ccc.Callee P) = v0) as Hv
    by (unfold ccc.index_of; by rewrite Hv0).
  assert (∀ n, is_Some (ccc.FunctionToIdx B2 !! n)
               ↔ is_Some (ccc.FunctionToIdx B !! n)
                 ∨ ccc.Caller P = n ∨ ccc.Callee P = n) as Hdom2.
  { intros n. split.
    - intros [i Hi]. destruct (Hinv2 n i Hi) as [Hi1|(-> & _)]; [|by auto].
      destruct (Hinv1 n i Hi1) as [Hi0|(-> & _)]; [|by auto].
      left. by exists i.
    - intros [[i Hi]|[<-|<-]]; [|by eexists..].
      exists i. by apply Hsub2, Hsub1. }
  unfold ccc.add_call. fold B1 B2. rewrite Hu, Hv. split; simpl.
  - intros n. rewrite Hdom2, is_function_snoc, Hdom. done.
  - done.
  - done.
  - done.
  - rewrite add_edge_num_vertices, HG2, HG1, Hlen.
    pose proof (Hrange2 _ _ Hu0). pose proof (Hrange2 _ _ Hv0).
    destruct Hidx2 as [Hi2|[Hi2 Hc2]].
    + destruct Hidx1 as [Hi1|[Hi1 Hc1]]; [lia|].
      apply Hsub2 in Hc1. fold B1 in Hi1. rewrite Hu0 in Hc1.
      injection Hc1 as ->. lia.
    + fold B2 in Hc2. rewrite Hv0 in Hc2. injection Hc2 as ->. lia.
  - intros x y. rewrite edge_add_edge, HG2, HG1, Hedges. split.
    + intros [(a & b & Hab & Ha & Hb)|[-> ->]].
      * exists a, b. split; [apply calls_snoc; by left|].
        split; by apply Hsub2, Hsub1.
      * exists (ccc.Caller P), (ccc.Callee P).
        split; [apply calls_snoc; by right | done].
    + intros (a & b & [Hab|[-> ->]]%calls_snoc & Ha & Hb).
      * left. exists a, b. split; [done|].
        destruct (calls_is_function _ _ _ Hab) as [Hfa Hfb].
        apply Hdom in Hfa as [i Hi], Hfb as [j Hj].
        pose proof (Hsub2 _ _ (Hsub1 _ _ Hi)) as Hi2.
        pose proof (Hsub2 _ _ (Hsub1 _ _ Hj)) as Hj2.
        split; congruence.
      * right. split; congruence.
Qed.

Lemma build_inv_build (Calls : list ccc.CallPair) :
  build_inv Calls (ccc.build Calls).
Proof.
  unfold ccc.build. induction Calls as [|P Calls IH] using rev_ind.
  - split; simpl.
    + intros n. rewrite lookup_empty. split; [by intros [? ?]|].
      by intros (P & ?%elem_of_nil & _).
    + intros n i. by rewrite lookup_empty.
    + intros a b i. by rewrite lookup_empty.
    + intros i Hi. lia.
    + done.
    + intros u v. unfold edge, ccc.out_edges. rewrite lookup_nil. simpl. split.
      * by intros ?%elem_of_nil.
      * by intros (a & b & ?%elem_of_nil & _).
  - rewrite foldl_app. simpl. by apply add_call_inv.
Qed.

(** ** Paths of the graph and chains of calls *)

Section Chains.
Context (Calls : list ccc.CallPair).

Local Abbreviation B := (ccc.build Calls).
Local Abbreviation M := (ccc.FunctionToIdx (ccc.build Calls)).

Lemma graph_targets_in_range (u v : nat) :
  edge (ccc.SCG B) u v → (v < ccc.num_vertices (ccc.SCG B))%nat.
Proof.
  destruct (build_inv_build Calls) as [_ Hrange _ _ Hlen Hedges].
  intros (a & b & _ & _ & Hb)%Hedges. rewrite Hlen. by eapply Hrange.
Qed.

Lemma chain_of_path (f t : nat) :
  rtc (edge (ccc.SCG B)) f t →
  ∀ From, M !! From = Some f →
          ∃ To, M !! To = Some t ∧ rtc (calls Calls) From To.
Proof.
  destruct (build_inv_build Calls) as [_ _ Hinj _ _ Hedges].
  induction 1 as [f|f x t Hfx _ IH]; intros From HF.
  - by exists From.
  - apply Hedges in Hfx as (a & b & Hab & Ha & Hb).
    assert (a = From) as -> by (by eapply Hinj).
    destruct (IH b Hb) as (To & HT & Hchain).
    exists To. split; [done|]. by eapply rtc_l.
Qed.

Lemma path_of_chain (From To : string) :
  rtc (calls Calls) From To →
  ∀ f, M !! From = Some f →
       ∃ t, M !! To = Some t ∧ rtc (edge (ccc.SCG B)) f t.
Proof.
  destruct (build_inv_build Calls) as [Hdom _ _ _ _ Hedges].
  induction 1 as [From|From X To HFX _ IH]; intros f HF.
  - by exists f.
  - destruct (calls_is_function _ _ _ HFX) as [_ [x Hx]%Hdom].
    destruct (IH x Hx) as (t & Ht & Hpath).
    exists t. split; [done|]. eapply rtc_l; [|done].
    apply Hedges. by exists From, X.
Qed.

(** X11 - the graph of the calls: after the first loop the functions
    that call or are called, and only they, are numbered, without gaps
    or repeats (no two names share a number, the numbers are exactly
    those below the counter, and the graph has as many vertices as the
    counter says), and the graph has an edge from [u] to [v] exactly
    when the list holds a call whose caller is numbered [u] and whose
    callee is numbered [v]. *)
Theorem call_graph_represents_calls :
  (∀ Name, is_Some (M !! Name) ↔ is_function Calls Name)
  ∧ (∀ a b i, M !! a = Some i → M !! b = Some i → a = b)
  ∧ (∀ i, (i < ccc.idx B)%nat ↔ ∃ Name, M !! Name = Some i)
  ∧ ccc.num_vertices (ccc.SCG B) = ccc.idx B
  ∧ (∀ u v, v ∈ ccc.out_edges (ccc.SCG B) u
            ↔ ∃ a b, ccc.mkCallPair a b ∈ Calls
                     ∧ M !! a = Some u ∧ M !! b = Some v).
Proof.
  destruct (build_inv_build Calls) as [Hdom Hrange Hinj Hsurj Hlen Hedges].
  split; [done|]. split; [done|]. split; [|split; [done|]].
  - intros i. split; [apply Hsurj|]. intros [Name HN]. by eapply Hrange.
  - intros u v. apply Hedges.
Qed.

(** X12 - call chains: [callChainExists] answers true exactly when
    [From] is a function of the call list and [To] is reached from it by
    a chain of zero or more calls of the list; in particular a function
    of the list has a chain to itself. *)
Theorem call_chain_exists_iff (From To : string) :
  (ccc.callChainExists Calls From To).1 = true
  ↔ is_function Calls From ∧ rtc (calls Calls) From To.
Proof.
  destruct (build_inv_build Calls) as [Hdom Hrange _ _ Hlen _].
  unfold ccc.callChainExists.
  destruct (M !! From) as [f|] eqn:HF; simpl.
  - assert (is_function Calls From) as HfF by (apply Hdom; by eexists).
    assert (f < ccc.num_vertices (ccc.SCG B))%nat as Hf.
    { rewrite Hlen. by eapply Hrange. }
    destruct (M !! To) as [t|] eqn:HT; simpl.
    + pose proof (breadth_first_search_black (ccc.SCG B) f
                    graph_targets_in_range t Hf) as Hbfs.
      split.
      * intros Hblack. split; [done|].
        destruct (ccc.breadth_first_search (ccc.SCG B) f !! t) as [c|];
          [|done].
        destruct c; try done.
        destruct (chain_of_path f t (proj1 Hbfs eq_refl) From HF)
          as (To' & HT' & Hchain).
        destruct (build_inv_build Calls) as [_ _ Hinj _ _ _].
        by rewrite (Hinj To To' t HT HT').
      * intros [_ Hchain].
        destruct (path_of_chain From To Hchain f HF) as (t' & Ht' & Hpath).
        rewrite HT in Ht'. injection Ht' as <-.
        by rewrite (proj2 Hbfs Hpath).
    + split; [done|]. intros [_ Hchain].
      destruct (path_of_chain From To Hchain f HF) as (t' & Ht' & _).
      congruence.
  - split; [done|]. intros [[x Hx]%Hdom _]. congruence.
Qed.

(** X13 - unknown functions: when [From] neither calls nor is called in
    the list the answer is false and the diagnostic names [From]; when
    [From] is known and [To] is not, the answer is false and the
    diagnostic names [To]; when both are known nothing is printed. *)
Theorem call_chain_unknown_function (From To : string) :
  (¬ is_function Calls From →
   ccc.callChainExists Calls From To
   = (false, [From +:+ " is not part of the call graph" +:+ nl]))
  ∧ (is_function Calls From → ¬ is_function Calls To →
     ccc.callChainExists Calls From To
     = (false, [To +:+ " is not part of the call graph" +:+ nl]))
  ∧ (is_function Calls From → is_function Calls To →
     (ccc.callChainExists Calls From To).2 = []).
Proof.
  destruct (build_inv_build Calls) as [Hdom _ _ _ _ _].
  unfold ccc.callChainExists. split; [|split].
  - intros HF. destruct (M !! From) as [f|] eqn:Hf; [|done].
    destruct HF. apply Hdom. by eexists.
  - intros [f ->]%Hdom HT. destruct (M !! To) as [t|] eqn:Ht; [|done].
    destruct HT. apply Hdom. by eexists.
  - by intros [f ->]%Hdom [t ->]%Hdom.
Qed.

End Chains.

(** The answers for the calls of [example_calls]: [main] reaches [h]
    through [f]; [g] calls nothing; [k] reaches [h] through [main] and [f];
    [f] does not reach [main]; every known function reaches itself. *)
Example call_chains_of_the_example :
  map (λ p, ccc.callChainExists example_calls p.1 p.2)
      [("main", "h"); ("g", "f"); ("k", "h"); ("f", "main"); ("g", "g")]
  = [(true, []); (false, []); (true, []); (false, []); (true, [])].
Proof. vm_compute. reflexivity. Qed.

Lemma call_chain_unknown_function_witness :
  ¬ is_function example_calls "x"
  ∧ ccc.callChainExists example_calls "x" "f"
    = (false, ["x is not part of the call graph" +:+ nl]).
Proof.
  assert (¬ is_function example_calls "x") as Hx.
  { intros (P & HP & Hname). unfold example_calls in HP.
    repeat (apply elem_of_cons in HP as [->|HP];
            [by destruct Hname|]).
    by apply elem_of_nil in HP. }
  split; [exact Hx|].
  exact (proj1 (call_chain_unknown_function example_calls "x" "f") Hx).
Defined.

(** ** The instrumenter on a canonical unit *)

Section Coverage.
Context (SM : SourceManager) (LO DefaultLO : Lexer).

(** X14 - every body of a canonical unit is probed: when the unit is in
    canonical form, each body position the matchers select (a branch of
    an [if], a loop body, the statement under a label with no label
    below it, of a node expanded in the main file) is a block, and the
    run emits an entry probe for it: some edit [i] of the run rewrites
    the block's opening brace to the brace, a line break and the call
    of marker [i]. *)
Theorem canonical_bodies_are_probed (TU : TranslationUnit)
  (T' : DCEInstrumenterTool.State EditTrace) (N B : Stmt) :
  @DCEInstrumenterTool.runOnTranslationUnit SM LO DefaultLO EditTrace
    trace_ledger TU [] = Some T' →
  canonical TU = true →
  N ∈ nodes_in_match_order TU →
  B ∈ bodies SM N →
  ∃ (i : nat) (LBracLoc : SourceLocation),
    getLBracLoc B = Some LBracLoc
    ∧ FileToReplacements (DCEInstrumenterTool.Out T') !! i
      = Some (edit_at SM DefaultLO LBracLoc ("{" +:+ nl +:+ marker_call i)).
Proof.
  intros Hrun Hcan HN HB.
  assert (isa_CompoundStmt B = true) as HC.
  { unfold canonical in Hcan. rewrite forallb_forall in Hcan.
    specialize (Hcan N (proj1 (list_elem_of_In _ _) HN)).
    rewrite forallb_forall in Hcan. apply Hcan, list_elem_of_In.
    by apply (bodies_body_positions SM). }
  destruct B as [LBracLoc R Body| | | | | | | | | | |]; try done.
  assert ((LBracLoc, "{") ∈ probes SM LO TU) as Hprobe.
  { unfold probes. apply list_elem_of_omap.
    exists (Entry (CompoundStmt LBracLoc R Body)). split; [|done].
    apply list_elem_of_In, in_flat_map. exists N.
    split; [by apply list_elem_of_In|]. apply list_elem_of_In.
    unfold node_sites. apply elem_of_app. left.
    apply list_elem_of_fmap. eexists. split; [done|].
    apply list_elem_of_In, filter_In. split; [by apply list_elem_of_In | done]. }
  apply list_elem_of_lookup in Hprobe as [i Hi].
  exists i, LBracLoc. split; [done|].
  apply instrument_trace in Hrun as [_ Hf]. simpl in Hf. rewrite Hf.
  rewrite lookup_app_l.
  - by rewrite (probe_edits_lookup SM DefaultLO 0 i _ LBracLoc "{" Hi).
  - rewrite probe_edits_length. by eapply lookup_lt_Some.
Qed.

End Coverage.

Lemma canonical_bodies_are_probed_witness :
  ∃ T' i LBracLoc,
    @DCEInstrumenterTool.runOnTranslationUnit
      (Buffers.fileSM Inputs.switch_toks) (Buffers.fileLexer Inputs.switch_toks)
      (Buffers.fileLexer Inputs.switch_toks) EditTrace trace_ledger
      Inputs.switch_tu [] = Some T'
    ∧ FileToReplacements (DCEInstrumenterTool.Out T') !! i
      = Some (edit_at (Buffers.fileSM Inputs.switch_toks)
                (Buffers.fileLexer Inputs.switch_toks) LBracLoc
                ("{" +:+ nl +:+ marker_call i)).
Proof.
  destruct (@DCEInstrumenterTool.runOnTranslationUnit
              (Buffers.fileSM Inputs.switch_toks)
              (Buffers.fileLexer Inputs.switch_toks)
              (Buffers.fileLexer Inputs.switch_toks) EditTrace trace_ledger
              Inputs.switch_tu []) as [T'|] eqn:Hrun;
    [|vm_compute in Hrun; discriminate].
  pose (t := Buffers.tok Inputs.switch_toks).
  pose (B := CompoundStmt (t 30%nat) (t 34%nat)
               [ReturnStmt (t 31%nat) (t 32%nat)]).
  assert (CaseStmt (t 27%nat) B ∈ nodes_in_match_order Inputs.switch_tu) as HN.
  { apply list_elem_of_In. vm_compute.
    repeat (first [left; reflexivity | right]). }
  assert (B ∈ bodies (Buffers.fileSM Inputs.switch_toks) (CaseStmt (t 27%nat) B))
    as HB.
  { vm_compute. apply list_elem_of_here. }
  destruct (canonical_bodies_are_probed _ _ _ Inputs.switch_tu T' _ B Hrun
              eq_refl HN HB) as (i & L & _ & Hedit).
  exists T', i, L. split; [reflexivity | exact Hedit].
Defined.

(** ** When the canonicalizer has nothing to do *)

Section CanonicalizerNoop.
Context (SM : SourceManager) (LO DefaultLO : Lexer).

Lemma flat_map_nil_inv {A B : Type} (f : A → list B) (l : list A) :
  flat_map f l = [] → Forall (λ x, f x = []) l.
Proof.
  induction l as [|x l IH]; simpl; [constructor|].
  intros [Hx Hl]%app_eq_nil. constructor; [done | by apply IH].
Qed.

(** X16 - when the canonicalizer changes nothing: a run that records
    its edits ends in the state it started with (no edit, no brace owed,
    no diagnostic) exactly when every statement handed to [handleStmt]
    is a block already or has its first token spelled outside the main
    file; a single body that is neither makes the run emit an edit. *)
Theorem canonicalizer_changes_nothing_iff_blocks (TU : TranslationUnit) :
  @DCECanonicalizerTool.runOnTranslationUnit SM LO DefaultLO EditTrace
    trace_ledger TU [] = Some (DCECanonicalizerTool.init [])
  ↔ Forall (λ B, isa_CompoundStmt B = true
                 ∨ (getMainFileID SM
                    =? getFileID SM (getSpellingLoc SM (getBeginLoc B))) = false)
           (canonicalizer_bodies SM TU).
Proof.
  split.
  - unfold DCECanonicalizerTool.runOnTranslationUnit.
    rewrite canonicalizer_walk.
    destruct (for_each _ _ _) as [T|] eqn:Hwalk; simpl; [|done].
    apply handleStmts_edits in Hwalk as (He & _). simpl in He.
    unfold DCECanonicalizerTool.onEndOfTranslationUnit.
    destruct (for_each _ _ (DCECanonicalizerTool.Out T)) as [O|] eqn:Hflush;
      simpl; [|done].
    apply flush_edits in Hflush as [Hf _]. intros [= HC HO].
    rewrite HO, He in Hf. simpl in Hf. symmetry in Hf.
    apply app_eq_nil in Hf as [Hedits _].
    apply flat_map_nil_inv in Hedits.
    eapply Forall_impl; [exact Hedits|]. intros B HB. simpl in HB.
    unfold opening_edit, braced in HB.
    destruct (getMainFileID SM =? _); [|by right].
    destruct (isa_CompoundStmt B); [by left|].
    by destruct (isa_NullStmt B).
  - intros Hall. unfold DCECanonicalizerTool.runOnTranslationUnit.
    rewrite canonicalizer_walk. unfold canonicalizer_bodies in Hall.
    assert (for_each (@DCECanonicalizerTool.handleStmt SM LO DefaultLO
                        EditTrace trace_ledger)
              (flat_map (bodies SM) (nodes_in_match_order TU))
              (DCECanonicalizerTool.init [])
            = Some (DCECanonicalizerTool.init [])) as ->; [|done].
    induction Hall as [|B Bs HB _ IH]; simpl; [done|].
    assert (@DCECanonicalizerTool.handleStmt SM LO DefaultLO EditTrace
              trace_ledger B (DCECanonicalizerTool.init [])
            = Some (DCECanonicalizerTool.init [])) as ->; [|done].
    unfold DCECanonicalizerTool.handleStmt.
    destruct HB as [-> | ->]; [by destruct (negb _) | done].
Qed.

End CanonicalizerNoop.

(** * The control-flow extractor *)

Lemma prefix_app (Other Rest : string) : String.prefix Other (Other +:+ Rest) = true.
Proof.
  induction Other as [|a Other IH]; simpl; [by destruct Rest|].
  destruct (ascii_dec a a); [done | congruence].
Qed.

Lemma contains_unfold (Name Other : string) :
  dce.contains Name Other
  = String.prefix Other Name
    || match Name with
       | EmptyString => false
       | String _ Rest => dce.contains Rest Other
       end.
Proof. by destruct Name. Qed.

(** A name that has [Other] somewhere inside passes [contains]. *)
Lemma contains_infix (Before Other After : string) :
  dce.contains (Before +:+ Other +:+ After) Other = true.
Proof.
  induction Before as [|a Before IH].
  - change ("" +:+ Other +:+ After) with (Other +:+ After).
    by rewrite contains_unfold, prefix_app.
  - by rewrite string_app_cons, contains_unfold, IH, orb_true_r.
Qed.

(** The texts the instrumenter writes name the function [marker_name]. *)
Lemma marker_texts_name_the_marker (n : nat) :
  marker_call n = marker_name n +:+ "();"
  ∧ marker_declaration n = "void " +:+ marker_name n +:+ "(void);" +:+ nl.
Proof.
  unfold marker_call, marker_declaration, marker_name.
  by rewrite !string_app_assoc.
Qed.

(** ** Loops that only add to their result *)

Lemma for_each_reaches {A S : Type} (f : A → S → option S) (le : S → S → Prop)
  (l : list A) (x : A) (s s' : S) :
  (∀ t, le t t) → (∀ t1 t2 t3, le t1 t2 → le t2 t3 → le t1 t3) →
  (∀ y t t', f y t = Some t' → le t t') →
  x ∈ l → for_each f l s = Some s' →
  ∃ s1 s2, le s s1 ∧ f x s1 = Some s2 ∧ le s2 s'.
Proof.
  intros Hrefl Htrans Hmono Hx. revert s.
  assert (∀ l s s', for_each f l s = Some s' → le s s') as Hall.
  { clear -Hmono Hrefl Htrans. induction l as [|y l IH]; intros s s'; simpl.
    - intros [= ->]. apply Hrefl.
    - destruct (f y s) as [t|] eqn:Hy; simpl; [|done]. intros Hl.
      eapply Htrans; [by eapply Hmono | by apply IH]. }
  induction l as [|y l IH]; intros s; simpl; [by apply elem_of_nil in Hx|].
  destruct (f y s) as [t|] eqn:Hy; simpl; [|done]. intros Hl.
  apply elem_of_cons in Hx as [->|Hx].
  - exists s, t. split; [apply Hrefl|]. split; [done|]. by eapply Hall.
  - destruct (IH Hx t Hl) as (s1 & s2 & H1 & H2 & H3).
    exists s1, s2. split; [|done]. eapply Htrans; [by eapply Hmono | done].
Qed.

Lemma for_each_invariant {A S : Type} (f : A → S → option S) (P : S → Prop)
  (l : list A) (s s' : S) :
  (∀ x t t', x ∈ l → P t → f x t = Some t' → P t') →
  P s → for_each f l s = Some s' → P s'.
Proof.
  revert s. induction l as [|y l IH]; intros s Hstep Hs; simpl.
  - by intros [= <-].
  - destruct (f y s) as [t|] eqn:Hy; simpl; [|done].
    apply IH.
    + intros x t1 t2 Hx. apply Hstep. by right.
    + eapply Hstep; [by left | done | done].
Qed.

Lemma for_each_returns {A S : Type} (f : A → S → option S) (l : list A) (s : S) :
  (∀ x t, x ∈ l → is_Some (f x t)) → is_Some (for_each f l s).
Proof.
  revert s. induction l as [|y l IH]; intros s Hf; simpl; [by eexists|].
  destruct (Hf y s) as [t ->]; [by left|]. simpl.
  apply IH. intros x t' Hx. apply Hf. by right.
Qed.

Lemma result_le_refl (R : dce.Result) : result_le R R.
Proof. by split. Qed.

Lemma result_le_trans (R1 R2 R3 : dce.Result) :
  result_le R1 R2 → result_le R2 R3 → result_le R1 R3.
Proof. intros [He1 Hm1] [He2 Hm2]. split; auto. Qed.

Section Extractor.
Context (FindFunctionBackedges : dce.Function → list (N * N)).

Local Abbreviation visit_instruction :=
  (dce.visit_instruction).
Local Abbreviation run := (dce.run FindFunctionBackedges).

Lemma add_successors_spec (BackEdges : list (N * N)) (BB : N)
  (Successors : list N) (R : dce.Result) :
  (dce.add_successors BackEdges BB Successors R).2 = R.2
  ∧ ∀ e, e ∈ (dce.add_successors BackEdges BB Successors R).1
         ↔ e ∈ R.1
           ∨ (dce.From e = BB ∧ dce.To e ∈ Successors
              ∧ dce.is_back_edge BackEdges BB (dce.To e) = false).
Proof.
  unfold dce.add_successors. revert R.
  induction Successors as [|Succ Successors IH]; intros R; simpl.
  - split; [done|]. intros e. split; [by left|].
    intros [He|(_ & ?%elem_of_nil & _)]; done.
  - destruct (dce.is_back_edge BackEdges BB Succ) eqn:Hback.
    + destruct (IH R) as [Hm He]. split; [done|]. intros e. rewrite He.
      split; (intros [Hin|(HF & HT & HB)]; [by left|right]).
      * split; [done|]. split; [by right | done].
      * split; [done|]. split; [|done].
        apply elem_of_cons in HT as [HT|HT]; [congruence | done].
    + destruct (IH (R.1 ++ [dce.mkFIPCFGEdge BB Succ], R.2)) as [Hm He].
      split; [done|]. intros e. rewrite He. simpl.
      rewrite elem_of_app, list_elem_of_singleton. split.
      * intros [[Hin| ->]|(HF & HT & HB)]; [by left | right | right].
        -- split; [done|]. split; [by left | done].
        -- split; [done|]. split; [by right | done].
      * intros [Hin|(HF & [HT|HT]%elem_of_cons & HB)].
        -- left. by left.
        -- left. right. destruct e as [f t]. simpl in *. by subst.
        -- right. done.
Qed.

(** One instruction only adds to the result. *)
Lemma visit_instruction_mono (BackEdges : list (N * N)) (BB : N)
  (I : dce.Instruction) (R R' : dce.Result) :
  visit_instruction BackEdges BB I R = Some R' → result_le R R'.
Proof.
  destruct I as [[Callee|]|Successors|Successors|]; simpl; try done.
  - destruct (dce.Callee_isDeclaration Callee).
    + destruct (dce.contains _ _); intros [= <-]; [|apply result_le_refl].
      split; simpl; [done|]. intros m Hm. apply elem_of_app. by left.
    + intros [= <-]. split; simpl; [|done]. intros e He.
      apply elem_of_app. by left.
  - intros [= <-].
    destruct (add_successors_spec BackEdges BB Successors R) as [Hm He].
    split; [intros e Hin; apply He; by left | by rewrite Hm].
  - intros [= <-].
    destruct (add_successors_spec BackEdges BB Successors R) as [Hm He].
    split; [intros e Hin; apply He; by left | by rewrite Hm].
  - intros [= <-]. apply result_le_refl.
Qed.

Lemma for_each_mono {A : Type} (f : A → dce.Result → option dce.Result)
  (l : list A) (R R' : dce.Result) :
  (∀ y t t', f y t = Some t' → result_le t t') →
  for_each f l R = Some R' → result_le R R'.
Proof.
  intros Hmono. revert R. induction l as [|y l IH]; intros R; simpl.
  - intros [= <-]. apply result_le_refl.
  - destruct (f y R) as [t|] eqn:Hy; simpl; [|done]. intros Hl.
    eapply result_le_trans; [by eapply Hmono | by apply IH].
Qed.

Lemma visit_block_mono (BackEdges : list (N * N)) (Block : dce.BasicBlock)
  (R R' : dce.Result) :
  dce.visit_block BackEdges Block R = Some R' → result_le R R'.
Proof.
  apply for_each_mono. intros I t t'. apply visit_instruction_mono.
Qed.

Lemma visit_function_mono (F : dce.Function) (R R' : dce.Result) :
  dce.visit_function FindFunctionBackedges F R = Some R' → result_le R R'.
Proof.
  unfold dce.visit_function. destruct (dce.isDeclaration F).
  - intros [= <-]. apply result_le_refl.
  - apply for_each_mono. intros B t t'. apply visit_block_mono.
Qed.


(** When the walk returns, each instruction of each block of each
    defined function has been visited, and what its visit added is in
    the result. *)
Lemma visit_reaches (M : list dce.Function) (R : dce.Result)
  (F : dce.Function) (Block : dce.BasicBlock) (I : dce.Instruction) :
  run M = Some R →
  F ∈ M → dce.isDeclaration F = false →
  Block ∈ dce.Blocks F → I ∈ dce.Instructions Block →
  ∃ R1 R2,
    visit_instruction (dce.getBackEdges FindFunctionBackedges F)
      (dce.Ref Block) I R1 = Some R2
    ∧ result_le R2 R.
Proof.
  intros Hrun HF Hdecl HB HI.
  destruct (for_each_reaches _ result_le M F _ _ result_le_refl result_le_trans
              visit_function_mono HF Hrun) as (R1 & R2 & _ & HvF & HR2).
  unfold dce.visit_function in HvF. rewrite Hdecl in HvF.
  destruct (for_each_reaches _ result_le _ Block _ _ result_le_refl
              result_le_trans
              (visit_block_mono (dce.getBackEdges FindFunctionBackedges F))
              HB HvF) as (R3 & R4 & _ & HvB & HR4).
  destruct (for_each_reaches _ result_le _ _ _ _ result_le_refl result_le_trans
              (visit_instruction_mono
                 (dce.getBackEdges FindFunctionBackedges F) (dce.Ref Block))
              HI HvB) as (R5 & R6 & _ & HvI & HR6).
  exists R5, R6. split; [done|].
  eapply result_le_trans; [exact HR6|].
  eapply result_le_trans; [exact HR4 | exact HR2].
Qed.

Lemma extracted_items_origin (M : list dce.Function) (R : dce.Result) :
  run M = Some R →
  (∀ e, e ∈ R.1 → edge_origin FindFunctionBackedges M e)
  ∧ (∀ m, m ∈ R.2 → marker_origin M m).
Proof.
  unfold dce.run.
  set (P := λ R : dce.Result,
              (∀ e, e ∈ R.1 → edge_origin FindFunctionBackedges M e)
              ∧ (∀ m, m ∈ R.2 → marker_origin M m)).
  apply (for_each_invariant _ P); [|by split; intros ? ?%elem_of_nil].
  intros F R1 R2 HF HR1. unfold dce.visit_function.
  destruct (dce.isDeclaration F) eqn:Hdecl; [by intros [= <-]|].
  apply (for_each_invariant _ P); [|done].
  intros Block R3 R4 HB HR3. unfold dce.visit_block.
  apply (for_each_invariant _ P); [|done].
  intros I R5 R6 HI [He Hm]. unfold P.
  destruct I as [[Callee|]|Successors|Successors|]; simpl; try done.
  - destruct (dce.Callee_isDeclaration Callee) eqn:Hcd.
    + destruct (dce.contains _ _) eqn:Hc; intros [= <-]; [|done].
      split; simpl; [done|]. intros m [Hin| ->%list_elem_of_singleton]%elem_of_app;
        [by apply Hm|].
      by exists F, Block, Callee.
    + intros [= <-]. split; simpl; [|done].
      intros e [Hin| ->%list_elem_of_singleton]%elem_of_app; [by apply He|].
      exists F, Block. do 4 (split; [done|]). left. by exists Callee.
  - intros [= <-].
    destruct (add_successors_spec (dce.getBackEdges FindFunctionBackedges F)
                (dce.Ref Block) Successors R5) as [Hm' He'].
    split; [|by rewrite Hm'].
    intros e [Hin|(HFr & HT & Hback)]%He'; [by apply He|].
    exists F, Block. do 3 (split; [done|]). split; [done|]. right.
    exists Successors. split; [by left|]. split; [done|]. by rewrite HFr.
  - intros [= <-].
    destruct (add_successors_spec (dce.getBackEdges FindFunctionBackedges F)
                (dce.Ref Block) Successors R5) as [Hm' He'].
    split; [|by rewrite Hm'].
    intros e [Hin|(HFr & HT & Hback)]%He'; [by apply He|].
    exists F, Block. do 3 (split; [done|]). split; [done|]. right.
    exists Successors. split; [by right|]. split; [done|]. by rewrite HFr.
  - by intros [= <-].
Qed.

(** The walk returns when no call of a defined function's block is
    indirect. *)
Lemma walk_returns (M : list dce.Function) :
  (∀ F Block, F ∈ M → dce.isDeclaration F = false →
              Block ∈ dce.Blocks F →
              dce.CallBase None ∉ dce.Instructions Block) →
  is_Some (run M).
Proof.
  intros Hdirect. unfold dce.run. apply for_each_returns.
  intros F R1 HF. unfold dce.visit_function.
  destruct (dce.isDeclaration F) eqn:Hdecl; [by eexists|].
  apply for_each_returns. intros Block R2 HB. unfold dce.visit_block.
  apply for_each_returns. intros I R3 HI.
  destruct I as [[Callee|]|Successors|Successors|]; simpl; try (by eexists).
  - destruct (dce.Callee_isDeclaration Callee); [|by eexists].
    destruct (dce.contains _ _); by eexists.
  - by destruct (Hdirect F Block HF Hdecl HB).
Qed.

(** X17 - what the walk extracts: when no call in a block of a defined
    function is indirect, the walk returns, and the edges of its result
    are exactly the calls of defined functions made in the blocks of
    defined functions, from the block to the callee's entry block, and
    the successors of the branches and switches of those blocks that are
    not back edges of their function; the marker blocks are exactly the
    blocks of defined functions that call a declared function whose name
    contains [DCEMarker], each with the name of the callee.  So a call
    of a declared function never yields an edge, a back edge is never
    extracted from a branch or switch, and the declarations of the
    module contribute nothing. *)
Theorem extracted_items_are_exact (M : list dce.Function) :
  (∀ F Block, F ∈ M → dce.isDeclaration F = false →
              Block ∈ dce.Blocks F →
              dce.CallBase None ∉ dce.Instructions Block) →
  ∃ R, run M = Some R
       ∧ (∀ e, e ∈ R.1 ↔ edge_origin FindFunctionBackedges M e)
       ∧ (∀ m, m ∈ R.2 ↔ marker_origin M m).
Proof.
  intros Hdirect. destruct (walk_returns M Hdirect) as [R Hrun].
  exists R. split; [done|].
  destruct (extracted_items_origin M R Hrun) as [Hedges Hmarkers].
  split.
  - intros e. split; [apply Hedges|].
    intros (F & Block & HF & Hdecl & HB & HFr & Horigin).
    destruct Horigin as [(Callee & HI & Hcd & HT)
                        |(Successors & HI & HT & Hback)].
    + destruct (visit_reaches M R F Block _ Hrun HF Hdecl HB HI)
        as (R1 & R2 & Hv & [Hle _]).
      simpl in Hv. rewrite Hcd in Hv. injection Hv as <-.
      apply Hle. simpl. apply elem_of_app. right.
      destruct e as [f t]. simpl in *. subst. apply list_elem_of_here.
    + assert (∃ I, I ∈ dce.Instructions Block
                   ∧ ∀ R1, visit_instruction
                             (dce.getBackEdges FindFunctionBackedges F)
                             (dce.Ref Block) I R1
                           = Some (dce.add_successors
                                     (dce.getBackEdges FindFunctionBackedges F)
                                     (dce.Ref Block) Successors R1))
        as (I & HII & HvI).
      { destruct HI as [HI|HI]; eexists; (split; [exact HI|]); done. }
      destruct (visit_reaches M R F Block I Hrun HF Hdecl HB HII)
        as (R1 & R2 & Hv & [Hle _]).
      rewrite HvI in Hv. injection Hv as <-. apply Hle.
      apply add_successors_spec. right. rewrite <- HFr. done.
  - intros m. split; [apply Hmarkers|].
    intros (F & Block & Callee & HF & Hdecl & HB & HBB & HI & Hcd & Hname & Hc).
    destruct (visit_reaches M R F Block _ Hrun HF Hdecl HB HI)
      as (R1 & R2 & Hv & [_ Hle]).
    simpl in Hv. rewrite Hcd, Hc in Hv. injection Hv as <-.
    apply Hle. simpl. apply elem_of_app. right.
    destruct m as [b d]. simpl in *. subst. apply list_elem_of_here.
Qed.

(** X18 - the instrumenter's markers are found: when the walk returns,
    a call, in a block of a defined function, of a declared function
    whose name has the name of a marker of the instrumenter inside (the
    name itself, or a mangled form of it) is recorded as a marker block
    of that block under the callee's name. *)
Theorem marker_calls_are_recorded (M : list dce.Function) (R : dce.Result)
  (F : dce.Function) (Block : dce.BasicBlock) (Callee : dce.CalledFunction)
  (n : nat) (Before After : string) :
  run M = Some R →
  F ∈ M → dce.isDeclaration F = false →
  Block ∈ dce.Blocks F →
  dce.CallBase (Some Callee) ∈ dce.Instructions Block →
  dce.Callee_isDeclaration Callee = true →
  dce.Callee_getName Callee = Before +:+ marker_name n +:+ After →
  dce.mkDCEBB (dce.Ref Block) (dce.Callee_getName Callee) ∈ R.2.
Proof.
  intros Hrun HF Hdecl HB HI Hcd Hname.
  assert (dce.contains (dce.Callee_getName Callee) "DCEMarker" = true) as Hc.
  { rewrite Hname. unfold marker_name.
    rewrite !string_app_assoc. apply contains_infix. }
  destruct (visit_reaches M R F Block _ Hrun HF Hdecl HB HI)
    as (R1 & R2 & Hv & [_ Hle]).
  simpl in Hv. rewrite Hcd, Hc in Hv. injection Hv as <-.
  apply Hle. simpl. apply elem_of_app. right. apply list_elem_of_here.
Qed.

End Extractor.

Example extractor_on_the_example :
  dce.run ExtractorInputs.back_edges ExtractorInputs.module
  = Some ([dce.mkFIPCFGEdge 1 2; dce.mkFIPCFGEdge 2 10],
          [dce.mkDCEBB 1 "DCEMarker0_"]).
Proof. vm_compute. reflexivity. Qed.

Lemma extracted_items_are_exact_witness :
  ∃ R, dce.run ExtractorInputs.back_edges ExtractorInputs.module = Some R
       ∧ ∀ m, m ∈ R.2 ↔ marker_origin ExtractorInputs.module m.
Proof.
  destruct (extracted_items_are_exact ExtractorInputs.back_edges
              ExtractorInputs.module) as (R & Hrun & _ & Hmarkers).
  - intros F Block HF Hdecl HB HI.
    unfold ExtractorInputs.module in HF.
    repeat (apply elem_of_cons in HF as [->|HF]); [done| | |by apply elem_of_nil in HF];
      simpl in HB;
      repeat (apply elem_of_cons in HB as [->|HB]);
      try (by apply elem_of_nil in HB);
      simpl in HI;
      repeat (apply elem_of_cons in HI as [[=]|HI]);
      by apply elem_of_nil in HI.
  - exists R. split; [exact Hrun | exact Hmarkers].
Defined.

Lemma marker_calls_are_recorded_witness :
  ∃ R, dce.run ExtractorInputs.back_edges ExtractorInputs.module = Some R
       ∧ dce.mkDCEBB 1 "DCEMarker0_" ∈ R.2.
Proof.
  destruct (dce.run ExtractorInputs.back_edges ExtractorInputs.module)
    as [R|] eqn:Hrun; [|vm_compute in Hrun; discriminate].
  exists R. split; [reflexivity|].
  apply (marker_calls_are_recorded ExtractorInputs.back_edges
           ExtractorInputs.module R ExtractorInputs.f ExtractorInputs.f_first
           ExtractorInputs.marker0 0 "" "" Hrun).
  - apply list_elem_of_further, list_elem_of_here.
  - reflexivity.
  - apply list_elem_of_here.
  - apply list_elem_of_here.
  - reflexivity.
  - vm_compute. reflexivity.
Defined.
